(** * voltcli/utility.py: persistent configuration and zip packaging

    A shallow embedding of the configuration classes ([INIConfigManager],
    [PersistentConfig]) and of the archive builder ([Zipper]) of
    [lib/python/voltcli/utility.py], with the calls they make into the
    Python 2 standard library ([ConfigParser], [zipfile], [os.path]).

    Python dictionaries are finite maps ([gmap string string]); a method
    that mutates its object or the outside world takes and returns them
    explicitly; a raised exception is a value of [exn] returned in place
    of the result, next to the state as it was when the exception left
    the method. *)

From Stdlib Require Import String Ascii List Bool Arith Lia.
From stdpp Require Import base option list strings sorting gmap fin_maps pretty.

Local Open Scope string_scope.

(** ** Exceptions and results *)

Inductive exn : Type :=
  | SystemExit (errors : list string)
      (* raised by abort: the messages shown at ERROR level, then sys.exit(1) *)
  | NameError (name : string)
  | UnboundLocalError (name : string)
  | AttributeError (attr : string)
  | TypeError (what : string)
  | ValueError (what : string)
  | KeyError (key : string)
  | RuntimeError (what : string)
  | IndexError (what : string)
  | DuplicateSectionError (section : string)
  | MissingSectionHeaderError (lineno : nat) (line : string)
  | ParsingError (errors : list (nat * string))
  | NoSectionError (section : string)
  | InterpolationSyntaxError (option : string)
  | InterpolationMissingOptionError (option reference : string)
  | InterpolationDepthError (option : string).

Inductive result (A : Type) : Type :=
  | Ok (a : A)
  | Raise (e : exn).
Arguments Ok {A} a.
Arguments Raise {A} e.

#[global] Instance result_ret : MRet result := fun A a => Ok a.
#[global] Instance result_bind : MBind result := fun A B k r =>
  match r with
  | Ok a => k a
  | Raise e => Raise e
  end.

Definition raised {A} (r : result A) : Prop :=
  match r with Ok _ => False | Raise _ => True end.

(** [abort] displays its messages and leaves the process. *)
Definition abort {A} (msgs : list string) : result A := Raise (SystemExit msgs).

(** ** Strings as Python 2 [str] *)

Definition dquote : string := String (ascii_of_nat 34) EmptyString.

Definition is_dot (c : ascii) : bool := Ascii.eqb c ".".

(** [s.find('.') != -1] *)
Fixpoint has_dot (s : string) : bool :=
  match s with
  | EmptyString => false
  | String c r => is_dot c || has_dot r
  end.

(** [s.split('.', 1)] on a string that holds a dot: the text before the
    first dot and the text after it; on a string without one the whole
    string and nothing. *)
Fixpoint split_dot (s : string) : string * string :=
  match s with
  | EmptyString => (EmptyString, EmptyString)
  | String c r =>
      if is_dot c then (EmptyString, r)
      else let '(a, b) := split_dot r in (String c a, b)
  end.

Definition lower_ascii (c : ascii) : ascii :=
  let n := nat_of_ascii c in
  if Nat.leb 65 n && Nat.leb n 90 then ascii_of_nat (n + 32) else c.

(** [s.lower()] *)
Fixpoint lower (s : string) : string :=
  match s with
  | EmptyString => EmptyString
  | String c r => String (lower_ascii c) (lower r)
  end.

(** [key.startswith(p)] *)
Definition startswith (key p : string) : bool := String.prefix p key.

Definition newline : string := String (ascii_of_nat 10) EmptyString.

(** [s[n:]] *)
Fixpoint str_drop (n : nat) (s : string) : string :=
  match n, s with
  | 0, _ => s
  | S n', String _ r => str_drop n' r
  | S _, EmptyString => EmptyString
  end.

(** [s[:n]] *)
Fixpoint str_take (n : nat) (s : string) : string :=
  match n, s with
  | 0, _ => EmptyString
  | S n', String c r => String c (str_take n' r)
  | S _, EmptyString => EmptyString
  end.

(** [s.split(sep)] for a separator of one character: the pieces between
    the separators, one more than there are separators. *)
Fixpoint str_split (sep : ascii) (s : string) : list string :=
  match s with
  | EmptyString => [EmptyString]
  | String c r =>
      if Ascii.eqb c sep then EmptyString :: str_split sep r
      else match str_split sep r with
           | piece :: pieces => String c piece :: pieces
           | [] => [String c EmptyString]
           end
  end.

(** [c.isspace()]: the characters that [strip] removes. *)
Definition is_space (c : ascii) : bool :=
  let n := nat_of_ascii c in
  Nat.eqb n 32 || (Nat.leb 9 n && Nat.leb n 13).

Fixpoint lstrip (s : string) : string :=
  match s with
  | EmptyString => EmptyString
  | String c r => if is_space c then lstrip r else s
  end.

Fixpoint rstrip (s : string) : string :=
  match s with
  | EmptyString => EmptyString
  | String c r =>
      match rstrip r with
      | EmptyString => if is_space c then EmptyString else String c EmptyString
      | r' => String c r'
      end
  end.

(** [s.strip()] *)
Definition strip (s : string) : string := lstrip (rstrip s).

(** [s.find(c)] for a character [c] *)
Fixpoint str_find (c : ascii) (s : string) : option nat :=
  match s with
  | EmptyString => None
  | String a r => if Ascii.eqb a c then Some 0 else S <$> str_find c r
  end.

(** ** Python dictionaries of strings *)

Abbreviation dict := (gmap string string).

(** [d.keys()], in the order the dictionary iterates. *)
Definition keys (d : dict) : list string := (map_to_list d).*1.

(** [keys.sort()]: byte-wise lexicographic order. *)
Definition sort (l : list string) : list string := merge_sort String.le l.

(** ** The pieces of [ConfigParser] the module calls *)

Module ConfigParser.

Definition DEFAULTSECT : string := "DEFAULT".

(** Option names are case-insensitive: the parser keeps them lowered. *)
Definition optionxform (option : string) : string := lower option.

(** An insertion-ordered dictionary ([OrderedDict]): assigning to a key
    already present keeps its place. *)
Definition odict (V : Type) : Type := list (string * V).

Fixpoint oget {V} (k : string) (d : odict V) : option V :=
  match d with
  | [] => None
  | (k', v) :: r => if String.eqb k k' then Some v else oget k r
  end.

Fixpoint oset {V} (k : string) (v : V) (d : odict V) : odict V :=
  match d with
  | [] => [(k, v)]
  | (k', v') :: r =>
      if String.eqb k k' then (k, v) :: r else (k', v') :: oset k v r
  end.

(** [d.update(e)] *)
Definition oupdate {V} (d e : odict V) : odict V :=
  fold_left (fun acc kv => oset kv.1 kv.2 acc) e d.

Record parser : Type := mkParser {
  _defaults : odict string;
  _sections : odict (odict string)
}.

(** [SafeConfigParser()] *)
Definition new : parser := mkParser [] [].

Definition sections (p : parser) : list string := (_sections p).*1.

(** [add_section]: the name DEFAULT, in any letter case, is refused, and
    so is a section that exists. *)
Definition add_section (p : parser) (section : string) : result parser :=
  if String.eqb (lower section) "default" then
    Raise (ValueError ("Invalid section name: " +:+ section))
  else match oget section (_sections p) with
       | Some _ => Raise (DuplicateSectionError section)
       | None => Ok (mkParser (_defaults p) (_sections p ++ [(section, [])])%list)
       end.

(** The check of [SafeConfigParser.set] for stray percent signs:
    [value.replace('%%', '')], then every [%(name)s] removed, must leave
    no percent sign. *)
Fixpoint drop_percent_pairs (l : list ascii) : list ascii :=
  match l with
  | [] => []
  | c :: r =>
      match r with
      | c' :: r' =>
          if Ascii.eqb c "%" && Ascii.eqb c' "%" then drop_percent_pairs r'
          else c :: drop_percent_pairs r
      | [] => [c]
      end
  end.

(** The longest run of characters other than [)] and the text after it. *)
Fixpoint take_name (l : list ascii) : list ascii * list ascii :=
  match l with
  | [] => ([], [])
  | c :: r =>
      if Ascii.eqb c ")" then ([], l)
      else let '(name, rest) := take_name r in (c :: name, rest)
  end.

(** A match of [%\(([^)]+)\)s] at the head of the text: the name between
    the brackets and what follows the match. *)
Definition match_interpvar (l : list ascii) : option (list ascii * list ascii) :=
  match l with
  | c1 :: c2 :: r =>
      if Ascii.eqb c1 "%" && Ascii.eqb c2 "(" then
        match take_name r with
        | ((_ :: _) as name, c3 :: c4 :: rest) =>
            if Ascii.eqb c3 ")" && Ascii.eqb c4 "s" then Some (name, rest)
            else None
        | _ => None
        end
      else None
  | _ => None
  end.

Fixpoint drop_interpvars (fuel : nat) (l : list ascii) : list ascii :=
  match fuel with
  | 0 => l
  | S fuel' =>
      match match_interpvar l with
      | Some (_, rest) => drop_interpvars fuel' rest
      | None =>
          match l with
          | [] => []
          | c :: r => c :: drop_interpvars fuel' r
          end
      end
  end.

Definition percent_ok (value : string) : bool :=
  let l := drop_percent_pairs (list_ascii_of_string value) in
  forallb (fun c => negb (Ascii.eqb c "%")) (drop_interpvars (List.length l) l).

(** [SafeConfigParser.set(section, option, value)] for a string value:
    the percent check, then [RawConfigParser.set], which files the
    option under the defaults when the section name is empty or DEFAULT
    and under the named section otherwise. *)
Definition set (p : parser) (section option value : string) : result parser :=
  if negb (percent_ok value) then
    Raise (ValueError ("invalid interpolation syntax in " +:+ value))
  else if String.eqb section "" || String.eqb section DEFAULTSECT then
    Ok (mkParser (oset (optionxform option) value (_defaults p)) (_sections p))
  else match oget section (_sections p) with
       | None => Raise (NoSectionError section)
       | Some sectdict =>
           Ok (mkParser (_defaults p)
                 (oset section (oset (optionxform option) value sectdict)
                    (_sections p)))
       end.

(** A file is the list of its lines, each without its line feed.  What
    [_read] makes of them is given in two steps: the lines are gathered
    under their section headers, each header with its option lines, a
    name as written and the value taken from the line and the lines that
    continue it ([_read]); then each section is filed in the parser with
    its options ([read_section]). *)
Record ini_section : Type := mkSection {
  header : string;
  options : list (string * string)
}.
Definition ini_file : Type := list ini_section.

Definition first_char_in (line : string) (f : ascii -> bool) : bool :=
  match line with
  | EmptyString => false
  | String c _ => f c
  end.

(** [line.strip() == '' or line[0] in '#;'] *)
Definition is_comment (line : string) : bool :=
  String.eqb (strip line) ""
  || first_char_in line (fun c => Ascii.eqb c "#" || Ascii.eqb c ";").

Fixpoint take_word (s : string) : string :=
  match s with
  | EmptyString => EmptyString
  | String c r => if is_space c then EmptyString else String c (take_word r)
  end.

(** [line.split(None, 1)[0].lower() == 'rem' and line[0] in "rR"] *)
Definition is_rem (line : string) : bool :=
  String.eqb (lower (take_word (lstrip line))) "rem"
  && first_char_in line (fun c => Ascii.eqb c "r" || Ascii.eqb c "R").

(** The text up to the first closing bracket, when there is one. *)
Fixpoint until_bracket (s : string) : option string :=
  match s with
  | EmptyString => None
  | String c r =>
      if Ascii.eqb c "]" then Some EmptyString
      else String c <$> until_bracket r
  end.

(** [SECTCRE.match(line)] for the pattern [\[(?P<header>[^]]+)\]]: the
    header it finds. *)
Definition match_section (line : string) : option string :=
  match line with
  | EmptyString => None
  | String c r =>
      if Ascii.eqb c "[" then
        match until_bracket r with
        | Some EmptyString | None => None
        | Some sectname => Some sectname
        end
      else None
  end.

Definition is_vi (c : ascii) : bool := Ascii.eqb c ":" || Ascii.eqb c "=".

(** The text before the first colon or equals sign and the text after it. *)
Fixpoint split_vi (s : string) : option (string * string) :=
  match s with
  | EmptyString => None
  | String c r =>
      if is_vi c then Some (EmptyString, r)
      else match split_vi r with
           | Some (a, b) => Some (String c a, b)
           | None => None
           end
  end.

(** [OPTCRE.match(line)], the groups [option] and [value].  The pattern
    asks for a first character that is no colon, equals sign or white
    space; the option runs up to the first colon or equals sign of the
    line, and the value is what follows it, without the white space at
    its head. *)
Definition match_option (line : string) : option (string * string) :=
  if first_char_in line (fun c => negb (is_vi c || is_space c)) then
    match split_vi line with
    | Some (option, rest) => Some (option, lstrip rest)
    | None => None
    end
  else None.

(** What [_read] keeps of the value group: a semicolon that follows a
    space starts a comment ([optval[pos-1]], which for a semicolon at the
    head is the last character), the rest is stripped, and two double
    quotes stand for the empty value. *)
Definition option_value (optval : string) : string :=
  let optval1 :=
    match str_find ";" optval with
    | Some pos =>
        let before :=
          String.get (if Nat.eqb pos 0 then String.length optval - 1 else pos - 1)
            optval in
        match before with
        | Some c => if is_space c then str_take pos optval else optval
        | None => optval
        end
    | None => optval
    end in
  let optval2 := strip optval1 in
  if String.eqb optval2 (dquote +:+ dquote) then EmptyString else optval2.

Fixpoint on_last {A} (g : A -> A) (l : list A) : list A :=
  match l with
  | [] => []
  | [x] => [g x]
  | x :: r => x :: on_last g r
  end.

(** [cursect[optname] = [optval]] in the section being read. *)
Definition add_option (optname optval : string) (f : ini_file) : ini_file :=
  on_last (fun s => mkSection (header s) (options s ++ [(optname, optval)])%list) f.

(** [cursect[optname].append(value)]; the pieces of a value are joined by
    line feeds at the end of [_read]. *)
Definition append_value (value : string) (f : ini_file) : ini_file :=
  on_last (fun s => mkSection (header s)
                      (on_last (fun nv => (nv.1, nv.2 +:+ newline +:+ value))
                         (options s))) f.

(** The state of [_read]: the sections read so far, the one being read
    last ([cursect] is [None] while there is none); the name of the
    option that a continuation line would continue; the lines refused so
    far, with their numbers. *)
Record reader : Type := mkReader {
  rd_sections : ini_file;
  rd_optname : option string;
  rd_errors : list (nat * string)
}.

(** One turn of the loop of [_read]. *)
Definition _read_line (st : reader) (lineno : nat) (line : string)
  : result reader :=
  if is_comment line then Ok st
  else if is_rem line then Ok st
  else if first_char_in line is_space
          && negb (bool_decide (rd_sections st = []))
          && bool_decide (is_Some (rd_optname st)) then
    let value := strip line in
    if String.eqb value "" then Ok st
    else Ok (mkReader (append_value value (rd_sections st)) (rd_optname st)
               (rd_errors st))
  else
    match match_section line with
    | Some sectname =>
        Ok (mkReader (rd_sections st ++ [mkSection sectname []])%list None
              (rd_errors st))
    | None =>
        if bool_decide (rd_sections st = []) then
          Raise (MissingSectionHeaderError lineno line)
        else
          match match_option line with
          | Some (optname, optval) =>
              Ok (mkReader
                    (add_option (rstrip optname) (option_value optval)
                       (rd_sections st))
                    (Some (optionxform (rstrip optname))) (rd_errors st))
          | None =>
              Ok (mkReader (rd_sections st) (rd_optname st)
                    (rd_errors st ++ [(lineno, line)])%list)
          end
    end.

Fixpoint _read_loop (st : reader) (lineno : nat) (lines : list string)
  : result reader :=
  match lines with
  | [] => Ok st
  | line :: rest =>
      st1 ← _read_line st (S lineno) line; _read_loop st1 (S lineno) rest
  end.

(** [_read(fp, fpname)]: a line before the first section header that is
    no comment raises [MissingSectionHeaderError] at once; lines that are
    neither headers nor options raise one [ParsingError] at the end. *)
Definition _read (lines : list string) : result ini_file :=
  st ← _read_loop (mkReader [] None []) 0 lines;
  match rd_errors st with
  | [] => Ok (rd_sections st)
  | errors => Raise (ParsingError errors)
  end.

Definition read_options (lines : list (string * string)) (cursect : odict string)
  : odict string :=
  fold_left (fun acc nv => oset (optionxform nv.1) nv.2 acc) lines cursect.

Definition read_section (p : parser) (s : ini_section) : parser :=
  match oget (header s) (_sections p) with
  | Some cursect =>
      mkParser (_defaults p)
        (oset (header s) (read_options (options s) cursect) (_sections p))
  | None =>
      if String.eqb (header s) DEFAULTSECT then
        mkParser (read_options (options s) (_defaults p)) (_sections p)
      else
        mkParser (_defaults p)
          (_sections p
             ++ [(header s, read_options (options s) [("__name__", header s)])])%list
  end.

(** [parser.read(path)]: a file that cannot be opened is passed over. *)
Definition read (p : parser) (file : option (list string)) : result parser :=
  match file with
  | None => Ok p
  | Some lines => f ← _read lines; Ok (fold_left read_section f p)
  end.

Definition has_percent (l : list ascii) : bool :=
  existsb (fun c => Ascii.eqb c "%") l.

(** The loop of [_interpolate_some] over the text [rest] of a value:
    [%%] gives a percent sign, [%(name)s] the value of the option [name]
    in [map], itself interpolated one level [deeper] when it holds a
    percent sign; any other use of the percent sign is refused. *)
Fixpoint interpolate_loop (deeper : list ascii -> result (list ascii))
    (option : string) (map : odict string) (fuel : nat) (rest : list ascii)
  : result (list ascii) :=
  match fuel, rest with
  | 0, _ | _, [] => Ok []
  | S fuel', c :: r =>
      if negb (Ascii.eqb c "%") then
        accum ← interpolate_loop deeper option map fuel' r; Ok (c :: accum)
      else
        match r with
        | c' :: r' =>
            if Ascii.eqb c' "%" then
              accum ← interpolate_loop deeper option map fuel' r'; Ok (c :: accum)
            else if Ascii.eqb c' "(" then
              match match_interpvar rest with
              | None => Raise (InterpolationSyntaxError option)
              | Some (name, rest') =>
                  let var := optionxform (string_of_list_ascii name) in
                  match oget var map with
                  | None => Raise (InterpolationMissingOptionError option var)
                  | Some v =>
                      let lv := list_ascii_of_string v in
                      v' ← (if has_percent lv then deeper lv else Ok lv);
                      accum ← interpolate_loop deeper option map fuel' rest';
                      Ok (v' ++ accum)%list
                  end
              end
            else Raise (InterpolationSyntaxError option)
        | [] => Raise (InterpolationSyntaxError option)
        end
  end.

(** [_interpolate_some] with [depth] levels left before
    [MAX_INTERPOLATION_DEPTH] is passed. *)
Fixpoint interpolate_some (depth : nat) (option : string) (map : odict string)
    (rest : list ascii) : result (list ascii) :=
  match depth with
  | 0 => Raise (InterpolationDepthError option)
  | S depth' =>
      interpolate_loop (interpolate_some depth' option map) option map
        (List.length rest) rest
  end.

Definition MAX_INTERPOLATION_DEPTH : nat := 10.

(** [self._interpolate(section, option, rawval, vars)] *)
Definition interpolate (option rawval : string) (map : odict string)
  : result string :=
  l ← interpolate_some MAX_INTERPOLATION_DEPTH option map
         (list_ascii_of_string rawval);
  Ok (string_of_list_ascii l).

Fixpoint interpolate_all (map : odict string) (opts : list (string * string))
  : result (list (string * string)) :=
  match opts with
  | [] => Ok []
  | (option, rawval) :: rest =>
      value ← interpolate option rawval map;
      its ← interpolate_all map rest;
      Ok ((option, value) :: its)
  end.

(** The options of a merged dictionary, without the hidden [__name__]. *)
Definition visible (d : odict string) : list (string * string) :=
  List.filter (fun kv => negb (String.eqb kv.1 "__name__")) d.

(** [parser.items(section)]: the defaults overlaid with the section's
    own entries; every option but [__name__], with its value
    interpolated in that dictionary. *)
Definition items (p : parser) (section : string) : result (list (string * string)) :=
  match oget section (_sections p) with
  | None =>
      if String.eqb section DEFAULTSECT
      then interpolate_all (_defaults p) (visible (_defaults p))
      else Raise (NoSectionError section)
  | Some sectdict =>
      let d := oupdate (_defaults p) sectdict in
      interpolate_all d (visible d)
  end.

End ConfigParser.

(** ** The file system: configuration files by path, each the list of
    its lines *)

Abbreviation filesystem := (gmap string (list string)).

(** ** [INIConfigManager] *)

(** ['%s.%s' % (section, name)] *)
Definition dotted (section name : string) : string :=
  section +:+ String "." name.

(** The inner loop of [load]: [d['%s.%s' % (section, name)] = value]. *)
Definition load_items (section : string) (its : list (string * string)) (d : dict)
  : dict :=
  fold_left (fun acc nv => <[dotted section nv.1 := nv.2]> acc) its d.

(** The outer loop of [load], over [parser.sections()]. *)
Fixpoint load_sections (p : ConfigParser.parser) (secs : list string) (d : dict)
  : result dict :=
  match secs with
  | [] => Ok d
  | section :: rest =>
      its ← ConfigParser.items p section;
      load_sections p rest (load_items section its d)
  end.

Definition load (path : string) (fs : filesystem) : result dict :=
  parser ← ConfigParser.read ConfigParser.new (fs !! path);
  load_sections parser (ConfigParser.sections parser) ∅.

(** The message of the [abort] call in [save]. *)
Definition usage_msg (key : string) : string :=
  "Key " +:+ dquote +:+ key +:+ dquote +:+ " must have a section, e.g. "
    +:+ dquote +:+ "volt." +:+ key +:+ dquote.

(** [d[key]] *)
Definition getitem (d : dict) (key : string) : result string :=
  match d !! key with
  | Some v => Ok v
  | None => Raise (KeyError key)
  end.

(** One turn of the loop of [save]. *)
Definition save_step (d : dict) (key : string)
    (st : option string * ConfigParser.parser)
  : result (option string * ConfigParser.parser) :=
  let '(cur_section, parser) := st in
  if negb (has_dot key) then abort [usage_msg key]
  else
    let '(section, name) := split_dot key in
    st1 ← (if match cur_section with
               | None => true
               | Some cur => negb (String.eqb section cur)
               end
            then parser1 ← ConfigParser.add_section parser section;
                 Ok (section, parser1)
            else Ok (default section cur_section, parser));
    value ← getitem d key;
    parser2 ← ConfigParser.set st1.2 st1.1 name value;
    Ok (Some st1.1, parser2).

Fixpoint save_loop (d : dict) (ks : list string)
    (st : option string * ConfigParser.parser)
  : result (option string * ConfigParser.parser) :=
  match ks with
  | [] => Ok st
  | key :: rest => st1 ← save_step d key st; save_loop d rest st1
  end.

(** [save(path, d)].  Once the parser is filled the method evaluates
    [FileWriter(path)].  The module neither defines nor imports a name
    [FileWriter] (its file class is [File]), so the lookup raises
    [NameError] and [parser.write] is never reached: no branch touches
    the file system. *)
Definition save (path : string) (d : dict) (fs : filesystem)
  : result unit * filesystem :=
  match save_loop d (sort (keys d)) (None, ConfigParser.new) with
  | Raise e => (Raise e, fs)
  | Ok _ => (Raise (NameError "FileWriter"), fs)
  end.

(** ** [PersistentConfig] *)

Record PersistentConfig : Type := mkPersistentConfig {
  permanent_path : string;
  local_path : string;
  permanent : dict;
  local : dict
}.

(** [PersistentConfig(format, permanent_path, local_path)] *)
Definition PersistentConfig_init (format permanent_path local_path : string)
    (fs : filesystem) : result PersistentConfig :=
  if String.eqb (lower format) "ini" then
    permanent ← load permanent_path fs;
    local ← load local_path fs;
    Ok (mkPersistentConfig permanent_path local_path permanent local)
  else abort ["Unsupported configuration format " +:+ dquote +:+ format
                +:+ dquote +:+ "."].

Definition save_permanent (self : PersistentConfig) (fs : filesystem)
  : result unit * filesystem :=
  save (permanent_path self) (permanent self) fs.

Definition save_local (self : PersistentConfig) (fs : filesystem)
  : result unit * filesystem :=
  save (local_path self) (local self) fs.

(** [get(key)]; [None] is Python's [None]. *)
Definition get (self : PersistentConfig) (key : string) : option string :=
  match local self !! key with
  | Some v => Some v
  | None => permanent self !! key
  end.

(** [set_permanent(key, value)]: the object after the assignment, the
    outcome of the save and the file system after it. *)
Definition set_permanent (self : PersistentConfig) (key value : string)
    (fs : filesystem) : result unit * PersistentConfig * filesystem :=
  let self1 := mkPersistentConfig (permanent_path self) (local_path self)
                 (<[key := value]> (permanent self)) (local self) in
  let '(r, fs1) := save_permanent self1 fs in
  (r, self1, fs1).

Definition set_local (self : PersistentConfig) (key value : string)
    (fs : filesystem) : result unit * PersistentConfig * filesystem :=
  let self1 := mkPersistentConfig (permanent_path self) (local_path self)
                 (permanent self) (<[key := value]> (local self)) in
  let '(r, fs1) := save_local self1 fs in
  (r, self1, fs1).

(** The argument of [query]: a string, [None], or the parameter's default,
    which the [def] line binds to the builtin function [filter]. *)
Inductive filter_arg : Type :=
  | FilterNone
  | FilterStr (s : string)
  | FilterBuiltin.

(** [if filter:] *)
Definition truthy (filter : filter_arg) : bool :=
  match filter with
  | FilterNone => false
  | FilterStr s => negb (String.eqb s "")
  | FilterBuiltin => true
  end.

(** [key.startswith(filter)] *)
Definition startswith_arg (key : string) (filter : filter_arg) : result bool :=
  match filter with
  | FilterStr s => Ok (startswith key s)
  | _ => Raise (TypeError "startswith first arg must be str, unicode, or tuple")
  end.

(** [for key in self.local: if key.startswith(filter): results[key] = self.local[key]] *)
Fixpoint query_local (self : PersistentConfig) (filter : filter_arg)
    (ks : list string) (results : dict) : result dict :=
  match ks with
  | [] => Ok results
  | key :: rest =>
      b ← startswith_arg key filter;
      if (b : bool) then
        v ← getitem (local self) key;
        query_local self filter rest (<[key := v]> results)
      else query_local self filter rest results
  end.

(** The loops over [self.permanent].  Their assignment stores into
    [self.results]; no method ever sets that attribute, so reaching the
    assignment raises [AttributeError].  [filter] is [None] for the loop
    of the branch without a filter. *)
Fixpoint query_permanent (self : PersistentConfig) (filter : option filter_arg)
    (ks : list string) (results : dict) : result dict :=
  match ks with
  | [] => Ok results
  | key :: rest =>
      b ← (if bool_decide (is_Some (results !! key)) then Ok false
           else match filter with
                | Some f => startswith_arg key f
                | None => Ok true
                end);
      if (b : bool) then
        _ ← getitem (permanent self) key;
        Raise (AttributeError "results")
      else query_permanent self filter rest results
  end.

Definition query (self : PersistentConfig) (filter : filter_arg) : result dict :=
  if truthy filter then
    results ← query_local self filter (keys (local self)) ∅;
    query_permanent self (Some filter) (keys (permanent self)) results
  else
    query_permanent self None (keys (permanent self)) (local self).

(** ** [os.path] and the process environment of [Zipper] *)

Fixpoint ends_with_slash (s : string) : bool :=
  match s with
  | EmptyString => false
  | String c EmptyString => Ascii.eqb c "/"
  | String _ r => ends_with_slash r
  end.

(** [os.path.join(a, b)] of [posixpath] *)
Definition os_path_join (a b : string) : string :=
  if String.prefix "/" b then b
  else if String.eqb a "" || ends_with_slash a then a +:+ b
  else a +:+ "/" +:+ b.

(** One turn of the loop of [normpath] over the components of a path. *)
Definition normpath_step (initial_slashes : nat) (new_comps : list string)
    (comp : string) : list string :=
  if String.eqb comp "" || String.eqb comp "." then new_comps
  else if negb (String.eqb comp "..")
          || (Nat.eqb initial_slashes 0 && bool_decide (new_comps = []))
          || bool_decide (last new_comps = Some "..")
  then (new_comps ++ [comp])%list
  else removelast new_comps.

(** [os.path.normpath(path)] of [posixpath] *)
Definition normpath (path : string) : string :=
  if String.eqb path "" then "."
  else
    let initial_slashes :=
      if String.prefix "/" path then
        if String.prefix "//" path && negb (String.prefix "///" path) then 2 else 1
      else 0 in
    let comps := str_split "/" path in
    let new_comps := fold_left (normpath_step initial_slashes) comps [] in
    let path1 := String.concat "/" new_comps in
    let path2 :=
      match initial_slashes with
      | 0 => path1
      | 1 => "/" +:+ path1
      | _ => "//" +:+ path1
      end in
    if String.eqb path2 "" then "." else path2.

(** ['\n'.join(l)] *)
Definition join_lines (l : list string) : string := String.concat newline l.

(** A zip file on disk: its entries in the order written, and whether it
    has been closed. *)
Record archive : Type := mkArchive {
  entries : list (string * string);
  finalized : bool
}.

(** What the methods of [Zipper] read and write outside their object: the
    flags of [Global], the lines shown by [debug], the working directory,
    the regular files (by absolute path, with their content), the
    directories (by absolute path, with what [os.walk('.')] yields from
    inside them: each [basedir] with its [filenames]), the paths that
    cannot be opened for writing, and the zip files written so far. *)
Record world : Type := mkWorld {
  dryrun_enabled : bool;
  debug_enabled : bool;
  stdout : list string;
  cwd : string;
  files : gmap string string;
  dirs : gmap string (list (string * list string));
  unwritable : gset string;
  archives : gmap string archive
}.

Definition with_stdout (w : world) (out : list string) : world :=
  mkWorld (dryrun_enabled w) (debug_enabled w) out (cwd w) (files w) (dirs w)
    (unwritable w) (archives w).

Definition with_cwd (w : world) (dir : string) : world :=
  mkWorld (dryrun_enabled w) (debug_enabled w) (stdout w) dir (files w) (dirs w)
    (unwritable w) (archives w).

Definition with_archives (w : world) (a : gmap string archive) : world :=
  mkWorld (dryrun_enabled w) (debug_enabled w) (stdout w) (cwd w) (files w)
    (dirs w) (unwritable w) a.

(** A path as the process resolves it.  [os.path.realpath] is modelled by
    the same function: the file systems considered have no symbolic links. *)
Definition abspath (w : world) (path : string) : string :=
  os_path_join (cwd w) path.

(** [debug(msg)] *)
Definition debug (w : world) (msg : string) : world :=
  if debug_enabled w then with_stdout w (stdout w ++ [msg])%list else w.

(** ** [zipfile.ZipFile], by the path of the file it writes *)

Module ZipFile.

(** [ZipFile(path, 'w', ZIP_DEFLATED)] creates or truncates the file. *)
Definition create (w : world) (path : string) : option (string * world) :=
  let p := abspath w path in
  if bool_decide (p ∈ unwritable w) then None
  else Some (p, with_archives w (<[p := mkArchive [] false]> (archives w))).

(** The name that [ZipInfo(filename)] keeps: the file name up to its
    first null byte. *)
Fixpoint zipinfo_name (filename : string) : string :=
  match filename with
  | EmptyString => EmptyString
  | String c r =>
      if Ascii.eqb c zero then EmptyString else String c (zipinfo_name r)
  end.

(** [writestr(name, data)]; a closed archive refuses it. *)
Definition writestr (w : world) (zip name data : string) : result world :=
  match archives w !! zip with
  | Some a =>
      if finalized a then
        Raise (RuntimeError "Attempt to write to ZIP archive that was already closed")
      else Ok (with_archives w
                 (<[zip := mkArchive (entries a ++ [(zipinfo_name name, data)])%list
                             false]>
                    (archives w)))
  | None => Raise (RuntimeError "Attempt to write to ZIP archive that was already closed")
  end.

(** [while arcname[0] in (os.sep, os.altsep): arcname = arcname[1:]] *)
Fixpoint strip_seps (arcname : string) : result string :=
  match arcname with
  | EmptyString => Raise (IndexError "string index out of range")
  | String c r => if Ascii.eqb c "/" then strip_seps r else Ok arcname
  end.

(** The name that [write] gives the entry: the normalised [arcname]
    without the slashes at its head. *)
Definition arcname_of (arcname : string) : result string :=
  strip_seps (normpath arcname).

(** [write(filename, arcname)].  The test for a closed archive comes
    first; then [os.stat(filename)], whose [OSError] for a path that
    names nothing [None] stands for; then the name of the entry.  A
    directory gives an entry without content, its name ending in a
    slash. *)
Definition write (w : world) (zip filename arcname : string)
  : result (option world) :=
  match archives w !! zip with
  | Some a =>
      if finalized a then
        Raise (RuntimeError "Attempt to write to ZIP archive that was already closed")
      else
        match dirs w !! abspath w filename, files w !! abspath w filename with
        | Some _, _ =>
            name ← arcname_of arcname;
            w1 ← writestr w zip (name +:+ "/") EmptyString; Ok (Some w1)
        | None, Some data =>
            name ← arcname_of arcname;
            w1 ← writestr w zip name data; Ok (Some w1)
        | None, None => Ok None
        end
  | None => Raise (RuntimeError "Attempt to write to ZIP archive that was already closed")
  end.

Definition close (w : world) (zip : string) : world :=
  match archives w !! zip with
  | Some a => with_archives w (<[zip := mkArchive (entries a) true]> (archives w))
  | None => w
  end.

End ZipFile.

(** ** [Zipper] *)

(** A compiled pattern of [re]: its source and its [search] method. *)
Record regex : Type := mkRegex {
  re_pattern : string;
  re_search : string -> bool
}.

Record Zipper : Type := mkZipper {
  output_zip : option string;
  output_path : option string;
  manifest : list string;
  re_excludes : list regex
}.

(** The constructor of [Zipper], given [re.compile] and the patterns
    passed as its arguments. *)
Definition Zipper_init (re_compile : string -> regex) (excludes : list string)
  : Zipper :=
  mkZipper None None [] (List.map re_compile excludes).

(** [str(self.output_path)] *)
Definition output_path_str (self : Zipper) : string :=
  default "None" (output_path self).

(** [self._debug(msg)] *)
Definition Zipper_debug (self : Zipper) (w : world) (msg : string) : world :=
  debug w (output_path_str self +:+ ": " +:+ msg).

(** [self._abort(msgs)] *)
Definition Zipper_abort {A} (self : Zipper) (msgs : list string) : result A :=
  abort (("Fatal error writing zip file " +:+ dquote +:+ output_path_str self
            +:+ dquote +:+ ".") :: msgs).

Definition Zipper_open (self : Zipper) (w : world) (path : string)
  : result unit * Zipper * world :=
  let self1 := mkZipper (output_zip self) (Some path) (manifest self)
                 (re_excludes self) in
  if negb (dryrun_enabled w) then
    match ZipFile.create w path with
    | Some (zip, w1) =>
        (Ok tt, mkZipper (Some zip) (Some path) (manifest self) (re_excludes self), w1)
    | None => (Zipper_abort self1 ["Failed to open for writing."; "IOError"], self1, w)
    end
  else (Ok tt, self1, w).

Definition Zipper_close (self : Zipper) (w : world)
  : result unit * Zipper * world :=
  match output_zip self with
  | Some zip =>
      match ZipFile.writestr w zip "MANIFEST" (join_lines (manifest self)) with
      | Ok w1 => (Ok tt, self, ZipFile.close w1 zip)
      | Raise e => (Raise e, self, w)
      end
  | None => (Ok tt, self, w)
  end.

(** The [for] loop of [add_file] over [self.re_excludes].  The local
    variable [path_in_full] is unbound ([None]) until the body runs; the
    loop answers whether it left by [break] and what the variable holds. *)
Fixpoint add_file_excluded (w : world) (path_in : string) (res : list regex)
    (path_in_full : option string) : bool * option string :=
  match res with
  | [] => (false, path_in_full)
  | re_exclude :: rest =>
      let path_in_full := Some (abspath w path_in) in
      if re_search re_exclude path_in then (true, path_in_full)
      else add_file_excluded w path_in rest path_in_full
  end.

(** Reading a local variable. *)
Definition local_var (name : string) (v : option string) : result string :=
  match v with
  | Some s => Ok s
  | None => Raise (UnboundLocalError name)
  end.

Definition add_file (self : Zipper) (w : world) (path_in path_out : string)
  : result unit * Zipper * world :=
  match add_file_excluded w path_in (re_excludes self) None with
  | (true, path_in_full) =>
      match local_var "path_in_full" path_in_full with
      | Raise e => (Raise e, self, w)
      | Ok full =>
          (Ok tt, self, Zipper_debug self w ("skip " +:+ dquote +:+ full +:+ dquote))
      end
  | (false, path_in_full) =>
      match local_var "path_in_full" path_in_full with
      | Raise e => (Raise e, self, w)
      | Ok full =>
          let w1 := Zipper_debug self w
                      ("add " +:+ dquote +:+ full +:+ dquote +:+ " as "
                         +:+ dquote +:+ path_out +:+ dquote) in
          match output_zip self with
          | None => (Ok tt, self, w1)
          | Some zip =>
              match ZipFile.write w1 zip path_in path_out with
              | Raise e => (Raise e, self, w1)
              | Ok None =>
                  (Zipper_abort self
                     ["Failed to write file " +:+ dquote +:+ "%s" +:+ dquote
                        +:+ " to output zip file " +:+ dquote +:+ "%s"
                        +:+ dquote +:+ "."; path_out; "OSError"], self, w1)
              | Ok (Some w2) =>
                  (Ok tt,
                   mkZipper (output_zip self) (output_path self)
                     (manifest self ++ [path_out])%list (re_excludes self),
                   w2)
              end
          end
      end
  end.

Definition add_string (self : Zipper) (w : world) (s path_out : string)
  : result unit * Zipper * world :=
  let w1 := Zipper_debug self w
              ("write string to " +:+ dquote +:+ path_out +:+ dquote) in
  match output_zip self with
  | None => (Ok tt, self, w1)
  | Some zip =>
      match ZipFile.writestr w1 zip path_out s with
      | Raise e => (Raise e, self, w1)
      | Ok w2 =>
          (Ok tt,
           mkZipper (output_zip self) (output_path self)
             (manifest self ++ [path_out])%list (re_excludes self),
           w2)
      end
  end.

(** The two nested loops of [add_directory], flattened: every file of the
    walk with the directory that holds it.  An exception ends them. *)
Fixpoint add_directory_files (self : Zipper) (w : world) (dst basedir : string)
    (filenames : list string) : result unit * Zipper * world :=
  match filenames with
  | [] => (Ok tt, self, w)
  | filename :: rest =>
      let file_path_in := str_drop 2 (os_path_join basedir filename) in
      let file_path_out :=
        os_path_join (os_path_join dst (str_drop 2 basedir)) filename in
      match add_file self w file_path_in file_path_out with
      | (Ok _, self1, w1) => add_directory_files self1 w1 dst basedir rest
      | (Raise e, self1, w1) => (Raise e, self1, w1)
      end
  end.

Fixpoint add_directory_walk (self : Zipper) (w : world) (dst : string)
    (walk : list (string * list string)) : result unit * Zipper * world :=
  match walk with
  | [] => (Ok tt, self, w)
  | (basedir, filenames) :: rest =>
      match add_directory_files self w dst basedir filenames with
      | (Ok _, self1, w1) => add_directory_walk self1 w1 dst rest
      | (Raise e, self1, w1) => (Raise e, self1, w1)
      end
  end.

(** [add_directory(path_in, dst, excludes)].  The body never mentions its
    parameter [excludes]. *)
Definition add_directory (self : Zipper) (w : world) (path_in dst : string)
    (excludes : list string) : result unit * Zipper * world :=
  match dirs w !! abspath w path_in with
  | None =>
      (Zipper_abort self
         ["Zip source directory " +:+ dquote +:+ path_in +:+ dquote
            +:+ " does not exist."], self, w)
  | Some walk =>
      let savedir := cwd w in
      let '(r, self1, w1) :=
        add_directory_walk self (with_cwd w (abspath w path_in)) dst walk in
      (r, self1, with_cwd w1 savedir)
  end.

(** A call a client makes between [open] and [close]. *)
Inductive call : Type :=
  | AddFile (path_in path_out : string)
  | AddString (s path_out : string)
  | AddDirectory (path_in dst : string) (excludes : list string).

Definition do_call (self : Zipper) (w : world) (c : call)
  : result unit * Zipper * world :=
  match c with
  | AddFile path_in path_out => add_file self w path_in path_out
  | AddString s path_out => add_string self w s path_out
  | AddDirectory path_in dst excludes => add_directory self w path_in dst excludes
  end.

(** A sequence of calls; an exception out of one ends the sequence. *)
Fixpoint do_calls (self : Zipper) (w : world) (cs : list call)
  : result unit * Zipper * world :=
  match cs with
  | [] => (Ok tt, self, w)
  | c :: rest =>
      match do_call self w c with
      | (Ok _, self1, w1) => do_calls self1 w1 rest
      | (Raise e, self1, w1) => (Raise e, self1, w1)
      end
  end.

(** Patterns made of letters and digits only mean themselves: [search]
    finds them as substrings. *)
Fixpoint contains (needle hay : string) : bool :=
  String.prefix needle hay ||
  match hay with
  | EmptyString => false
  | String _ r => contains needle r
  end.

Definition re_compile_plain (pattern : string) : regex :=
  mkRegex pattern (contains pattern).

(** ** Vocabulary of the statements *)

(** A key passes the filter: every key passes [None] and the empty string,
    a key passes a string it starts with. *)
Definition passes (filter : filter_arg) (key : string) : bool :=
  match filter with
  | FilterNone => true
  | FilterStr s => startswith key s
  | FilterBuiltin => false
  end.

(** The merged map: the keys of both tiers that pass the filter, with
    the local value where both tiers hold the key. *)
Definition merged (self : PersistentConfig) (f : filter_arg) : dict :=
  filter (λ kv : string * string, passes f kv.1 = true)
    (local self ∪ permanent self).

(** The parser takes a key with its value: the section of the key is not
    DEFAULT in any letter case and the value passes the percent check. *)
Definition parser_accepts (key value : string) : bool :=
  negb (String.eqb (lower (split_dot key).1) "default")
  && ConfigParser.percent_ok value.

(** What holds after the loop of [save] has passed the key [last]: the
    current section is the one of [last] and exists, and every section of
    the parser has no dot and is the section of a key not above [last]. *)
Definition save_inv (last : string) (st : option string * ConfigParser.parser)
  : Prop :=
  st.1 = Some (split_dot last).1 ∧
  is_Some (ConfigParser.oget (split_dot last).1 (ConfigParser._sections st.2)) ∧
  ∀ s, is_Some (ConfigParser.oget s (ConfigParser._sections st.2)) →
       has_dot s = false ∧ ∃ n, String.le (dotted s n) last.

(** An entry of a parser dictionary has its name in lower case. *)
Definition lowered_entry (kv : string * string) : Prop := lower kv.1 = kv.1.

(** An entry of a parser dictionary is the hidden [__name__] or has a value
    without percent sign. *)
Definition plain_entry (kv : string * string) : Prop :=
  kv.1 = "__name__" ∨
  ConfigParser.has_percent (list_ascii_of_string kv.2) = false.

(** Every option line of the file has a value without percent sign. *)
Definition plain_file (f : ConfigParser.ini_file) : Prop :=
  Forall (λ s, Forall (λ nv, ConfigParser.has_percent (list_ascii_of_string nv.2) = false)
                 (ConfigParser.options s)) f.

(** The parser after reading: [P] of every entry, defaults and sections
    alike, and only sections whose header is among [hs]. *)
Definition entries_inv (P : string * string → Prop) (hs : list string)
    (p : ConfigParser.parser) : Prop :=
  Forall P (ConfigParser._defaults p) ∧
  Forall (λ s, s.1 ∈ hs ∧ Forall P s.2) (ConfigParser._sections p).

(** A pattern of the constructor is found in the path handed to [add_file]. *)
Definition excluded (self : Zipper) (path_in : string) : bool :=
  existsb (λ re_exclude, re_search re_exclude path_in) (re_excludes self).

(** The destination paths that calls which all return leave in the
    manifest, in call order. *)
Fixpoint listed (self : Zipper) (cs : list call) : list string :=
  match cs with
  | [] => []
  | AddFile path_in path_out :: rest =>
      if excluded self path_in then listed self rest
      else path_out :: listed self rest
  | AddString _ path_out :: rest => path_out :: listed self rest
  | AddDirectory _ _ _ :: rest => listed self rest
  end.

Definition no_directory (c : call) : Prop :=
  match c with AddDirectory _ _ _ => False | _ => True end.

(** ** Examples *)

Definition example_config : PersistentConfig :=
  mkPersistentConfig "perm.cfg" "local.cfg"
    {[ "volt.port" := "21212"; "volt.host" := "node1" ]}
    {[ "volt.port" := "21311" ]}.

Definition permanent_only_config : PersistentConfig :=
  mkPersistentConfig "perm.cfg" "local.cfg" {[ "a.b" := "1" ]} ∅.

(** The map and the file system of the example of the specification. *)
Definition volt_port : dict := {[ "volt.port" := "21212" ]}.

Definition example_fs : filesystem :=
  {[ "perm.cfg" := ["[volt]"; "port = 21212"];
     "local.cfg" := ["[volt]"; "port = 21311"] ]}.

Definition nodot_config : dict :=
  {[ "a.b" := "1"; "nodot" := "2"; "zz" := "3" ]}.

Definition default_config : dict :=
  {[ "DEFAULT.x" := "1"; "nodot" := "2" ]}.

Definition dotted_header_fs : filesystem :=
  {[ "x.cfg" := ["[a.B]"; "C = 1"] ]}.

(** A file that writes an option name with a capital. *)
Definition capital_fs : filesystem :=
  {[ "c.cfg" := ["[volt]"; "Port = 21212"] ]}.

Definition example_world : world :=
  mkWorld false true [] "/home/u"
    {[ "/home/u/a.txt" := "A";
       "/home/u/proj/secret.txt" := "s3";
       "/home/u/proj/sub/a.py" := "print" ]}
    {[ "/home/u/proj" := [(".", ["secret.txt"]); ("./sub", ["a.py"])] ]}
    ∅ ∅.

(** A [Zipper] built with the given patterns and opened on [out.zip]. *)
Definition opened (excludes : list string) : Zipper * world :=
  let r := Zipper_open (Zipper_init re_compile_plain excludes) example_world "out.zip" in
  (r.1.2, r.2).

Definition dryrun_world : world :=
  mkWorld true true [] (cwd example_world) (files example_world)
    (dirs example_world) ∅ ∅.

(** * The rest of the module *)
(** ** [PersistentConfig.query_pairs] *)

(** The loop of [query_pairs]: [results.append((key, d[key]))]. *)
Fixpoint query_pairs_loop (d : dict) (ks : list string)
  : result (list (string * string)) :=
  match ks with
  | [] => Ok []
  | key :: rest =>
      v ← getitem d key;
      results ← query_pairs_loop d rest;
      Ok ((key, v) :: results)
  end.

Definition query_pairs (self : PersistentConfig) (filter : filter_arg)
  : result (list (string * string)) :=
  d ← query self filter;
  query_pairs_loop d (sort (keys d)).

(** ** Python values: scalars, lists and tuples *)

#[warnings="-register-all"]
Inductive value : Type :=
  | VNone
  | VBool (b : bool)
  | VInt (z : Z)
  | VStr (s : string)
  | VList (l : list value)
  | VTuple (l : list value).

Definition is_none (item : value) : bool :=
  match item with VNone => true | _ => false end.

(** [is_string(item)]: [item + ''] raises no [TypeError]. *)
Definition is_string (item : value) : bool :=
  match item with VStr _ => true | _ => false end.

(** [is_sequence(item)]: not a string, and [for var in item] raises no
    [TypeError]. *)
Definition is_sequence (item : value) : bool :=
  if is_string item then false
  else match item with
       | VList _ | VTuple _ => true
       | _ => false
       end.

(** One turn of the outer loop of [_flatten]: what it yields for [item].
    The recursive call of the source is [_flatten(subitem)], a call with
    the single argument [subitem]. *)
Fixpoint _flatten_item (item : value) : list value :=
  let subitems :=
    fix subitems (l : list value) : list value :=
      match l with
      | [] => []
      | subitem :: rest =>
          (List.filter (fun _ => negb (is_none subitem)) (_flatten_item subitem)
             ++ subitems rest)%list
      end in
  match item with
  | VList l | VTuple l => subitems l
  | VNone => []
  | _ => [item]
  end.

(** [_flatten], [flatten] and [flatten_to_list] on the tuple [items] of
    their arguments. *)
Definition _flatten (items : list value) : list value :=
  flat_map _flatten_item items.

Definition flatten (items : list value) : list value := _flatten items.

Definition flatten_to_list (items : list value) : list value := flatten items.

(** [to_display_string(item)], given the builtin [str]. *)
Fixpoint to_display_string (str : value -> string) (item : value) : string :=
  let subitems :=
    fix subitems (l : list value) (s : string) : string :=
      match l with
      | [] => s
      | subitem :: rest =>
          let s1 := if String.eqb s "" then s else s +:+ ", " in
          subitems rest (s1 +:+ to_display_string str subitem)
      end in
  match item with
  | VList l | VTuple l => "[" +:+ subitems l "" +:+ "]"
  | _ => str item
  end.

(** ** [merge_java_options] *)

(** [c.isalpha()] of a byte string in the C locale. *)
Definition isalpha (c : ascii) : bool :=
  let n := nat_of_ascii c in
  (Nat.leb 65 n && Nat.leb n 90) || (Nat.leb 97 n && Nat.leb n 122).

Fixpoint str_filter (f : ascii -> bool) (s : string) : string :=
  match s with
  | EmptyString => EmptyString
  | String c r => if f c then String c (str_filter f r) else str_filter f r
  end.

(** [''.join([c for c in opt[2:] if c.isalpha()])] *)
Definition xsym (opt : string) : string := str_filter isalpha (str_drop 2 opt).

(** The loop of [merge_java_options] over the flattened options; an
    option that is no string has no [startswith]. *)
Fixpoint merge_java_loop (opts : list value) (xargs : gset string)
    (ret_opts : list string) : result (list string) :=
  match opts with
  | [] => Ok ret_opts
  | VNone :: rest => merge_java_loop rest xargs ret_opts
  | VStr opt :: rest =>
      if startswith opt "-X" then
        let sym := xsym opt in
        if bool_decide (sym ∈ xargs) then merge_java_loop rest xargs ret_opts
        else merge_java_loop rest ({[sym]} ∪ xargs) (ret_opts ++ [opt])%list
      else merge_java_loop rest xargs (ret_opts ++ [opt])%list
  | _ :: _ => Raise (AttributeError "startswith")
  end.

Definition merge_java_options (opts : list value) : result (list string) :=
  merge_java_loop (flatten opts) ∅ [].

(** ** [normalize_list] and [format_table] *)

(** The exceptions of the table code include one that the configuration
    and archive code cannot raise. *)
Inductive exception : Type :=
  | Exn (e : exn)
  | AssertionError.

Inductive outcome (A : Type) : Type :=
  | Returns (a : A)
  | Throws (e : exception).
Arguments Returns {A} a.
Arguments Throws {A} e.

#[global] Instance outcome_ret : MRet outcome := fun A a => Returns a.
#[global] Instance outcome_bind : MBind outcome := fun A B k r =>
  match r with
  | Returns a => k a
  | Throws e => Throws e
  end.

Fixpoint str_repeat (s : string) (n : nat) : string :=
  match n with
  | 0 => EmptyString
  | S n' => s +:+ str_repeat s n'
  end.

(** [filler * n] for a positive [n]. *)
Definition py_mul (filler : value) (n : nat) : outcome value :=
  match filler with
  | VNone =>
      Throws (Exn (TypeError "unsupported operand type(s) for *: 'NoneType' and 'int'"))
  | VBool b => Returns (VInt ((if b then 1 else 0) * Z.of_nat n))
  | VInt z => Returns (VInt (z * Z.of_nat n))
  | VStr s => Returns (VStr (str_repeat s n))
  | VList l => Returns (VList (mjoin (replicate n l)))
  | VTuple l => Returns (VTuple (mjoin (replicate n l)))
  end.

(** The items a list takes from [v] in [output += v]. *)
Definition py_extend (v : value) : outcome (list value) :=
  match v with
  | VStr s => Returns ((fun c => VStr (String c EmptyString)) <$> list_ascii_of_string s)
  | VList l | VTuple l => Returns l
  | VNone => Throws (Exn (TypeError "'NoneType' object is not iterable"))
  | VBool _ => Throws (Exn (TypeError "'bool' object is not iterable"))
  | VInt _ => Throws (Exn (TypeError "'int' object is not iterable"))
  end.

(** The first loop of [normalize_list]. *)
Fixpoint normalize_loop (items : list value) (width : nat) (output : list value)
  : list value :=
  match items with
  | [] => output
  | item :: rest =>
      if Nat.eqb (List.length output) width then output
      else normalize_loop rest width (output ++ [item])%list
  end.

(** [normalize_list(items, width, filler)]; the tuple it returns is given
    as the list of its items. *)
Definition normalize_list (items : list value) (width : Z) (filler : value)
  : outcome (list value) :=
  if bool_decide (width < 0)%Z then Throws AssertionError
  else
    let w := Z.to_nat width in
    let output := normalize_loop items w [] in
    if Nat.ltb (List.length output) w then
      product ← py_mul filler (w - List.length output);
      more ← py_extend product;
      Returns (output ++ more)%list
    else Returns output.

(** [s.ljust(width)], what [%-<width>s] makes of a string. *)
Definition ljust (width : nat) (s : string) : string :=
  s +:+ str_repeat " " (width - String.length s).

(** One row of the measuring loop of [format_table]. *)
Fixpoint measure_row (str : value -> string) (row : list value) (icolumn : nat)
    (widths : list nat) : outcome (list nat) :=
  match row with
  | [] => Returns widths
  | column :: rest =>
      let width := String.length (str column) in
      widths1 ← (if Nat.eqb (List.length widths) icolumn
                 then Returns (widths ++ [width])%list
                 else match widths !! icolumn with
                      | Some w => Returns (<[icolumn := Nat.max w width]> widths)
                      | None => Throws (Exn (IndexError "list index out of range"))
                      end);
      measure_row str rest (S icolumn) widths1
  end.

Fixpoint measure_rows (str : value -> string) (rows : list (list value))
    (widths : list nat) : outcome (list nat) :=
  match rows with
  | [] => Returns widths
  | row :: rest =>
      widths1 ← measure_row str row 0 widths; measure_rows str rest widths1
  end.

(** [fmt % args] for the format [fmt] that [format_table] builds from
    [widths]: one left-justified [%s] per width, two spaces between. *)
Definition format_cells (str : value -> string) (widths : list nat)
    (args : list value) : outcome string :=
  if Nat.ltb (List.length args) (List.length widths) then
    Throws (Exn (TypeError "not enough arguments for format string"))
  else if Nat.ltb (List.length widths) (List.length args) then
    Throws (Exn (TypeError "not all arguments converted during string formatting"))
  else Returns (String.concat "  " (zip_with (fun w a => ljust w (str a)) widths args)).

Fixpoint format_rows (str : value -> string) (widths : list nat)
    (rows : list (list value)) : outcome (list string) :=
  match rows with
  | [] => Returns []
  | row :: rest =>
      args ← normalize_list row (Z.of_nat (List.length widths)) (VStr "");
      line ← format_cells str widths args;
      lines ← format_rows str widths rest;
      Returns (line :: lines)
  end.

(** [if caption:] *)
Definition caption_lines (caption : option string) : list string :=
  match caption with
  | Some c => if String.eqb c "" then [] else ["-- " +:+ c +:+ " --" +:+ newline]
  | None => []
  end.

(** [format_table(caption, headings, data_rows)], given the builtin [str].
    With headings the first statement executed for them is the assignment
    [rows[0] = heading_row = []] to the empty list [rows]. *)
Definition format_table (str : value -> string) (caption : option string)
    (headings : list value) (data_rows : list (list value)) : outcome string :=
  match headings with
  | _ :: _ => Throws (Exn (IndexError "list assignment index out of range"))
  | [] =>
      widths ← measure_rows str data_rows [];
      lines ← format_rows str widths data_rows;
      Returns (join_lines (caption_lines caption ++ lines))
  end.

(** [str] on the scalars.  The [str] of a list or tuple goes through
    [repr]; the examples hold scalars only, and the statements take [str]
    as given. *)
Definition py_str (item : value) : string :=
  match item with
  | VNone => "None"
  | VBool b => if b then "True" else "False"
  | VInt z => pretty z
  | VStr s => s
  | VList _ | VTuple _ => ""
  end.

(** ** [parse_hosts] *)

Record Host : Type := mkHost {
  host : string;
  port : option Z
}.

(** One turn of the loop of [parse_hosts], given the builtin [int] on
    strings ([None] for its [ValueError]). *)
Definition parse_host_port (int : string -> option Z) (default_port : option Z)
    (host_port : string) : result Host :=
  let split_host := str_split ":" host_port in
  let host := hd EmptyString split_host in
  if Nat.ltb 2 (List.length split_host) then
    abort ["Bad HOST:PORT format " +:+ dquote +:+ host_port +:+ dquote
             +:+ " - too many colons."]
  else if Nat.eqb (List.length split_host) 1 then
    match default_port with
    | Some p => if Z.eqb p 0 then Ok (mkHost host None) else Ok (mkHost host (Some p))
    | None => Ok (mkHost host None)
    end
  else
    let text := nth 1 split_host EmptyString in
    match int text with
    | Some p => Ok (mkHost host (Some p))
    | None => abort ["Bad port value " +:+ dquote +:+ text +:+ dquote +:+ ".";
                     "ValueError"]
    end.

Fixpoint parse_hosts_loop (int : string -> option Z) (default_port : option Z)
    (pieces : list string) (hosts : list Host) : result (list Host) :=
  match pieces with
  | [] => Ok hosts
  | host_port :: rest =>
      h ← parse_host_port int default_port host_port;
      parse_hosts_loop int default_port rest (hosts ++ [h])%list
  end.

Definition parse_hosts (int : string -> option Z) (host_string : string)
    (min_hosts max_hosts default_port : option Z) : result (list Host) :=
  hosts ← parse_hosts_loop int default_port (str_split "," host_string) [];
  let n := Z.of_nat (List.length hosts) in
  if match min_hosts with Some m => Z.ltb n m | None => false end then
    abort ["Too few hosts in host string " +:+ dquote +:+ host_string +:+ dquote
             +:+ ". The minimum is " +:+ pretty (default 0%Z min_hosts) +:+ "."]
  else if match max_hosts with Some m => Z.ltb n m | None => false end then
    abort ["Too many hosts in host string " +:+ dquote +:+ host_string +:+ dquote
             +:+ ". The maximum is " +:+ pretty (default 0%Z max_hosts) +:+ "."]
  else Ok hosts.

(** ** [find_in_path] *)

(** [os.path.exists(path)] *)
Definition path_exists (w : world) (path : string) : bool :=
  bool_decide (is_Some (files w !! abspath w path))
  || bool_decide (is_Some (dirs w !! abspath w path)).

Fixpoint find_in_dirs (w : world) (name : string) (path_dirs : list string)
  : option string :=
  match path_dirs with
  | [] => None
  | dir :: rest =>
      if path_exists w (os_path_join dir name) then Some (os_path_join dir name)
      else find_in_dirs w name rest
  end.

(** [find_in_path(name)], given [os.environ]. *)
Definition find_in_path (environ : gmap string string) (w : world) (name : string)
  : result (option string) :=
  match environ !! "PATH" with
  | None => Raise (KeyError "PATH")
  | Some path => Ok (find_in_dirs w name (str_split ":" path))
  end.

(** ** [PythonSourceFinder]: the locations to scan *)

Record Scan : Type := mkScan {
  package : option string;
  path : string
}.

(** [add_path(path)], given [os.path.realpath]; the finder is given by its
    list [scan_locs]. *)
Definition add_path (realpath : string -> string) (scan_locs : list Scan)
    (path_ : string) : list Scan :=
  let full_path := realpath path_ in
  if existsb (fun scan_loc => String.eqb (path scan_loc) full_path) scan_locs
  then scan_locs
  else (scan_locs ++ [mkScan None full_path])%list.

Definition add_resource (scan_locs : list Scan) (package_ path_ : string)
  : list Scan :=
  (scan_locs ++ [mkScan (Some package_) path_])%list.

(** ** [XMLConfigManager.save] *)

(** One turn of the loop of [XMLConfigManager.save]: the key is split
    without a test for the dot, the value is looked up under [name], not
    under [key], and the turn ends in [FileWriter(path)]. *)
Definition xml_save_step (d : dict) (key : string)
    (st : option string * ConfigParser.parser)
  : result (option string * ConfigParser.parser) :=
  let '(cur_section, parser) := st in
  if negb (has_dot key) then Raise (ValueError "need more than 1 value to unpack")
  else
    let '(section, name) := split_dot key in
    st1 ← (if match cur_section with
               | None => true
               | Some cur => negb (String.eqb section cur)
               end
            then parser1 ← ConfigParser.add_section parser section;
                 Ok (section, parser1)
            else Ok (default section cur_section, parser));
    value ← getitem d name;
    _ ← ConfigParser.set st1.2 st1.1 name value;
    Raise (NameError "FileWriter").

Fixpoint xml_save_loop (d : dict) (ks : list string)
    (st : option string * ConfigParser.parser)
  : result (option string * ConfigParser.parser) :=
  match ks with
  | [] => Ok st
  | key :: rest => st1 ← xml_save_step d key st; xml_save_loop d rest st1
  end.

Definition xml_save (path_ : string) (d : dict) (fs : filesystem)
  : result unit * filesystem :=
  match xml_save_loop d (sort (keys d)) (None, ConfigParser.new) with
  | Raise e => (Raise e, fs)
  | Ok _ => (Ok tt, fs)
  end.

(** ** [File] *)

(** A Python file object: the path it was opened on, resolved; whether it
    has been closed; and how far it has been read. *)
Record pyfile : Type := mkPyfile {
  py_path : string;
  py_closed : bool;
  py_pos : nat
}.

Record File : Type := mkFile {
  file_path : string;
  file_mode : string;
  file_f : option pyfile
}.

(** [self._abort(msg, e)] of [File]. *)
Definition File_abort {A} (self : File) (msg : string) (e : list string)
  : result A :=
  abort (("File(" +:+ dquote +:+ file_path self +:+ dquote +:+ ",'"
            +:+ file_mode self +:+ "'): " +:+ msg) :: e).

(** [File(path, mode)] *)
Definition File_init (path_ mode : string) : result File :=
  if String.eqb mode "r" || String.eqb mode "w" then Ok (mkFile path_ mode None)
  else abort ["Invalid file mode " +:+ dquote +:+ mode +:+ dquote +:+ "."].

Definition with_files (w : world) (fs : gmap string string) : world :=
  mkWorld (dryrun_enabled w) (debug_enabled w) (stdout w) (cwd w) fs (dirs w)
    (unwritable w) (archives w).

(** [self._open()]: [open(self.path, self.mode)].  Opening for reading
    wants the file to exist; opening for writing creates it or empties
    it, and fails on a directory or where the process may not write. *)
Definition File_open_ (self : File) (w : world) : result pyfile * world :=
  let p := abspath w (file_path self) in
  if String.eqb (file_mode self) "r" then
    match files w !! p with
    | Some _ => (Ok (mkPyfile p false 0), w)
    | None => (File_abort self "File open error." ["IOError"], w)
    end
  else if bool_decide (p ∈ unwritable w) || bool_decide (is_Some (dirs w !! p)) then
    (File_abort self "File open error." ["IOError"], w)
  else
    (Ok (mkPyfile p false 0), with_files w (<[p := EmptyString]> (files w))).

(** [self.close()]: the file object stays in [self.f], closed. *)
Definition File_close (self : File) : File :=
  match file_f self with
  | Some f => mkFile (file_path self) (file_mode self)
                (Some (mkPyfile (py_path f) true (py_pos f)))
  | None => self
  end.

(** [self.open()] *)
Definition File_open (self : File) (w : world) : result unit * File * world :=
  let self1 := File_close self in
  match File_open_ self1 w with
  | (Ok f, w1) => (Ok tt, mkFile (file_path self) (file_mode self) (Some f), w1)
  | (Raise e, w1) => (Raise e, self1, w1)
  end.

(** [f.read()]: the text from the position of the file object to the end;
    a closed file object refuses. *)
Definition pyfile_read (f : pyfile) (w : world) : result (string * pyfile) :=
  if py_closed f then Raise (ValueError "I/O operation on closed file")
  else
    let text := default EmptyString (files w !! py_path f) in
    Ok (str_drop (py_pos f) text,
        mkPyfile (py_path f) false (Nat.max (py_pos f) (String.length text))).

(** [self.read()] *)
Definition File_read (self : File) (w : world) : result string * File * world :=
  if negb (String.eqb (file_mode self) "r") then
    (File_abort self "File is not open for reading in call to read()." [], self, w)
  else
    match file_f self with
    | None =>
        match File_open_ self w with
        | (Ok f, w1) =>
            match pyfile_read f w1 with
            | Ok (text, _) => (Ok text, self, w1)
            | Raise e => (Raise e, self, w1)
            end
        | (Raise e, w1) => (Raise e, self, w1)
        end
    | Some f =>
        match pyfile_read f w with
        | Ok (text, f1) =>
            (Ok text, mkFile (file_path self) (file_mode self) (Some f1), w)
        | Raise e => (Raise e, self, w)
        end
    end.

(** [f.write(s)] puts [s] at the position of the file object, over what
    the file holds there; a position past the end leaves a gap of zero
    bytes. *)
Definition write_at (pos : nat) (s text : string) : string :=
  str_take pos text +:+ str_repeat (String zero EmptyString) (pos - String.length text)
    +:+ s +:+ str_drop (pos + String.length s) text.

(** [self.write(s)] *)
Definition File_write (self : File) (w : world) (s : string)
  : result unit * File * world :=
  if negb (String.eqb (file_mode self) "w") then
    (File_abort self "File is not open for writing in call to write()." [], self, w)
  else
    match file_f self with
    | None => (File_abort self "File was not opened in call to write()." [], self, w)
    | Some f =>
        if py_closed f then
          (Raise (ValueError "I/O operation on closed file"), self, w)
        else
          let text := default EmptyString (files w !! py_path f) in
          (Ok tt,
           mkFile (file_path self) (file_mode self)
             (Some (mkPyfile (py_path f) false (py_pos f + String.length s))),
           with_files w (<[py_path f := write_at (py_pos f) s text]> (files w)))
    end.

(** ** Vocabulary of the further statements *)

(** A value that [flatten] yields as it is: neither [None] nor a list or
    tuple. *)
Definition leaf (item : value) : bool :=
  negb (is_none item) && negb (is_sequence item).

(** The loop of [to_display_string] over the items of a sequence, from the
    text [s] built so far. *)
Fixpoint display_items (str : value -> string) (l : list value) (s : string)
  : string :=
  match l with
  | [] => s
  | subitem :: rest =>
      let s1 := if String.eqb s "" then s else s +:+ ", " in
      display_items str rest (s1 +:+ to_display_string str subitem)
  end.

(** The strings of a list without the empty ones at its head. *)
Fixpoint drop_empty (l : list string) : list string :=
  match l with
  | [] => []
  | s :: rest => if String.eqb s "" then drop_empty rest else l
  end.

(** An option that [merge_java_options] treats as a [-X] option. *)
Definition is_xopt (opt : string) : bool := startswith opt "-X".

(** The strings among the items of a list. *)
Definition strings (l : list value) : list string :=
  omap (λ v, match v with VStr s => Some s | _ => None end) l.

(** The option [s] at position [i] of [l] repeats a symbol: it is a [-X]
    option and a [-X] option with its symbol stands before position [i]. *)
Definition repeats (l : list string) (i : nat) (s : string) : bool :=
  is_xopt s && existsb (λ t, is_xopt t && String.eqb (xsym t) (xsym s)) (take i l).

(** The options of [l], each at its place, without those that repeat a
    symbol: of the [-X] options with one symbol the first is left. *)
Definition first_of_each_symbol (l : list string) : list string :=
  mjoin (imap (λ i s, if repeats l i s then [] else [s]) l).

(** Column widths widened by the lengths of the cells of one more row. *)
Fixpoint widen (widths lens : list nat) : list nat :=
  match widths, lens with
  | [], _ => lens
  | _, [] => widths
  | w :: widths', l :: lens' => Nat.max w l :: widen widths' lens'
  end.

(** The lengths of the cells of a row as [str] renders them. *)
Definition cell_lengths (str : value -> string) (row : list value) : list nat :=
  (fun column => String.length (str column)) <$> row.

(** A row of cells laid out in columns of the given widths. *)
Definition table_line (str : value -> string) (widths : list nat)
    (row : list value) : string :=
  String.concat "  " (zip_with (fun w a => ljust w (str a)) widths row).

(** How often a character stands in a string. *)
Fixpoint count_char (c : ascii) (s : string) : nat :=
  match s with
  | EmptyString => 0
  | String a r => (if Ascii.eqb a c then 1 else 0) + count_char c r
  end.

(** The port of a host written without one. *)
Definition port_of_default (default_port : option Z) : option Z :=
  match default_port with
  | Some p => if Z.eqb p 0 then None else Some p
  | None => None
  end.

(** The piece of a host string that a host stands for: its name alone,
    with the default port, or its name, a colon and a text that [int]
    reads as its port. *)
Definition stands_for (int : string -> option Z) (default_port : option Z)
    (piece : string) (h : Host) : Prop :=
  count_char ":" (host h) = 0 ∧
  ((piece = host h ∧ port h = port_of_default default_port) ∨
   ∃ text p, piece = host h +:+ ":" +:+ text ∧ count_char ":" text = 0 ∧
             int text = Some p ∧ port h = Some p).

(** A piece of a host string that [parse_hosts] takes: at most one colon,
    and after it a text that [int] reads. *)
Definition well_formed (int : string -> option Z) (piece : string) : Prop :=
  count_char ":" piece = 0 ∨
  ∃ name text, piece = name +:+ ":" +:+ text ∧ count_char ":" name = 0 ∧
               count_char ":" text = 0 ∧ is_Some (int text).

(** The directories of a search path that do not hold the name. *)
Definition misses (w : world) (name : string) (dir : string) : Prop :=
  path_exists w (os_path_join dir name) = false.

(** [add_path] called on each path of a list in turn. *)
Definition add_paths (realpath : string -> string) (scan_locs : list Scan)
    (paths : list string) : list Scan :=
  foldl (add_path realpath) scan_locs paths.

(** A call on a [File]; what [read] returns is dropped. *)
Inductive file_op : Type :=
  | FOpen
  | FRead
  | FWrite (s : string)
  | FClose.

Definition run_op (self : File) (w : world) (op : file_op)
  : result unit * File * world :=
  match op with
  | FOpen => File_open self w
  | FRead =>
      let '(r, self1, w1) := File_read self w in
      (match r with Ok _ => Ok tt | Raise e => Raise e end, self1, w1)
  | FWrite s => File_write self w s
  | FClose => (Ok tt, File_close self, w)
  end.

(** A sequence of calls on a [File]; an exception out of one ends it. *)
Fixpoint run_ops (self : File) (w : world) (ops : list file_op)
  : result unit * File * world :=
  match ops with
  | [] => (Ok tt, self, w)
  | op :: rest =>
      match run_op self w op with
      | (Ok _, self1, w1) => run_ops self1 w1 rest
      | (Raise e, self1, w1) => (Raise e, self1, w1)
      end
  end.

(** The name of the entry that [add_file] leaves for a destination path:
    the path as [zipfile] normalises it, with a slash at its end when the
    source is a directory. *)
Definition file_entry_of (path_out name : string) : Prop :=
  ∃ n, ZipFile.arcname_of path_out = Ok n ∧
       (name = ZipFile.zipinfo_name n ∨ name = ZipFile.zipinfo_name (n +:+ "/")).




(** The files of a walk as [add_directory] hands them to [add_file]: the
    path of each below the source directory and its destination path. *)
Definition walk_files (dst : string) (walk : list (string * list string))
  : list (string * string) :=
  flat_map (λ '(basedir, filenames),
              List.map (λ filename,
                          (str_drop 2 (os_path_join basedir filename),
                           os_path_join (os_path_join dst (str_drop 2 basedir))
                             filename))
                filenames)
    walk.

(** The destination paths of the files that no pattern of the
    constructor matches. *)
Definition unexcluded (self : Zipper) (l : list (string * string)) : list string :=
  (List.filter (λ io, negb (excluded self io.1)) l).*2.

(** A call on a [Zipper] that [zipfile] refuses: it raises [RuntimeError]
    and leaves the object and the zip files as they were. *)
Definition refused (self : Zipper) (w : world)
    (out : result unit * Zipper * world) : Prop :=
  (∃ msg, out.1.1 = Raise (RuntimeError msg)) ∧ out.1.2 = self ∧
  archives out.2 = archives w.

(** The value that option lines give the option [n], from the value [v0] it
    had before them: the last line that names it wins, and a name stands
    for its lower-case form. *)
Definition line_value (n : string) (lines : list (string * string))
    (v0 : option string) : option string :=
  fold_left (λ acc nv, if String.eqb n (ConfigParser.optionxform nv.1)
                       then Some nv.2 else acc) lines v0.

(** The same over the sections of a file headed [h], in the order of the
    file. *)
Definition file_value_from (f : ConfigParser.ini_file) (h n : string)
    (v0 : option string) : option string :=
  fold_left (λ acc s, if String.eqb (ConfigParser.header s) h
                      then line_value n (ConfigParser.options s) acc else acc) f v0.

Definition file_value (f : ConfigParser.ini_file) (h n : string) : option string :=
  file_value_from f h n None.

(** What a file says of the option [n] of the section [h]: nothing unless
    the file has the header [h], other than [DEFAULT]; then what the lines
    under [h] give it, or else what the lines under [DEFAULT] give it. *)
Definition file_says (f : ConfigParser.ini_file) (h n : string) : option string :=
  if bool_decide (h ∈ ConfigParser.header <$> f)
     && negb (String.eqb h ConfigParser.DEFAULTSECT)
     && negb (String.eqb n "__name__")
  then match file_value f h n with
       | Some v => Some v
       | None => file_value f ConfigParser.DEFAULTSECT n
       end
  else None.

(** A line that [_read] reports in its [ParsingError], with its number:
    a line of the file that is neither a section header nor an option. *)
Definition refused_line (lines : list string) (nl : nat * string) : Prop :=
  lines !! Nat.pred nl.1 = Some nl.2 ∧
  ConfigParser.match_section nl.2 = None ∧
  ConfigParser.match_option nl.2 = None.

(** What a parser holds for the option [n] of the section [h], or would
    hold once the section is made. *)
Definition section_value (p : ConfigParser.parser) (h n : string) : option string :=
  match ConfigParser.oget h (ConfigParser._sections p) with
  | Some sect => ConfigParser.oget n sect
  | None => if String.eqb n "__name__" then Some h else None
  end.

(** The dictionaries of a parser hold every key once, and no section is
    called [DEFAULT]. *)
Definition parser_wf (p : ConfigParser.parser) : Prop :=
  NoDup (ConfigParser._defaults p).*1 ∧
  NoDup (ConfigParser._sections p).*1 ∧
  Forall (λ s : string * ConfigParser.odict string, NoDup s.2.*1)
    (ConfigParser._sections p) ∧
  ConfigParser.oget ConfigParser.DEFAULTSECT (ConfigParser._sections p) = None.

(** The options that [items] lists for a section of a parser whose values
    hold no percent sign. *)
Definition merged_options (p : ConfigParser.parser) (h : string)
  : ConfigParser.odict string :=
  match ConfigParser.oget h (ConfigParser._sections p) with
  | Some sect => ConfigParser.visible (ConfigParser.oupdate (ConfigParser._defaults p) sect)
  | None => []
  end.

(** A file with a [DEFAULT] section and an option set twice. *)
Definition defaults_fs : filesystem :=
  {[ "v.cfg" := ["# ports"; "[DEFAULT]"; "Host = h0"; ""; "[volt]";
                 "Port : 1"; "port=2 ; the last line wins"] ]}.

(** A file with an option before any section header. *)
Definition headless_fs : filesystem := {[ "bad.cfg" := ["x = 1"] ]}.

(** ** [display_messages] *)

(** A message as [display_messages] tells them apart: [None], a string, an
    exception (the name of its class and its [str]), an object that can be
    iterated (a list or tuple of messages), and any other object (by its
    [str]). *)
#[warnings="-register-all"]
Inductive message : Type :=
  | MNone
  | MStr (s : string)
  | MExc (class_name text : string)
  | MSeq (l : list message)
  | MObj (text : string).

(** ['%8s' % s] *)
Definition rjust (width : nat) (s : string) : string :=
  str_repeat " " (width - String.length s) +:+ s.

Definition stag_of (tag : option string) : string :=
  match tag with
  | Some t => if String.eqb t "" then "" else rjust 8 t +:+ ": "
  | None => ""
  end.

Definition linefeed : ascii := ascii_of_nat 10.

(** One turn of the loop of [display_messages]: what it writes to [f] for
    the message [msg], one string for each call of [f.write]. *)
Fixpoint display_message (stag : string) (level : nat) (msg : message)
  : list string :=
  let sindent := str_repeat "  " level in
  match msg with
  | MNone => []
  | MExc class_name text =>
      [stag +:+ sindent +:+ class_name +:+ " Exception: " +:+ text +:+ newline]
  | MStr s =>
      (fun msg2 => stag +:+ sindent +:+ msg2 +:+ newline) <$> str_split linefeed s
  | MSeq l => flat_map (display_message stag (S level)) l
  | MObj text => [stag +:+ sindent +:+ text +:+ newline]
  end.

(** [display_messages(msgs, f, tag, level)]: [msgs] is a string or, as in
    every call of the module, the tuple of the messages of its caller. *)
Definition display_messages (msgs : string + list message) (tag : option string)
    (level : nat) : list string :=
  let stag := stag_of tag in
  let msgs := match msgs with inl s => [MStr s] | inr l => l end in
  flat_map (display_message stag level) msgs.

(** ** [choose] *)

(** [s[0]] of a string that is not empty, as a string. *)
Definition first_letter (s : string) : string :=
  match s with
  | EmptyString => EmptyString
  | String c _ => String c EmptyString
  end.

(** The first loop of [choose], given the builtin [str] on the tuple of
    choices. *)
Fixpoint choose_letters (str : list string -> string) (all_choices : list string)
    (choices : list string) (letters : gset string) (choice_list : list string)
  : result (gset string * list string) :=
  match choices with
  | [] => Ok (letters, choice_list)
  | choice :: rest =>
      if String.eqb choice "" then abort ["Empty choice passed to choose()."]
      else if bool_decide (first_letter choice ∈ letters) then
        abort ["Non-unique choices " +:+ str all_choices +:+ " passed to choose()."]
      else
        choose_letters str all_choices rest (letters ∪ {[first_letter choice]})
          (choice_list ++ ["[" +:+ first_letter choice +:+ "]" +:+ str_drop 1 choice])%list
  end.

(** The [while True] loop of [choose] over the lines that the standard
    input still holds.  At the end of the input [readline] returns the
    empty string for ever, which is no choice: the loop never ends, and
    the model answers [None].  With the answer comes what was written to
    the standard output. *)
Fixpoint choose_loop (question : string) (letters : gset string)
    (choices : list string) (lines : list string) (out : list string)
  : option string * list string :=
  match lines with
  | [] => (None, out)
  | line :: rest =>
      let out1 := (out ++ [question])%list in
      let response := strip line in
      if bool_decide (response ∈ letters) || bool_decide (response ∈ choices)
      then (Some (first_letter response), out1)
      else choose_loop question letters choices rest out1
  end.

(** [choose(prompt, *choices)] *)
Definition choose (str : list string -> string) (prompt : string)
    (choices : list string) (lines : list string)
  : result (option string * list string) :=
  '(letters, choice_list) ← choose_letters str choices choices ∅ [];
  Ok (choose_loop (prompt +:+ " (" +:+ String.concat "/" choice_list +:+ ") ")
        letters choices lines []).

(** A choice as the question shows it: the first letter in brackets. *)
Definition bracketed (choice : string) : string :=
  "[" +:+ first_letter choice +:+ "]" +:+ str_drop 1 choice.

(** The question that [choose] writes before each line it reads. *)
Definition question_of (prompt : string) (choices : list string) : string :=
  prompt +:+ " (" +:+ String.concat "/" (bracketed <$> choices) +:+ ") ".

(** A response that [choose] takes: a whole choice or the first letter of
    one. *)
Definition acceptable (choices : list string) (response : string) : Prop :=
  response ∈ choices ∨ response ∈ first_letter <$> choices.

(** Every text of a message that is no string is free of line feeds. *)
Fixpoint single_line (msg : message) : bool :=
  match msg with
  | MNone | MStr _ => true
  | MExc class_name text =>
      Nat.eqb (count_char linefeed class_name) 0 && Nat.eqb (count_char linefeed text) 0
  | MSeq l => forallb single_line l
  | MObj text => Nat.eqb (count_char linefeed text) 0
  end.

(** A string written by [display_messages]: the tag, an indentation of at
    least [level] steps, a text and a line feed. *)
Definition tagged_line (stag : string) (level : nat) (one_line : bool)
    (chunk : string) : Prop :=
  ∃ n text, (level ≤ n)%nat ∧
            chunk = stag +:+ str_repeat "  " n +:+ text +:+ newline ∧
            (one_line = true → count_char linefeed text = 0).

(** * Properties *)

Import ConfigParser.

(** ** Dictionaries *)

Lemma elem_of_keys (d : dict) (k : string) : k ∈ keys d ↔ is_Some (d !! k).
Proof.
  unfold keys. rewrite list_elem_of_fmap. split.
  - intros [[k' v] [-> Hin]]. apply elem_of_map_to_list in Hin. by exists v.
  - intros [v Hv]. exists (k, v). split; [done|]. by apply elem_of_map_to_list.
Qed.

(** ** [PersistentConfig.get] *)

(** C3: [get] answers with the local tier's value for a key the local tier
    holds, whether or not the permanent tier holds it too; with the
    permanent tier's value for a key only that tier holds; and with [None]
    for a key in neither tier. *)
Theorem get_merge_precedence (self : PersistentConfig) (key : string) :
  (∀ v, local self !! key = Some v → get self key = Some v) ∧
  (∀ v, local self !! key = None → permanent self !! key = Some v →
        get self key = Some v) ∧
  (local self !! key = None → permanent self !! key = None →
   get self key = None).
Proof.
  unfold get. repeat split.
  - intros v Hl. by rewrite Hl.
  - intros v Hl Hp. by rewrite Hl.
  - intros Hl Hp. by rewrite Hl.
Qed.

Lemma get_merge_precedence_witness :
  get example_config "volt.port" = Some "21311" ∧
  get example_config "volt.host" = Some "node1" ∧
  get example_config "volt.user" = None.
Proof.
  destruct (get_merge_precedence example_config "volt.port") as [H1 _].
  destruct (get_merge_precedence example_config "volt.host") as (_ & H2 & _).
  destruct (get_merge_precedence example_config "volt.user") as (_ & _ & H3).
  split; [apply H1; vm_compute; reflexivity|].
  split; [apply H2; vm_compute; reflexivity|].
  apply H3; vm_compute; reflexivity.
Defined.

(** ** [PersistentConfig.query] *)

Lemma startswith_empty (key : string) : startswith key "" = true.
Proof. unfold startswith. by destruct key. Qed.

Lemma query_local_dom (self : PersistentConfig) (s : string) (ks : list string)
    (results : dict) :
  (∀ k, k ∈ ks → is_Some (local self !! k)) →
  ∃ r, query_local self (FilterStr s) ks results = Ok r ∧
       ∀ k, is_Some (r !! k) → is_Some (results !! k) ∨ is_Some (local self !! k).
Proof.
  revert results. induction ks as [|key rest IH]; intros results Hks; simpl.
  - exists results. split; [done|]. by left.
  - assert (Hkey : is_Some (local self !! key)) by (apply Hks; left).
    destruct Hkey as [v Hv]. unfold getitem. rewrite Hv. simpl.
    destruct (startswith key s).
    + destruct (IH (<[key := v]> results)) as (r & Hr & Hdom).
      { intros k Hk. apply Hks. by right. }
      exists r. split; [done|]. intros k Hk.
      destruct (Hdom k Hk) as [Hi|Hl]; [|by right].
      destruct (decide (key = k)) as [->|Hne].
      * right. by exists v.
      * left. by rewrite lookup_insert_ne in Hi.
    + apply IH. intros k Hk. apply Hks. by right.
Qed.

Lemma query_permanent_raises (self : PersistentConfig) (filter : option filter_arg)
    (ks : list string) (results : dict) (key : string) :
  (∀ k, k ∈ ks → is_Some (permanent self !! k)) →
  match filter with
  | None => True
  | Some f => (∃ s, f = FilterStr s) ∧ passes f key = true
  end →
  key ∈ ks → results !! key = None →
  query_permanent self filter ks results = Raise (AttributeError "results").
Proof.
  intros Hks Hf. induction ks as [|k rest IH]; intros Hin Hres.
  - by apply elem_of_nil in Hin.
  - simpl.
    assert (Hk : is_Some (permanent self !! k)) by (apply Hks; left).
    destruct Hk as [v Hv]. unfold getitem. rewrite Hv.
    assert (Hrest : ∀ k', k' ∈ rest → is_Some (permanent self !! k'))
      by (intros k' Hk'; apply Hks; by right).
    case_bool_decide as Hdec; simpl.
    + apply IH; [done| |done].
      apply elem_of_cons in Hin as [->|Hin]; [|done].
      rewrite Hres in Hdec. by destruct Hdec.
    + destruct filter as [f|]; simpl.
      * destruct Hf as [[s ->] Hp]. simpl in *.
        destruct (startswith k s) eqn:Hsw; [done|].
        apply IH; [done| |done].
        apply elem_of_cons in Hin as [->|Hin]; [|done]. congruence.
      * done.
Qed.

(** C1: the claim fails on the code.  Whenever the permanent tier holds a
    key that passes the filter and that the local tier lacks, [query] with
    that filter (a string or [None]) raises [AttributeError] where the
    claim promises the merged map: the loop over the permanent tier stores
    into [self.results], an attribute that is never set. *)
Theorem query_raises_on_permanent_only_key (self : PersistentConfig)
    (filter : filter_arg) (key v : string) :
  permanent self !! key = Some v →
  local self !! key = None →
  filter ≠ FilterBuiltin →
  passes filter key = true →
  query self filter = Raise (AttributeError "results").
Proof.
  intros Hp Hl Hb Hpass. unfold query.
  assert (Hin : key ∈ keys (permanent self)) by (apply elem_of_keys; eauto).
  assert (Hks : ∀ k, k ∈ keys (permanent self) → is_Some (permanent self !! k))
    by (intros k; apply elem_of_keys).
  destruct (truthy filter) eqn:Ht.
  - destruct filter as [|s|]; try done.
    destruct (query_local_dom self s (keys (local self)) ∅) as (r & Hr & Hdom).
    { intros k. apply elem_of_keys. }
    rewrite Hr. simpl.
    apply (query_permanent_raises self (Some (FilterStr s)) _ r key); eauto.
    destruct (r !! key) eqn:Hrk; [|done].
    destruct (Hdom key) as [Hi|Hi]; [by eexists| |].
    + rewrite lookup_empty in Hi. by destruct Hi.
    + rewrite Hl in Hi. by destruct Hi.
  - by apply (query_permanent_raises self None _ (local self) key).
Qed.

Lemma query_raises_on_permanent_only_key_witness :
  query permanent_only_config (FilterStr "a.") = Raise (AttributeError "results") ∧
  query permanent_only_config FilterNone = Raise (AttributeError "results").
Proof.
  split.
  - apply (query_raises_on_permanent_only_key permanent_only_config
             (FilterStr "a.") "a.b" "1"); by vm_compute.
  - apply (query_raises_on_permanent_only_key permanent_only_config
             FilterNone "a.b" "1"); by vm_compute.
Defined.

Lemma bool_decide_elem_of_cons (k key : string) (rest : list string) :
  bool_decide (k ∈ key :: rest) = bool_decide (k = key) || bool_decide (k ∈ rest).
Proof. rewrite <- bool_decide_or. apply bool_decide_ext, elem_of_cons. Qed.

Lemma query_local_lookup (self : PersistentConfig) (s : string) (ks : list string)
    (results : dict) :
  (∀ k, k ∈ ks → is_Some (local self !! k)) →
  ∃ r, query_local self (FilterStr s) ks results = Ok r ∧
       ∀ k, r !! k = if bool_decide (k ∈ ks) && startswith k s
                     then local self !! k else results !! k.
Proof.
  revert results. induction ks as [|key rest IH]; intros results Hks.
  - exists results. split; [done|]. intros k.
    case_bool_decide as Hk; [by apply elem_of_nil in Hk|done].
  - destruct (Hks key) as [v Hv]; [left|].
    assert (Hrest : ∀ k, k ∈ rest → is_Some (local self !! k))
      by (intros k Hk; apply Hks; by right).
    simpl. unfold getitem. rewrite Hv. simpl.
    destruct (startswith key s) eqn:Hsw.
    + destruct (IH (<[key := v]> results) Hrest) as (r & -> & Hr).
      exists r. split; [done|]. intros k.
      rewrite Hr, bool_decide_elem_of_cons.
      destruct (decide (k = key)) as [->|Hne].
      * rewrite lookup_insert_eq, Hsw, Hv, (bool_decide_eq_true_2 (key = key)) by done.
        simpl. by destruct (bool_decide _).
      * by rewrite lookup_insert_ne, (bool_decide_eq_false_2 (k = key)) by done.
    + destruct (IH results Hrest) as (r & -> & Hr).
      exists r. split; [done|]. intros k.
      rewrite Hr, bool_decide_elem_of_cons.
      destruct (decide (k = key)) as [->|Hne].
      * rewrite Hsw. by rewrite !andb_false_r.
      * by rewrite (bool_decide_eq_false_2 (k = key)) by done.
Qed.

Lemma query_permanent_returns (self : PersistentConfig)
    (filter : option filter_arg) (ks : list string) (results : dict) :
  (∀ k, k ∈ ks →
     is_Some (results !! k) ∨
     ∃ s, filter = Some (FilterStr s) ∧ startswith k s = false) →
  query_permanent self filter ks results = Ok results.
Proof.
  induction ks as [|key rest IH]; intros Hks; simpl; [done|].
  assert (Hrest : query_permanent self filter rest results = Ok results)
    by (apply IH; intros k Hk; apply Hks; by right).
  case_bool_decide as Hin; simpl; [done|].
  destruct (Hks key) as [?|(s & -> & Hsw)]; [left|done|].
  simpl. by rewrite Hsw.
Qed.

(** When the local tier holds every key of the permanent tier that passes
    the filter, the assignment to [self.results] is never reached and
    [query] returns the merged map. *)
Lemma query_returns_merged (self : PersistentConfig) (filter : filter_arg) :
  filter ≠ FilterBuiltin →
  (∀ k, is_Some (permanent self !! k) → passes filter k = true →
        is_Some (local self !! k)) →
  query self filter = Ok (merged self filter).
Proof.
  intros Hb Hcov. unfold query, merged.
  destruct (truthy filter) eqn:Ht.
  - destruct filter as [|s|]; try done.
    destruct (query_local_lookup self s (keys (local self)) ∅) as (r & -> & Hr).
    { intros k. apply elem_of_keys. }
    simpl. rewrite query_permanent_returns.
    + f_equal. apply map_eq. intros k. apply option_eq. intros v.
      rewrite Hr, map_lookup_filter_Some, lookup_union_Some_raw, lookup_empty.
      simpl. destruct (startswith k s) eqn:Hsw;
        rewrite ?andb_false_r, ?andb_true_r.
      * case_bool_decide as Hk; split.
        -- intros Hl. split; [by left|done].
        -- intros [[Hl|[Hl Hp]] _]; [done|].
           destruct (Hcov k) as [? ?]; [by eexists|done|congruence].
        -- done.
        -- intros [[Hl|[Hl Hp]] _].
           ++ exfalso. apply Hk, elem_of_keys. by eexists.
           ++ destruct (Hcov k) as [? ?]; [by eexists|done|congruence].
      * split; [done|]. by intros [_ ?].
    + intros k [v Hv]%elem_of_keys.
      destruct (startswith k s) eqn:Hsw; [left|right; by exists s].
      rewrite Hr, Hsw, andb_true_r.
      destruct (Hcov k) as [v' Hv']; [by eexists|done|].
      rewrite bool_decide_eq_true_2 by (apply elem_of_keys; by eexists).
      by eexists.
  - assert (Hall : ∀ k, passes filter k = true).
    { intros k. destruct filter as [|s|]; try done. simpl in *.
      apply negb_false_iff, String.eqb_eq in Ht as ->. apply startswith_empty. }
    rewrite query_permanent_returns.
    + f_equal. apply map_eq. intros k. apply option_eq. intros v.
      rewrite map_lookup_filter_Some, lookup_union_Some_raw. simpl. split.
      * intros Hl. split; [by left|apply Hall].
      * intros [[Hl|[Hl Hp]] _]; [done|].
        destruct (Hcov k) as [? ?]; [by eexists|apply Hall|congruence].
    + intros k Hk%elem_of_keys. left. apply Hcov; [done|apply Hall].
Qed.

(** ** [Zipper.add_file] without exclusion patterns *)

(** C9: for every [Zipper] whose pattern list is the one a construction
    with zero exclusion patterns gives, every [add_file] call reads the
    local variable [path_in_full] before anything has assigned it: the call
    raises the unbound-name error and adds nothing (object and world are
    left as they were). *)
Theorem add_file_without_patterns (re_compile : string → regex) (self : Zipper)
    (w : world) (path_in path_out : string) :
  re_excludes self = re_excludes (Zipper_init re_compile []) →
  add_file self w path_in path_out
    = (Raise (UnboundLocalError "path_in_full"), self, w).
Proof. intros H. unfold add_file. by rewrite H. Qed.

Lemma add_file_without_patterns_witness :
  output_zip (opened []).1 = Some "/home/u/out.zip" ∧
  add_file (opened []).1 (opened []).2 "a.txt" "a.txt"
    = (Raise (UnboundLocalError "path_in_full"), (opened []).1, (opened []).2).
Proof.
  split; [reflexivity|].
  apply (add_file_without_patterns re_compile_plain). reflexivity.
Defined.

(** ** Dry run *)

Lemma with_stdout_id (w : world) : with_stdout w (stdout w) = w.
Proof. by destruct w. Qed.

Lemma with_stdout_twice (w : world) (a b : list string) :
  with_stdout (with_stdout w a) b = with_stdout w b.
Proof. done. Qed.

Lemma debug_stdout (w : world) (msg : string) :
  ∃ out, debug w msg = with_stdout w out.
Proof.
  unfold debug. destruct (debug_enabled w); eexists; [done|].
  symmetry. apply with_stdout_id.
Qed.

Lemma add_file_unopened (self : Zipper) (w : world) (path_in path_out : string) :
  output_zip self = None →
  ∃ r out, add_file self w path_in path_out = (r, self, with_stdout w out).
Proof.
  intros Hz. unfold add_file, Zipper_debug.
  destruct (add_file_excluded _ _ _ _) as [[] [full|]]; simpl; rewrite ?Hz;
    try (eexists _, _; by rewrite with_stdout_id).
  - edestruct debug_stdout as [out ->]. by eexists _, _.
  - edestruct debug_stdout as [out ->]. by eexists _, _.
Qed.

Lemma add_string_unopened (self : Zipper) (w : world) (s path_out : string) :
  output_zip self = None →
  ∃ out, add_string self w s path_out = (Ok tt, self, with_stdout w out).
Proof.
  intros Hz. unfold add_string, Zipper_debug. rewrite Hz.
  edestruct debug_stdout as [out ->]. by eexists.
Qed.

Lemma add_directory_files_unopened (self : Zipper) (w : world)
    (dst basedir : string) (filenames : list string) :
  output_zip self = None →
  ∃ r out, add_directory_files self w dst basedir filenames
             = (r, self, with_stdout w out).
Proof.
  intros Hz. revert w. induction filenames as [|f rest IH]; intros w; simpl.
  - eexists _, _. by rewrite with_stdout_id.
  - edestruct add_file_unopened as (r & out & ->); [done|].
    destruct r; [|by eexists _, _].
    destruct (IH (with_stdout w out)) as (r' & out' & ->).
    rewrite with_stdout_twice. by eexists _, _.
Qed.

Lemma add_directory_walk_unopened (self : Zipper) (w : world) (dst : string)
    (walk : list (string * list string)) :
  output_zip self = None →
  ∃ r out, add_directory_walk self w dst walk = (r, self, with_stdout w out).
Proof.
  intros Hz. revert w. induction walk as [|[basedir filenames] rest IH];
    intros w; simpl.
  - eexists _, _. by rewrite with_stdout_id.
  - edestruct add_directory_files_unopened as (r & out & ->); [done|].
    destruct r; [|by eexists _, _].
    destruct (IH (with_stdout w out)) as (r' & out' & ->).
    rewrite with_stdout_twice. by eexists _, _.
Qed.

Lemma do_call_unopened (self : Zipper) (w : world) (c : call) :
  output_zip self = None →
  ∃ r out, do_call self w c = (r, self, with_stdout w out).
Proof.
  intros Hz. destruct c as [path_in path_out|s path_out|path_in dst excludes];
    simpl.
  - by apply add_file_unopened.
  - edestruct add_string_unopened as [out ->]; [done|]. by eexists _, _.
  - unfold add_directory. destruct (dirs w !! _) as [walk|].
    + edestruct add_directory_walk_unopened as (r & out & ->); [done|].
      exists r, out. by destruct w.
    + eexists _, _. by rewrite with_stdout_id.
Qed.

Lemma do_calls_unopened (self : Zipper) (w : world) (cs : list call) :
  output_zip self = None →
  ∃ r out, do_calls self w cs = (r, self, with_stdout w out).
Proof.
  intros Hz. revert w. induction cs as [|c rest IH]; intros w; simpl.
  - eexists _, _. by rewrite with_stdout_id.
  - edestruct do_call_unopened as (r & out & ->); [done|].
    destruct r; [|by eexists _, _].
    destruct (IH (with_stdout w out)) as (r' & out' & ->).
    rewrite with_stdout_twice. by eexists _, _.
Qed.

(** C8: while dry run is enabled, [open] on a new [Zipper] returns with the
    world untouched (no archive file appears) and no archive handle; any
    sequence of [add_file], [add_string] and [add_directory] calls after it
    leaves the object as it was (manifest empty, no handle) and changes
    nothing in the world but the lines shown by [debug]; and [close] on a
    [Zipper] without a handle changes neither object nor world. *)
Theorem dryrun_leaves_no_trace (re_compile : string → regex)
    (excludes : list string) (w : world) (path : string) (cs : list call) :
  dryrun_enabled w = true →
  let self := mkZipper None (Some path) [] (List.map re_compile excludes) in
  Zipper_open (Zipper_init re_compile excludes) w path = (Ok tt, self, w) ∧
  (∃ r out, do_calls self w cs = (r, self, with_stdout w out)) ∧
  (∀ w', Zipper_close self w' = (Ok tt, self, w')).
Proof.
  intros Hdry self. split; [|split].
  - unfold Zipper_open. by rewrite Hdry.
  - by apply do_calls_unopened.
  - done.
Qed.

Lemma dryrun_leaves_no_trace_witness :
  ∃ self,
    Zipper_open (Zipper_init re_compile_plain ["pyc"]) dryrun_world "out.zip"
      = (Ok tt, self, dryrun_world) ∧
    (∃ r out, do_calls self dryrun_world
                [AddFile "a.txt" "a.txt"; AddString "hello" "README";
                 AddDirectory "proj" "dst" []]
              = (r, self, with_stdout dryrun_world out)) ∧
    manifest self = [] ∧ archives dryrun_world = ∅.
Proof.
  destruct (dryrun_leaves_no_trace re_compile_plain ["pyc"] dryrun_world "out.zip"
              [AddFile "a.txt" "a.txt"; AddString "hello" "README";
               AddDirectory "proj" "dst" []]) as (Ho & Hc & _); [reflexivity|].
  eexists. split; [exact Ho|]. split; [exact Hc|]. split; reflexivity.
Defined.

(** ** Exclusion and manifest on an open [Zipper] *)

(** C5: the claim fails on the code.  [add_directory] gives the same result
    whatever its [excludes] argument is: in the first example the file
    [secret.txt] matches the per-call pattern [secret] and is written to
    the archive and listed in the manifest all the same.  And the
    constructor's patterns are searched in the path relative to the walked
    directory, not in the resolved one: in the second example the resolved
    path of every file matches the constructor's pattern [proj], and both
    files are added. *)
Theorem add_directory_ignores_its_excludes :
  (∀ self w path_in dst excludes,
     add_directory self w path_in dst excludes = add_directory self w path_in dst []) ∧
  (re_search (re_compile_plain "secret") "secret.txt" = true ∧
   ∃ self w,
     add_directory (opened ["pyc"]).1 (opened ["pyc"]).2 "proj" "dst" ["secret"]
       = (Ok tt, self, w) ∧
     manifest self = ["dst/secret.txt"; "dst/sub/a.py"] ∧
     entries <$> archives w !! "/home/u/out.zip"
       = Some [("dst/secret.txt", "s3"); ("dst/sub/a.py", "print")]) ∧
  (re_search (re_compile_plain "proj")
     (abspath (with_cwd example_world "/home/u/proj") "secret.txt") = true ∧
   ∃ self w,
     add_directory (opened ["proj"]).1 (opened ["proj"]).2 "proj" "dst" []
       = (Ok tt, self, w) ∧
     manifest self = ["dst/secret.txt"; "dst/sub/a.py"]).
Proof.
  split; [done|]. split.
  - split; [reflexivity|]. eexists _, _. split; [by vm_compute|].
    split; by vm_compute.
  - split; [reflexivity|]. eexists _, _. split; by vm_compute.
Qed.

(** With a handle and calls that all return, the manifest is the one the
    claim describes, and [close] writes it as the last entry. *)

Lemma add_file_excluded_spec (w : world) (path_in : string) (res : list regex)
    (v : option string) :
  (add_file_excluded w path_in res v).1
    = existsb (λ re_exclude, re_search re_exclude path_in) res.
Proof.
  revert v. induction res as [|re_exclude rest IH]; intros v; simpl; [done|].
  destruct (re_search re_exclude path_in); simpl; [done|]. apply IH.
Qed.

Lemma add_file_returns (self self' : Zipper) (w w' : world)
    (path_in path_out : string) :
  add_file self w path_in path_out = (Ok tt, self', w') →
  is_Some (output_zip self) →
  re_excludes self' = re_excludes self ∧ output_zip self' = output_zip self ∧
  manifest self'
    = (manifest self ++ if excluded self path_in then [] else [path_out])%list.
Proof.
  intros Hadd [zip Hzip]. unfold add_file, excluded in *.
  rewrite <- (add_file_excluded_spec w path_in (re_excludes self) None).
  destruct (add_file_excluded _ _ _ _) as [[] [full|]]; simpl in *;
    try discriminate Hadd.
  - injection Hadd as <- <-. by rewrite app_nil_r.
  - rewrite Hzip in Hadd.
    destruct (ZipFile.write _ _ _ _) as [[w2|]|]; try discriminate Hadd.
    by injection Hadd as <- <-.
Qed.

Lemma add_string_returns (self self' : Zipper) (w w' : world) (s path_out : string) :
  add_string self w s path_out = (Ok tt, self', w') →
  is_Some (output_zip self) →
  re_excludes self' = re_excludes self ∧ output_zip self' = output_zip self ∧
  manifest self' = (manifest self ++ [path_out])%list.
Proof.
  intros Hadd [zip Hzip]. unfold add_string in *. rewrite Hzip in Hadd.
  destruct (ZipFile.writestr _ _ _ _); try discriminate Hadd.
  by injection Hadd as <- <-.
Qed.

Lemma listed_ext (self1 self : Zipper) (cs : list call) :
  re_excludes self1 = re_excludes self → listed self1 cs = listed self cs.
Proof.
  intros Hre. induction cs as [|[path_in path_out|s path_out|? ? ?] rest IH];
    simpl; [done| |by rewrite IH|done].
  unfold excluded. by rewrite Hre, IH.
Qed.

Lemma manifest_of_returning_calls (cs : list call) (self self' : Zipper)
    (w w' : world) :
  Forall no_directory cs → is_Some (output_zip self) →
  do_calls self w cs = (Ok tt, self', w') →
  output_zip self' = output_zip self ∧
  manifest self' = (manifest self ++ listed self cs)%list.
Proof.
  revert self w. induction cs as [|c rest IH]; intros self w Hnd Hzip Hdo;
    simpl in *.
  - injection Hdo as <- <-. by rewrite app_nil_r.
  - apply Forall_cons in Hnd as [Hc Hnd].
    destruct (do_call self w c) as [[[[]|e] self1] w1] eqn:Hcall;
      [|discriminate Hdo].
    destruct c as [path_in path_out|s path_out|]; simpl in *; [| |done].
    + destruct (add_file_returns _ _ _ _ _ _ Hcall Hzip) as (Hre & Hz & Hm).
      destruct (IH self1 w1 Hnd) as [Hz' Hm']; [by rewrite Hz|done|].
      split; [congruence|]. rewrite Hm', Hm, (listed_ext self1 self) by done.
      destruct (excluded self path_in); by rewrite <- app_assoc.
    + destruct (add_string_returns _ _ _ _ _ _ Hcall Hzip) as (Hre & Hz & Hm).
      destruct (IH self1 w1 Hnd) as [Hz' Hm']; [by rewrite Hz|done|].
      split; [congruence|]. rewrite Hm', Hm, (listed_ext self1 self) by done.
      by rewrite <- app_assoc.
Qed.


(** C6: the claim fails on the code.  On an open [Zipper] built without
    exclusion patterns the call [add_file("a.txt", "a.txt")], whose source
    exists and matches no pattern, raises and adds nothing; the sequence
    ends there, and a [close] made all the same writes an empty [MANIFEST]:
    in neither case does the manifest list [a.txt]. *)
Theorem manifest_misses_add_file :
  do_calls (opened []).1 (opened []).2 [AddFile "a.txt" "a.txt"]
    = (Raise (UnboundLocalError "path_in_full"), (opened []).1, (opened []).2) ∧
  archives (opened []).2 !! "/home/u/out.zip" = Some (mkArchive [] false) ∧
  ∃ w, Zipper_close (opened []).1 (opened []).2 = (Ok tt, (opened []).1, w) ∧
       archives w !! "/home/u/out.zip" = Some (mkArchive [("MANIFEST", "")] true).
Proof.
  split; [by vm_compute|]. split; [by vm_compute|].
  eexists. split; by vm_compute.
Qed.

(** ** Strings: dots, order and prefixes *)

Lemma app_cons (c : ascii) (s t : string) : String c s +:+ t = String c (s +:+ t).
Proof. reflexivity. Qed.

Lemma app_assoc_str (s t u : string) : (s +:+ t) +:+ u = s +:+ t +:+ u.
Proof. induction s as [|c s IH]; [done|]. by rewrite !app_cons, IH. Qed.

Lemma split_dot_spec (key : string) :
  has_dot key = true →
  key = dotted (split_dot key).1 (split_dot key).2 ∧
  has_dot (split_dot key).1 = false.
Proof.
  unfold dotted. induction key as [|c r IH]; simpl; [done|].
  destruct (is_dot c) eqn:Hc; simpl.
  - intros _. split; [|done].
    unfold is_dot in Hc. apply Ascii.eqb_eq in Hc. by subst.
  - intros Hr. destruct (IH Hr) as [Heq Hs].
    destruct (split_dot r) as [a b]; simpl in *.
    rewrite app_cons, <- Heq, Hc. done.
Qed.

Lemma split_dot_dotted (section name : string) :
  has_dot section = false → split_dot (dotted section name) = (section, name).
Proof.
  unfold dotted. induction section as [|c r IH]; intros H; [done|].
  simpl in H. apply orb_false_elim in H as [Hc Hr].
  rewrite app_cons. simpl. by rewrite Hc, (IH Hr).
Qed.

(** A string between two strings that share a prefix has that prefix. *)
Lemma le_between_prefix (p a b m : string) :
  String.le (p +:+ a) m → String.le m (p +:+ b) → ∃ c, m = p +:+ c.
Proof.
  unfold String.le, String.leb. revert m.
  induction p as [|x p IH]; intros m; [by exists m|].
  rewrite !app_cons. destruct m as [|y m]; simpl; [done|].
  rewrite (Ascii.compare_antisym y x).
  destruct (Ascii.compare x y) eqn:Hxy; simpl; try done.
  apply Ascii.compare_eq_iff in Hxy as ->.
  intros H1 H2. destruct (IH m H1 H2) as [c ->]. by exists c.
Qed.

Lemma dotted_between (s n1 n2 m : string) :
  has_dot s = false →
  String.le (dotted s n1) m → String.le m (dotted s n2) →
  (split_dot m).1 = s.
Proof.
  unfold dotted. intros Hs H1 H2.
  destruct (le_between_prefix (s +:+ ".") n1 n2 m) as [c ->].
  - by rewrite app_assoc_str.
  - by rewrite app_assoc_str.
  - rewrite app_assoc_str. apply (f_equal fst (split_dot_dotted s c Hs)).
Qed.

(** ** The parser filled by [save] *)

Lemma oget_oset {V} (k k' : string) (v : V) (d : odict V) :
  is_Some (oget k' (oset k v d)) ↔ k' = k ∨ is_Some (oget k' d).
Proof.
  unfold is_Some. induction d as [|[k0 v0] d IH]; simpl.
  - destruct (String.eqb_spec k' k); firstorder (eauto; congruence).
  - destruct (String.eqb_spec k k0) as [->|Hne]; simpl;
      destruct (String.eqb_spec k' k0); firstorder (eauto; congruence).
Qed.

Lemma oget_snoc {V} (k k' : string) (v : V) (d : odict V) :
  is_Some (oget k' (d ++ [(k, v)])%list) ↔ is_Some (oget k' d) ∨ k' = k.
Proof.
  unfold is_Some. induction d as [|[k0 v0] d IH]; simpl.
  - destruct (String.eqb_spec k' k); firstorder (eauto; congruence).
  - destruct (String.eqb_spec k' k0); firstorder (eauto; congruence).
Qed.

Lemma add_section_ok (p : parser) (section : string) :
  String.eqb (lower section) "default" = false →
  oget section (_sections p) = None →
  ∃ p', add_section p section = Ok p' ∧
        ∀ s, is_Some (oget s (_sections p')) ↔
             s = section ∨ is_Some (oget s (_sections p)).
Proof.
  intros Hd Hn. unfold add_section. rewrite Hd, Hn.
  eexists. split; [done|]. intros s. simpl. rewrite oget_snoc. tauto.
Qed.

Lemma set_ok (p : parser) (section option value : string) :
  percent_ok value = true →
  is_Some (oget section (_sections p)) →
  ∃ p', ConfigParser.set p section option value = Ok p' ∧
        ∀ s, is_Some (oget s (_sections p')) ↔ is_Some (oget s (_sections p)).
Proof.
  intros Hv [sect Hs]. unfold ConfigParser.set. rewrite Hv. simpl.
  destruct (_ || _).
  - eexists. split; [done|]. done.
  - rewrite Hs. eexists. split; [done|]. intros s. simpl. rewrite oget_oset.
    split; [|by right]. intros [->|?]; [by eexists|done].
Qed.

Lemma save_step_ok (d : dict) (key v : string) (st : option string * parser) :
  (st = (None, new) ∨ ∃ last, save_inv last st ∧ String.le last key) →
  has_dot key = true → d !! key = Some v → parser_accepts key v = true →
  ∃ st', save_step d key st = Ok st' ∧ save_inv key st'.
Proof.
  intros Hst Hdot Hv [Hdef Hpct]%andb_prop.
  apply negb_true_iff in Hdef.
  destruct (split_dot_spec key Hdot) as [Hkey Hsec].
  unfold save_step, save_inv. destruct st as [cur p]. rewrite Hdot. simpl.
  destruct (split_dot key) as [section name] eqn:Hsplit. simpl in *.
  unfold getitem. rewrite Hv.
  assert (Hself : ∃ n, String.le (dotted section n) key).
  { exists name. rewrite <- Hkey. done. }
  assert (Hnew : (∀ s, is_Some (oget s (_sections p)) →
             has_dot s = false ∧ ∃ n, String.le (dotted s n) key) →
           oget section (_sections p) = None →
           ∃ st', (st1 ← (parser1 ← add_section p section; Ok (section, parser1));
                   value ← Ok v;
                   parser2 ← ConfigParser.set st1.2 st1.1 name value;
                   Ok (Some st1.1, parser2)) = Ok st' ∧
                  st'.1 = Some section ∧
                  is_Some (oget section (_sections st'.2)) ∧
                  ∀ s, is_Some (oget s (_sections st'.2)) →
                       has_dot s = false ∧ ∃ n, String.le (dotted s n) key).
  { intros Hall Hn.
    destruct (add_section_ok p section Hdef Hn) as (p1 & -> & Hp1). simpl.
    destruct (set_ok p1 section name v Hpct) as (p2 & -> & Hp2).
    { apply Hp1. by left. }
    simpl. eexists. split; [done|]. simpl. split; [done|]. split.
    - apply Hp2, Hp1. by left.
    - intros s [->|Hs]%Hp2%Hp1; [done|]. by apply Hall. }
  destruct Hst as [[= -> ->]|(last & (Hcur & Hex & Hall) & Hle)]; simpl in *.
  - apply Hnew; [|done]. intros s [? ?]; done.
  - subst cur.
    assert (Hall' : ∀ s, is_Some (oget s (_sections p)) →
              has_dot s = false ∧ ∃ n, String.le (dotted s n) key).
    { intros s Hs. destruct (Hall s Hs) as [? [n Hn]]. split; [done|].
      exists n. by etrans. }
    destruct (String.eqb_spec section (split_dot last).1) as [Heq|Hne]; simpl.
    + destruct (set_ok p (split_dot last).1 name v Hpct Hex) as (p2 & -> & Hp2).
      simpl. eexists. split; [done|]. simpl. rewrite <- Heq.
      split; [done|]. split.
      * apply Hp2. by rewrite Heq.
      * intros s Hs%Hp2. by apply Hall'.
    + apply Hnew; [done|].
      destruct (oget section (_sections p)) eqn:Hget; [|done].
      exfalso. apply Hne. symmetry.
      destruct (Hall section) as [_ [n Hn]]; [by rewrite Hget|].
      apply (dotted_between section n name last Hsec Hn). by rewrite <- Hkey.
Qed.

Lemma save_loop_ok (d : dict) (ks : list string) (st : option string * parser) :
  (st = (None, new) ∨ ∃ last, save_inv last st ∧ Forall (String.le last) ks) →
  StronglySorted String.le ks →
  Forall (λ k, has_dot k = true ∧
               ∃ v, d !! k = Some v ∧ parser_accepts k v = true) ks →
  ∃ st', save_loop d ks st = Ok st'.
Proof.
  revert st. induction ks as [|key rest IH]; intros st Hst Hsorted Hacc; simpl.
  - by eexists.
  - apply StronglySorted_cons in Hsorted as [Hle Hsorted].
    apply Forall_cons in Hacc as [(Hdot & v & Hv & Hpa) Hacc].
    destruct (save_step_ok d key v st) as (st1 & -> & Hinv); try done.
    { destruct Hst as [?|(last & ? & Hlast)]; [by left|right].
      exists last. split; [done|]. by apply Forall_cons in Hlast as [? _]. }
    simpl. apply IH; [|done..]. right. by exists key.
Qed.

Lemma save_loop_app (d : dict) (l1 l2 : list string) (st : option string * parser) :
  save_loop d (l1 ++ l2) st = st' ← save_loop d l1 st; save_loop d l2 st'.
Proof.
  revert st. induction l1 as [|k l1 IH]; intros st; simpl; [done|].
  destruct (save_step d k st); simpl; [apply IH|done].
Qed.

Lemma save_loop_dotless (d : dict) (k : string) (rest : list string)
    (st : option string * parser) :
  has_dot k = false → save_loop d (k :: rest) st = abort [usage_msg k].
Proof. intros H. simpl. unfold save_step. destruct st. by rewrite H. Qed.

Lemma sort_keys_sorted (d : dict) : StronglySorted String.le (sort (keys d)).
Proof. apply StronglySorted_merge_sort; apply _. Qed.

Lemma elem_of_sort_keys (d : dict) (k : string) :
  k ∈ sort (keys d) ↔ is_Some (d !! k).
Proof. unfold sort. by rewrite merge_sort_Permutation, elem_of_keys. Qed.

Lemma sort_keys_NoDup (d : dict) : NoDup (sort (keys d)).
Proof.
  unfold sort. rewrite merge_sort_Permutation. apply NoDup_fst_map_to_list.
Qed.

(** ** [INIConfigManager.save] never reaches the file *)

Lemma save_fs (path : string) (d : dict) (fs : filesystem) :
  (save path d fs).2 = fs.
Proof. unfold save. by destruct (save_loop _ _ _). Qed.

Lemma save_raises (path : string) (d : dict) (fs : filesystem) :
  raised (save path d fs).1.
Proof. unfold save. by destruct (save_loop _ _ _). Qed.

(** C2: the claim fails on the code.  [save] never returns: it raises on
    every map and every path and leaves the file system as it found it, so
    a [load] of the same path afterwards answers what it would have
    answered before the [save], not the map saved.  On a map of the kind
    the claim is about (every key has a dot) that the parser accepts, the
    exception is the [NameError] of the unbound name [FileWriter]. *)
Theorem save_then_load (path : string) (d : dict) (fs : filesystem) :
  raised (save path d fs).1 ∧
  (save path d fs).2 = fs ∧
  load path (save path d fs).2 = load path fs ∧
  ((∀ k v, d !! k = Some v → has_dot k = true ∧ parser_accepts k v = true) →
   (save path d fs).1 = Raise (NameError "FileWriter")).
Proof.
  split; [apply save_raises|]. split; [apply save_fs|].
  split; [by rewrite save_fs|].
  intros Hd. unfold save.
  destruct (save_loop_ok d (sort (keys d)) (None, new)) as [st ->];
    [by left|apply sort_keys_sorted| |done].
  apply Forall_forall. intros k [v Hv]%elem_of_sort_keys.
  destruct (Hd k v Hv) as [Hdot Hacc]. split; [done|]. by exists v.
Qed.

Lemma save_then_load_witness :
  (save "new.cfg" volt_port example_fs).1 = Raise (NameError "FileWriter") ∧
  load "new.cfg" (save "new.cfg" volt_port example_fs).2 = Ok ∅ ∧
  volt_port ≠ ∅.
Proof.
  destruct (save_then_load "new.cfg" volt_port example_fs)
    as (_ & _ & Hload & Hname).
  split; [|split].
  - apply Hname. intros k v Hv.
    assert (Hk : k ∈ keys volt_port) by (apply elem_of_keys; exists v; exact Hv).
    vm_compute in Hk. apply elem_of_cons in Hk as [->|Hk].
    + vm_compute in Hv. injection Hv as <-. split; vm_compute; reflexivity.
    + apply elem_of_nil in Hk. destruct Hk.
  - rewrite Hload. vm_compute. reflexivity.
  - intros H. apply (f_equal (λ m : dict, m !! "volt.port")) in H.
    vm_compute in H. discriminate H.
Defined.

(** ** [set_permanent] and [set_local] *)

(** C7: the claim fails on the code.  Each setter updates the map of its
    own tier and leaves the other tier's map alone, but the save it then
    calls raises and writes no file: after [set_permanent] (and after
    [set_local]) the whole file system, the file of the tier included, is
    what it was before. *)
Theorem setters_write_no_file (self : PersistentConfig) (key value : string)
    (fs : filesystem) :
  (raised (set_permanent self key value fs).1.1 ∧
   (set_permanent self key value fs).2 = fs ∧
   permanent (set_permanent self key value fs).1.2 = <[key := value]> (permanent self) ∧
   local (set_permanent self key value fs).1.2 = local self) ∧
  (raised (set_local self key value fs).1.1 ∧
   (set_local self key value fs).2 = fs ∧
   local (set_local self key value fs).1.2 = <[key := value]> (local self) ∧
   permanent (set_local self key value fs).1.2 = permanent self).
Proof.
  unfold set_permanent, set_local, save_permanent, save_local. split.
  - match goal with |- context [save ?p ?d ?f] =>
      pose proof (save_raises p d f); pose proof (save_fs p d f);
      destruct (save p d f) end.
    by simplify_eq/=.
  - match goal with |- context [save ?p ?d ?f] =>
      pose proof (save_raises p d f); pose proof (save_fs p d f);
      destruct (save p d f) end.
    by simplify_eq/=.
Qed.

(** The example of the specification: [perm.cfg] still has no [host] line
    after [set_permanent("volt.host", "node1")]. *)
Lemma set_permanent_volt_host :
  ∃ self, PersistentConfig_init "ini" "perm.cfg" "local.cfg" example_fs = Ok self ∧
    set_permanent self "volt.host" "node1" example_fs
      = (Raise (NameError "FileWriter"),
         mkPersistentConfig "perm.cfg" "local.cfg"
           {[ "volt.port" := "21212"; "volt.host" := "node1" ]}
           {[ "volt.port" := "21311" ]},
         example_fs) ∧
    load "perm.cfg" example_fs = Ok {[ "volt.port" := "21212" ]}.
Proof. eexists. split; [by vm_compute|]. split; by vm_compute. Qed.

(** C4, amended: on a map with a key without a dot, [save] fails and leaves
    the file system as it was; and when the parser accepts every key that
    sorts before the first such key [k0] (its section is not DEFAULT in any
    letter case and its value passes the percent check), the failure is the
    usage error that names [k0]. *)
Theorem save_usage_error (path : string) (d : dict) (fs : filesystem)
    (k0 : string) :
  is_Some (d !! k0) → has_dot k0 = false →
  (∀ k, is_Some (d !! k) → has_dot k = false → String.le k0 k) →
  raised (save path d fs).1 ∧
  (save path d fs).2 = fs ∧
  ((∀ k v, d !! k = Some v → String.le k k0 → k ≠ k0 →
           parser_accepts k v = true) →
   (save path d fs).1 = Raise (SystemExit [usage_msg k0])).
Proof.
  intros Hk0 Hdot Hmin. split; [apply save_raises|]. split; [apply save_fs|].
  intros Hacc.
  apply elem_of_sort_keys, list_elem_of_split in Hk0 as (pre & post & Hsplit).
  pose proof (sort_keys_sorted d) as Hsorted.
  pose proof (sort_keys_NoDup d) as Hnodup.
  assert (Hin : ∀ k, k ∈ pre → is_Some (d !! k)).
  { intros k Hk. apply elem_of_sort_keys. rewrite Hsplit.
    apply elem_of_app. by left. }
  unfold save. rewrite Hsplit in *. rewrite save_loop_app.
  apply StronglySorted_app in Hsorted as (Hle & Hpre & _).
  apply NoDup_app in Hnodup as (_ & Hdisj & _).
  destruct (save_loop_ok d pre (None, new)) as [st ->]; [by left|done| |].
  - apply Forall_forall. intros k Hk.
    assert (Hkk0 : String.le k k0) by (apply Hle; [done|left]).
    assert (Hne : k ≠ k0) by (intros ->; apply (Hdisj k0 Hk); left).
    destruct (Hin k Hk) as [v Hv].
    destruct (has_dot k) eqn:Hkdot.
    + split; [done|]. exists v. split; [done|]. by apply Hacc.
    + exfalso. apply Hne. apply (anti_symm String.le); [done|].
      apply Hmin; [by eexists|done].
  - unfold mbind, result_bind. by rewrite save_loop_dotless.
Qed.

Lemma save_usage_error_witness :
  raised (save "perm.cfg" nodot_config ∅).1 ∧
  (save "perm.cfg" nodot_config ∅).2 = ∅ ∧
  (save "perm.cfg" nodot_config ∅).1 = Raise (SystemExit [usage_msg "nodot"]).
Proof.
  destruct (save_usage_error "perm.cfg" nodot_config ∅ "nodot")
    as (Hr & Hfs & Hexit).
  - exists "2". by vm_compute.
  - reflexivity.
  - intros k Hk%elem_of_keys Hdot. vm_compute in Hk.
    apply elem_of_cons in Hk as [->|Hk]; [by vm_compute|].
    apply elem_of_cons in Hk as [->|Hk]; [by vm_compute in Hdot|].
    apply elem_of_cons in Hk as [->|Hk]; [by vm_compute|].
    by apply elem_of_nil in Hk.
  - split. exact Hr. split. exact Hfs. apply Hexit.
    intros k v Hv Hle Hne.
    assert (Hk : k ∈ keys nodot_config) by (apply elem_of_keys; by eexists).
    vm_compute in Hk.
    apply elem_of_cons in Hk as [->|Hk].
    { vm_compute in Hv. injection Hv as <-. vm_compute. reflexivity. }
    apply elem_of_cons in Hk as [->|Hk]; [congruence|].
    apply elem_of_cons in Hk as [->|Hk]; [vm_compute in Hle; destruct Hle|].
    apply elem_of_nil in Hk. destruct Hk.
Defined.

(** C4, as stated, fails: the section [DEFAULT] sorts before [nodot] and
    the parser refuses it first. *)
Lemma save_default_before_dotless :
  is_Some (default_config !! "nodot") ∧
  has_dot "nodot" = false ∧
  save "perm.cfg" default_config ∅
    = (Raise (ValueError "Invalid section name: DEFAULT"), ∅).
Proof. split; [exists "2"; by vm_compute|]. split; by vm_compute. Qed.

(** ** [load]: what it returns and when *)

Lemma lower_ascii_idem (c : ascii) : lower_ascii (lower_ascii c) = lower_ascii c.
Proof. destruct c as [[] [] [] [] [] [] [] []]; reflexivity. Qed.

Lemma lower_idem (s : string) : lower (lower s) = lower s.
Proof.
  induction s as [|c r IH]; simpl; [done|]. by rewrite lower_ascii_idem, IH.
Qed.

Lemma Forall_oset {V} (P : string * V → Prop) (k : string) (v : V) (d : odict V) :
  P (k, v) → Forall P d → Forall P (oset k v d).
Proof.
  intros Hkv. induction 1 as [|[k0 v0] d H0 Hd IH]; simpl.
  - by repeat constructor.
  - destruct (String.eqb k k0); by constructor.
Qed.

Lemma oget_elem_of {V} (k : string) (v : V) (d : odict V) :
  oget k d = Some v → (k, v) ∈ d.
Proof.
  induction d as [|[k0 v0] d IH]; simpl; [done|].
  destruct (String.eqb_spec k k0) as [->|Hne].
  - intros [= ->]. left.
  - intros H. right. by apply IH.
Qed.

Lemma elem_of_oget {V} (k : string) (d : odict V) :
  k ∈ d.*1 → ∃ v, oget k d = Some v ∧ (k, v) ∈ d.
Proof.
  induction d as [|[k0 v0] d IH]; simpl; [by intros ?%elem_of_nil|].
  destruct (String.eqb_spec k k0) as [->|Hne].
  - intros _. exists v0. split; [done|]. left.
  - intros [?|Hin]%elem_of_cons; [done|].
    destruct (IH Hin) as (v & ? & ?). exists v. split; [done|]. by right.
Qed.

Section entries.
Variable P : string * string → Prop.

Lemma read_options_inv (lines : list (string * string)) (cursect : odict string) :
  Forall (λ nv, P (optionxform nv.1, nv.2)) lines →
  Forall P cursect → Forall P (read_options lines cursect).
Proof.
  unfold read_options. intros Hlines. revert cursect.
  induction Hlines as [|[n v] lines Hnv _ IH]; intros cursect Hc; simpl; [done|].
  apply IH. by apply Forall_oset.
Qed.

Lemma read_section_inv (hs : list string) (p : parser) (s : ini_section) :
  header s ∈ hs → P ("__name__", header s) →
  Forall (λ nv, P (optionxform nv.1, nv.2)) (options s) →
  entries_inv P hs p → entries_inv P hs (read_section p s).
Proof.
  intros Hh Hname Hopts [Hd Hs]. unfold read_section.
  destruct (oget (header s) (_sections p)) as [cursect|] eqn:Hget.
  - split; [done|]. simpl. apply Forall_oset; [|done]. split; [done|].
    apply read_options_inv; [done|].
    apply oget_elem_of in Hget.
    by apply (proj1 (Forall_forall _ _) Hs (header s, cursect)).
  - destruct (String.eqb (header s) DEFAULTSECT).
    + split; [|done]. simpl. by apply read_options_inv.
    + split; [done|]. simpl. apply Forall_app. split; [done|].
      repeat constructor; [done|]. simpl.
      apply read_options_inv; [done|]. by repeat constructor.
Qed.

Lemma read_file_inv (hs : list string) (f : ini_file) (p : parser) :
  Forall (λ s, header s ∈ hs ∧ P ("__name__", header s) ∧
               Forall (λ nv, P (optionxform nv.1, nv.2)) (options s)) f →
  entries_inv P hs p → entries_inv P hs (fold_left read_section f p).
Proof.
  intros Hf. revert p.
  induction Hf as [|s f (Hh & Hn & Ho) _ IH]; intros p Hp; simpl; [done|].
  apply IH. by apply read_section_inv.
Qed.

Lemma oupdate_inv (d e : odict string) :
  Forall P d → Forall P e → Forall P (oupdate d e).
Proof.
  unfold oupdate. intros Hd He. revert d Hd.
  induction He as [|[k v] e Hkv _ IH]; intros d Hd; simpl; [done|].
  apply IH. by apply Forall_oset.
Qed.

(** The dictionary that [items] interpolates in. *)
Lemma items_dict (hs : list string) (p : parser) (section : string) :
  entries_inv P hs p → section ∈ sections p →
  section ∈ hs ∧
  ∃ d, Forall P d ∧ items p section = interpolate_all d (visible d).
Proof.
  intros [Hd Hs] Hin.
  destruct (elem_of_oget section (_sections p) Hin) as (sect & Hget & Hin').
  destruct (proj1 (Forall_forall _ _) Hs _ Hin') as [Hh Hl]. simpl in *.
  split; [done|]. exists (oupdate (_defaults p) sect).
  split; [by apply oupdate_inv|]. unfold items. by rewrite Hget.
Qed.
End entries.

Lemma interpolate_all_names (map : odict string) (opts its : list (string * string)) :
  interpolate_all map opts = Ok its → its.*1 = opts.*1.
Proof.
  revert its. induction opts as [|[option rawval] opts IH]; intros its; simpl.
  - by intros [= <-].
  - destruct (interpolate option rawval map); [|done]. simpl.
    destruct (interpolate_all map opts) as [its'|]; [|done]. simpl.
    intros [= <-]. simpl. f_equal. by apply IH.
Qed.

Lemma visible_Forall (P : string * string → Prop) (d : odict string) :
  Forall P d → Forall P (visible d).
Proof.
  unfold visible. intros Hd. apply Forall_forall.
  intros kv [Hkv _]%list_elem_of_In%filter_In. apply list_elem_of_In in Hkv.
  by apply (proj1 (Forall_forall _ _) Hd).
Qed.

Lemma interpolate_loop_plain (deeper : list ascii → result (list ascii))
    (option : string) (map : odict string) (fuel : nat) (rest : list ascii) :
  has_percent rest = false → (List.length rest ≤ fuel)%nat →
  interpolate_loop deeper option map fuel rest = Ok rest.
Proof.
  unfold has_percent. revert fuel.
  induction rest as [|c r IH]; intros fuel Hp Hlen; [by destruct fuel|].
  destruct fuel as [|fuel]; simpl in *; [lia|].
  apply orb_false_elim in Hp as [-> Hp]. simpl.
  rewrite IH; [done|done|lia].
Qed.

Lemma interpolate_plain (option rawval : string) (map : odict string) :
  has_percent (list_ascii_of_string rawval) = false →
  interpolate option rawval map = Ok rawval.
Proof.
  intros Hp. unfold interpolate, MAX_INTERPOLATION_DEPTH. simpl.
  rewrite interpolate_loop_plain by done. simpl.
  by rewrite string_of_list_ascii_of_string.
Qed.

Lemma interpolate_all_plain (map : odict string) (opts : list (string * string)) :
  Forall plain_entry opts → Forall (λ kv, kv.1 ≠ "__name__") opts →
  interpolate_all map opts = Ok opts.
Proof.
  induction 1 as [|[option rawval] opts [Hn|Hp] _ IH]; intros Hvis; simpl;
    [done|..]; apply Forall_cons in Hvis as [Hne Hvis]; [done|].
  rewrite interpolate_plain by done. simpl. by rewrite IH.
Qed.

Lemma visible_not_name (d : odict string) :
  Forall (λ kv, kv.1 ≠ "__name__") (visible d).
Proof.
  unfold visible. apply Forall_forall.
  intros kv [_ Hkv]%list_elem_of_In%filter_In.
  apply negb_true_iff in Hkv. by apply String.eqb_neq.
Qed.

Lemma load_items_keys (section : string) (its : list (string * string)) (d : dict)
    (key : string) :
  is_Some (load_items section its d !! key) →
  is_Some (d !! key) ∨ ∃ name, name ∈ its.*1 ∧ key = dotted section name.
Proof.
  unfold load_items. revert d.
  induction its as [|[n v] its IH]; intros d; simpl; [by left|].
  intros [Hd|(name & Hn & ->)]%IH.
  - destruct (decide (dotted section n = key)) as [<-|Hne].
    + right. exists n. split; [left|done].
    + left. by rewrite lookup_insert_ne in Hd.
  - right. exists name. split; [by right|done].
Qed.

Lemma load_sections_keys (hs : list string) (p : parser) (secs : list string)
    (d d' : dict) :
  entries_inv lowered_entry hs p → (∀ s, s ∈ secs → s ∈ sections p) →
  load_sections p secs d = Ok d' →
  ∀ key, is_Some (d' !! key) →
    is_Some (d !! key) ∨
    ∃ section name, section ∈ hs ∧ key = dotted section name ∧ lower name = name.
Proof.
  intros Hp. revert d. induction secs as [|section rest IH]; intros d Hsecs; simpl.
  - intros [= <-] key Hkey. by left.
  - destruct (items_dict lowered_entry hs p section Hp) as (Hh & m & Hm & ->).
    { apply Hsecs. left. }
    destruct (interpolate_all m (visible m)) as [its|] eqn:Hits; [|done]. simpl.
    intros Hload key Hkey.
    destruct (IH (load_items section its d)
                (λ s Hs, Hsecs s (list_elem_of_further _ _ _ Hs)) Hload key Hkey)
      as [Hk|?]; [|by right].
    apply load_items_keys in Hk as [?|(name & Hn & ->)]; [by left|].
    right. exists section, name. split; [done|]. split; [done|].
    rewrite (interpolate_all_names _ _ _ Hits) in Hn.
    apply list_elem_of_fmap in Hn as [[n v] [-> Hn]].
    by apply (proj1 (Forall_forall _ _) (visible_Forall _ _ Hm) (n, v)).
Qed.

Lemma load_sections_plain (hs : list string) (p : parser) (secs : list string)
    (d : dict) :
  entries_inv plain_entry hs p → (∀ s, s ∈ secs → s ∈ sections p) →
  ∃ d', load_sections p secs d = Ok d'.
Proof.
  intros Hp. revert d. induction secs as [|section rest IH]; intros d Hsecs; simpl.
  - by eexists.
  - destruct (items_dict plain_entry hs p section Hp) as (Hh & m & Hm & ->).
    { apply Hsecs. left. }
    rewrite interpolate_all_plain;
      [|by apply visible_Forall|apply visible_not_name].
    simpl. apply IH. intros s Hs. apply Hsecs. by right.
Qed.

(** The headers that [_read] gathers are headers of lines of the file. *)
Lemma on_last_fmap {A B} (h : A → B) (g : A → A) (l : list A) :
  (∀ x, h (g x) = h x) → h <$> on_last g l = h <$> l.
Proof.
  intros Hg. induction l as [|x [|y l] IH]; [done| |].
  - simpl. by rewrite Hg.
  - change (on_last g (x :: y :: l)) with (x :: on_last g (y :: l)).
    by rewrite !(fmap_cons h x), IH.
Qed.

Lemma _read_line_headers (st st' : reader) (lineno : nat) (line h : string) :
  _read_line st lineno line = Ok st' →
  h ∈ header <$> rd_sections st' →
  h ∈ header <$> rd_sections st ∨ match_section line = Some h.
Proof.
  unfold _read_line.
  destruct (is_comment line); [by intros [= <-]; left|].
  destruct (is_rem line); [by intros [= <-]; left|].
  destruct (_ && _ && _).
  - destruct (String.eqb (strip line) ""); intros [= <-]; [by left|].
    simpl. unfold append_value. rewrite on_last_fmap by done. by left.
  - destruct (match_section line) as [sectname|].
    + intros [= <-]. simpl. rewrite fmap_app, elem_of_app. simpl.
      intros [?| ->%list_elem_of_singleton]; [by left|by right].
    + destruct (bool_decide _); [discriminate|].
      destruct (match_option line) as [[optname optval]|]; intros [= <-]; simpl.
      * unfold add_option. rewrite on_last_fmap by done. by left.
      * by left.
Qed.

Lemma _read_loop_headers (st st' : reader) (lineno : nat) (lines : list string)
    (h : string) :
  _read_loop st lineno lines = Ok st' →
  h ∈ header <$> rd_sections st' →
  h ∈ header <$> rd_sections st ∨
  ∃ line, line ∈ lines ∧ match_section line = Some h.
Proof.
  revert st lineno. induction lines as [|line rest IH]; intros st lineno; simpl.
  - intros [= <-]. by left.
  - destruct (_read_line st (S lineno) line) as [st1|e] eqn:Hline; [|discriminate].
    simpl. intros Hloop Hh.
    destruct (IH _ _ Hloop Hh) as [Hin|(l & Hl & Hm)].
    + destruct (_read_line_headers _ _ _ _ _ Hline Hin) as [?|?]; [by left|].
      right. exists line. split; [by left|done].
    + right. exists l. split; [by right|done].
Qed.

Lemma _read_headers (lines : list string) (f : ini_file) (h : string) :
  _read lines = Ok f → h ∈ header <$> f →
  ∃ line, line ∈ lines ∧ match_section line = Some h.
Proof.
  unfold _read.
  destruct (_read_loop _ 0 lines) as [st|e] eqn:Hloop; [|discriminate]. simpl.
  destruct (rd_errors st); [|discriminate]. intros [= <-] Hh.
  destruct (_read_loop_headers _ _ _ _ _ Hloop Hh) as [Hin|?]; [|done].
  by apply elem_of_nil in Hin.
Qed.

(** C10, amended: every key of a map that [load] returns is a section
    header of the file, a dot, and an option name in lower case; so when
    the header holds no dot, the part of the key after its first dot is
    that name and is in lower case. *)
Theorem load_keys_lowered (path : string) (fs : filesystem) (d : dict)
    (key : string) :
  load path fs = Ok d → is_Some (d !! key) →
  ∃ lines line section name,
    fs !! path = Some lines ∧ line ∈ lines ∧
    match_section line = Some section ∧
    key = dotted section name ∧ lower name = name ∧
    (has_dot section = false →
     split_dot key = (section, name) ∧
     lower (split_dot key).2 = (split_dot key).2).
Proof.
  unfold load, read. destruct (fs !! path) as [lines|] eqn:Hf; simpl.
  - destruct (_read lines) as [f|e] eqn:Hread; [|discriminate]. simpl.
    intros Hload Hkey.
    destruct (load_sections_keys (header <$> f) _ _ _ _
                (read_file_inv lowered_entry (header <$> f) f new
                   ltac:(apply Forall_forall; intros s Hs; split;
                         [apply list_elem_of_fmap; by exists s|];
                         split; [done|];
                         apply Forall_forall; intros nv _; apply lower_idem)
                   ltac:(by repeat constructor))
                (λ s Hs, Hs) Hload key Hkey)
      as [He|(section & name & Hs & -> & Hl)].
    { rewrite lookup_empty in He. by destruct He. }
    destruct (_read_headers _ _ _ Hread Hs) as (line & Hline & Hm).
    exists lines, line, section, name. repeat split; try done.
    + by apply split_dot_dotted.
    + by rewrite split_dot_dotted.
  - intros [= <-] He. rewrite lookup_empty in He. by destruct He.
Qed.

(** C10, as stated, fails: a section header may hold a dot and capitals. *)
Lemma load_dotted_header :
  load "x.cfg" dotted_header_fs = Ok {[ "a.B.c" := "1" ]} ∧
  (split_dot "a.B.c").2 = "B.c" ∧
  lower "B.c" ≠ "B.c".
Proof. split; [by vm_compute|]. split; by vm_compute. Qed.

Lemma load_keys_lowered_witness :
  load "c.cfg" capital_fs = Ok {[ "volt.port" := "21212" ]} ∧
  ∃ lines line section name,
    capital_fs !! "c.cfg" = Some lines ∧ line ∈ lines ∧
    match_section line = Some section ∧
    "volt.port" = dotted section name ∧ lower name = name.
Proof.
  assert (load "c.cfg" capital_fs = Ok {[ "volt.port" := "21212" ]}) as Hd
    by (vm_compute; reflexivity).
  split; [exact Hd|].
  destruct (load_keys_lowered "c.cfg" capital_fs _ "volt.port" Hd)
    as (lines & line & section & name & Hf & Hline & Hm & Hk & Hl & _).
  - exists "21212". vm_compute. reflexivity.
  - exists lines, line, section, name. repeat split; assumption.
Defined.

(** * Properties of the rest of the module *)
(** ** [query_pairs] *)

Lemma query_pairs_loop_ok (d : dict) (ks : list string) :
  (∀ k, k ∈ ks → is_Some (d !! k)) →
  ∃ l, query_pairs_loop d ks = Ok l ∧ l.*1 = ks ∧
       ∀ k v, (k, v) ∈ l ↔ k ∈ ks ∧ d !! k = Some v.
Proof.
  induction ks as [|key rest IH]; intros Hks; simpl.
  - exists []. split; [done|]. split; [done|]. intros k v.
    split; [by intros ?%elem_of_nil|by intros [?%elem_of_nil _]].
  - destruct (Hks key) as [v Hv]; [left|].
    destruct IH as (l & Hl & Hfst & Hin); [intros k Hk; apply Hks; by right|].
    unfold getitem. rewrite Hv. simpl. rewrite Hl. simpl.
    exists ((key, v) :: l). split; [done|]. split; [simpl; by f_equal|].
    intros k v'. rewrite !elem_of_cons, Hin. split.
    + intros [[= -> ->]|[? ?]]; [by split; [left|]|by split; [right|]].
    + intros [[->|?] Hk]; [left; congruence|by right].
Qed.

(** X1: [query_pairs] fails exactly as [query] fails; and when [query]
    returns a map, [query_pairs] returns the entries of that map, each
    once, in increasing byte order of the keys. *)
Theorem query_pairs_sorted (self : PersistentConfig) (filter : filter_arg) :
  match query self filter with
  | Raise e => query_pairs self filter = Raise e
  | Ok d =>
      ∃ l, query_pairs self filter = Ok l ∧
           StronglySorted String.le l.*1 ∧ NoDup l.*1 ∧
           ∀ k v, (k, v) ∈ l ↔ d !! k = Some v
  end.
Proof.
  unfold query_pairs. destruct (query self filter) as [d|e]; simpl; [|done].
  destruct (query_pairs_loop_ok d (sort (keys d))) as (l & -> & Hfst & Hin).
  { intros k. apply elem_of_sort_keys. }
  exists l. split; [done|]. rewrite Hfst.
  split; [apply sort_keys_sorted|]. split; [apply sort_keys_NoDup|].
  intros k v. rewrite Hin, elem_of_sort_keys. split; [by intros [_ ?]|].
  intros Hv. split; [by eexists|done].
Qed.

(** ** [flatten] *)

Lemma value_nested_ind (P : value → Prop) :
  P VNone → (∀ b, P (VBool b)) → (∀ z, P (VInt z)) → (∀ s, P (VStr s)) →
  (∀ l, Forall P l → P (VList l)) → (∀ l, Forall P l → P (VTuple l)) →
  ∀ v, P v.
Proof.
  intros HN HB HI HS HL HT.
  fix IH 1. intros [| b | z | s | l | l].
  - exact HN.
  - apply HB.
  - apply HI.
  - apply HS.
  - apply HL. induction l as [|x l IHl]; constructor; [apply IH|exact IHl].
  - apply HT. induction l as [|x l IHl]; constructor; [apply IH|exact IHl].
Qed.

Lemma flatten_item_nil (item : value) : is_none item = true → _flatten_item item = [].
Proof. by destruct item. Qed.

(** The test [subitem is not None] of the inner loop changes nothing. *)
Lemma flatten_item_seq (l : list value) :
  _flatten_item (VList l) = _flatten l ∧ _flatten_item (VTuple l) = _flatten l.
Proof.
  assert (H : ∀ l, (fix subitems (l : list value) : list value :=
                 match l with
                 | [] => []
                 | subitem :: rest =>
                     (List.filter (λ _, negb (is_none subitem)) (_flatten_item subitem)
                        ++ subitems rest)%list
                 end) l = _flatten l).
  { clear l. induction l as [|x l IH]; [done|]. rewrite IH. unfold _flatten.
    simpl. f_equal. destruct (is_none x) eqn:Hx; simpl.
    - by rewrite flatten_item_nil.
    - induction (_flatten_item x) as [|y r IHr]; simpl; [done|]. by f_equal. }
  split; simpl; apply H.
Qed.

Lemma flatten_item_leaf (item : value) : leaf item = true → _flatten_item item = [item].
Proof. by destruct item. Qed.

Lemma flatten_item_leaves (item : value) :
  Forall (λ x, leaf x = true) (_flatten_item item).
Proof.
  induction item as [| b | z | s | l IH | l IH] using value_nested_ind;
    try (by repeat constructor).
  - rewrite (proj1 (flatten_item_seq l)). unfold _flatten.
    induction IH as [|x l Hx _ IHl]; simpl; [constructor|]. by apply Forall_app.
  - rewrite (proj2 (flatten_item_seq l)). unfold _flatten.
    induction IH as [|x l Hx _ IHl]; simpl; [constructor|]. by apply Forall_app.
Qed.

Lemma flatten_leaves (items : list value) :
  Forall (λ x, leaf x = true) items → _flatten items = items.
Proof.
  unfold _flatten. induction 1 as [|x l Hx _ IH]; simpl; [done|].
  by rewrite flatten_item_leaf, IH.
Qed.

(** X2: [flatten_to_list] returns only items that are neither [None] nor a
    list or tuple, and flattening its result again changes nothing. *)
Theorem flatten_to_list_leaves (items : list value) :
  Forall (λ x, x ≠ VNone ∧ is_sequence x = false) (flatten_to_list items) ∧
  flatten_to_list (flatten_to_list items) = flatten_to_list items.
Proof.
  assert (H : Forall (λ x, leaf x = true) (flatten_to_list items)).
  { unfold flatten_to_list, flatten, _flatten.
    induction items as [|x l IH]; simpl; [constructor|].
    apply Forall_app. split; [apply flatten_item_leaves|done]. }
  split.
  - eapply Forall_impl; [exact H|]. intros x Hx. by destruct x.
  - by apply flatten_leaves.
Qed.

(** X3: nesting does not matter to [flatten_to_list]: a list or tuple
    among the arguments gives what its items give in its place, a [None]
    gives nothing, and the arguments are taken from left to right. *)
Theorem flatten_to_list_splice (before after l : list value) :
  flatten_to_list (before ++ VList l :: after)
    = flatten_to_list (before ++ l ++ after) ∧
  flatten_to_list (before ++ VTuple l :: after)
    = flatten_to_list (before ++ l ++ after) ∧
  flatten_to_list (before ++ VNone :: after) = flatten_to_list (before ++ after) ∧
  flatten_to_list (before ++ after)
    = (flatten_to_list before ++ flatten_to_list after)%list.
Proof.
  unfold flatten_to_list, flatten, _flatten.
  rewrite !flat_map_app.
  change (flat_map _flatten_item (VList l :: after))
    with (_flatten_item (VList l) ++ flat_map _flatten_item after)%list.
  change (flat_map _flatten_item (VTuple l :: after))
    with (_flatten_item (VTuple l) ++ flat_map _flatten_item after)%list.
  rewrite (proj1 (flatten_item_seq l)), (proj2 (flatten_item_seq l)).
  done.
Qed.

(** ** [to_display_string] *)

Lemma to_display_string_seq (str : value → string) (l : list value) :
  to_display_string str (VList l) = "[" +:+ display_items str l "" +:+ "]" ∧
  to_display_string str (VTuple l) = "[" +:+ display_items str l "" +:+ "]".
Proof.
  assert (H : ∀ l s, (fix subitems (l : list value) (s : string) : string :=
                 match l with
                 | [] => s
                 | subitem :: rest =>
                     let s1 := if String.eqb s "" then s else s +:+ ", " in
                     subitems rest (s1 +:+ to_display_string str subitem)
                 end) l s = display_items str l s).
  { clear l. induction l as [|x l IH]; intros s; [done|]. simpl. apply IH. }
  split; simpl; by rewrite H.
Qed.

Lemma app_empty_r (s : string) : s +:+ "" = s.
Proof. induction s as [|c s IH]; [done|]. by rewrite app_cons, IH. Qed.

Lemma concat_empty_cons (a : string) (r : list string) :
  String.concat "" (a :: r) = a +:+ String.concat "" r.
Proof. destruct r; simpl; [by rewrite app_empty_r|done]. Qed.

Lemma display_items_from (str : value → string) (l : list value) (s : string) :
  s ≠ "" →
  display_items str l s
    = s +:+ String.concat "" ((λ x, ", " +:+ to_display_string str x) <$> l).
Proof.
  revert s. induction l as [|x l IH]; intros s Hs.
  - simpl. by rewrite app_empty_r.
  - rewrite fmap_cons, concat_empty_cons. simpl.
    apply String.eqb_neq in Hs as Hs'. rewrite Hs'. rewrite IH.
    + by rewrite !app_assoc_str.
    + destruct s; [done|]. by rewrite !app_cons.
Qed.

Lemma concat_cons_sep (sep x : string) (l : list string) :
  String.concat sep (x :: l) = x +:+ String.concat "" ((λ y, sep +:+ y) <$> l).
Proof.
  revert x. induction l as [|y l IH]; intros x.
  - simpl. by rewrite app_empty_r.
  - rewrite fmap_cons, concat_empty_cons, app_assoc_str, <- IH. done.
Qed.

(** X4: [to_display_string] renders a list or tuple as its rendered items
    between square brackets with a comma and a space between them, except
    that items rendered as the empty string at the head of the sequence
    are left out together with their separators; any other item is
    rendered by [str]. *)
Theorem to_display_string_spec (str : value → string) (item : value) :
  to_display_string str item =
    match item with
    | VList l | VTuple l =>
        "[" +:+ String.concat ", " (drop_empty (to_display_string str <$> l)) +:+ "]"
    | _ => str item
    end.
Proof.
  assert (H : ∀ l, display_items str l ""
                   = String.concat ", " (drop_empty (to_display_string str <$> l))).
  { induction l as [|x l IH]; [done|]. simpl.
    destruct (String.eqb_spec (to_display_string str x) "") as [->|Hne].
    - exact IH.
    - change ("" +:+ to_display_string str x) with (to_display_string str x).
      rewrite display_items_from by done. rewrite concat_cons_sep.
      by rewrite <- list_fmap_compose. }
  destruct item as [| b | z | s | l | l]; try done.
  - by rewrite (proj1 (to_display_string_seq str l)), H.
  - by rewrite (proj2 (to_display_string_seq str l)), H.
Qed.
(** ** [merge_java_options] *)

Lemma merge_java_loop_str (opt : string) (rest : list value) (xargs : gset string)
    (ret : list string) :
  merge_java_loop (VStr opt :: rest) xargs ret =
    if is_xopt opt then
      if bool_decide (xsym opt ∈ xargs) then merge_java_loop rest xargs ret
      else merge_java_loop rest ({[xsym opt]} ∪ xargs) (ret ++ [opt])%list
    else merge_java_loop rest xargs (ret ++ [opt])%list.
Proof. reflexivity. Qed.

Lemma filter_cons_bool {A} (f : A → bool) (x : A) (l : list A) :
  List.filter f (x :: l) = if f x then x :: List.filter f l else List.filter f l.
Proof. reflexivity. Qed.

Lemma merge_java_loop_spec (opts : list value) (xargs : gset string)
    (ret r : list string) :
  merge_java_loop opts xargs ret = Ok r →
  ∃ kept, r = (ret ++ kept)%list ∧
    kept `sublist_of` strings opts ∧
    List.filter (λ s, negb (is_xopt s)) kept
      = List.filter (λ s, negb (is_xopt s)) (strings opts) ∧
    NoDup (xsym <$> List.filter is_xopt kept) ∧
    (∀ s, s ∈ kept → is_xopt s = true → xsym s ∉ xargs) ∧
    (∀ s, s ∈ strings opts → is_xopt s = true →
          xsym s ∈ xargs ∨ ∃ s', s' ∈ kept ∧ is_xopt s' = true ∧ xsym s' = xsym s).
Proof.
  revert xargs ret. induction opts as [|opt rest IH]; intros xargs ret.
  - intros [= <-]. exists []. rewrite app_nil_r. repeat split; try done.
    + constructor.
    + by intros s ?%elem_of_nil.
    + by intros s ?%elem_of_nil.
  - destruct opt as [| b | z | opt | l | l]; try done.
    { apply IH. }
    rewrite merge_java_loop_str.
    change (strings (VStr opt :: rest)) with (opt :: strings rest).
    destruct (is_xopt opt) eqn:Hx.
    + case_bool_decide as Hin.
      * intros (kept & -> & Hsub & Hnx & Hnd & Hfresh & Hrep)%IH.
        exists kept. split; [done|]. split; [by apply sublist_cons|].
        rewrite filter_cons_bool, Hx. simpl. split; [done|]. split; [done|].
        split; [done|]. intros s [->|Hs]%elem_of_cons Hsx; [by left|by apply Hrep].
      * intros (kept & -> & Hsub & Hnx & Hnd & Hfresh & Hrep)%IH.
        exists (opt :: kept). rewrite <- app_assoc. split; [done|].
        split; [by apply sublist_skip|]. rewrite !filter_cons_bool, Hx. simpl.
        split; [done|]. split.
        { apply NoDup_cons. split; [|done].
          intros (s & Hs & [Hsk Hsx]%list_elem_of_In%filter_In)%list_elem_of_fmap.
          apply (Hfresh s); [by apply list_elem_of_In|done|]. rewrite <- Hs.
          apply elem_of_union. left. by apply elem_of_singleton. }
        split.
        { intros s [->|Hs]%elem_of_cons Hsx; [done|].
          intros Hxs. apply (Hfresh s Hs Hsx). apply elem_of_union. by right. }
        intros s [->|Hs]%elem_of_cons Hsx.
        { right. exists opt. split; [left|done]. }
        destruct (Hrep s Hs Hsx)
          as [[Heq%elem_of_singleton|?]%elem_of_union|(s' & ? & ? & ?)].
        -- right. exists opt. split; [left|done].
        -- by left.
        -- right. exists s'. split; [by right|done].
    + intros (kept & -> & Hsub & Hnx & Hnd & Hfresh & Hrep)%IH.
      exists (opt :: kept). rewrite <- app_assoc. split; [done|].
      split; [by apply sublist_skip|]. rewrite !filter_cons_bool, Hx. simpl.
      split; [by f_equal|]. split; [done|]. split.
      { intros s [->|Hs]%elem_of_cons Hsx; [congruence|]. by apply Hfresh. }
      intros s [->|Hs]%elem_of_cons Hsx; [congruence|].
      destruct (Hrep s Hs Hsx) as [?|(s' & ? & ? & ?)]; [by left|].
      right. exists s'. split; [by right|done].
Qed.

Lemma merge_java_loop_total (opts : list value) (xargs : gset string)
    (ret : list string) :
  Forall (λ v, is_string v = true) opts →
  ∃ r, merge_java_loop opts xargs ret = Ok r.
Proof.
  intros H. revert xargs ret.
  induction H as [|[| b | z | opt | l | l] rest Hs _ IH]; intros xargs ret;
    try done; [by eexists|].
  rewrite merge_java_loop_str.
  destruct (is_xopt opt); [case_bool_decide|]; apply IH.
Qed.

Lemma merge_java_loop_distinct (kept : list string) (xargs : gset string)
    (ret : list string) :
  NoDup (xsym <$> List.filter is_xopt kept) →
  (∀ s, s ∈ kept → is_xopt s = true → xsym s ∉ xargs) →
  merge_java_loop (VStr <$> kept) xargs ret = Ok (ret ++ kept)%list.
Proof.
  revert xargs ret. induction kept as [|opt kept IH]; intros xargs ret Hnd Hfresh.
  - simpl. by rewrite app_nil_r.
  - rewrite fmap_cons, merge_java_loop_str.
    rewrite filter_cons_bool in Hnd. destruct (is_xopt opt) eqn:Hx.
    + rewrite fmap_cons in Hnd. apply NoDup_cons in Hnd as [Hnew Hnd].
      rewrite bool_decide_eq_false_2 by (apply Hfresh; [left|done]).
      rewrite IH, <- app_assoc; [done|done|].
      intros s Hs Hsx [Heq%elem_of_singleton|Hin]%elem_of_union.
      * apply Hnew. apply list_elem_of_fmap. exists s. split; [done|].
        apply list_elem_of_In, filter_In. split; [by apply list_elem_of_In|done].
      * apply (Hfresh s); [by right|done|done].
    + rewrite IH, <- app_assoc; [done|done|].
      intros s Hs Hsx. apply Hfresh; [by right|done].
Qed.

Lemma existsb_snoc {A} (f : A → bool) (l : list A) (x : A) :
  existsb f (l ++ [x]) = existsb f l || f x.
Proof. rewrite existsb_app. simpl. by rewrite orb_false_r. Qed.

(** The set [xargs] of the loop holds the symbols of the [-X] options
    already passed, so the loop drops exactly the options that repeat a
    symbol. *)
Lemma merge_java_loop_first (opts : list value) (xargs : gset string)
    (ret r pre : list string) :
  (∀ sym, sym ∈ xargs ↔
          existsb (λ t, is_xopt t && String.eqb (xsym t) sym) pre = true) →
  merge_java_loop opts xargs ret = Ok r →
  r = (ret ++ mjoin (imap (λ i s,
                 if repeats (pre ++ strings opts) (List.length pre + i) s
                 then [] else [s]) (strings opts)))%list.
Proof.
  revert xargs ret pre. induction opts as [|opt rest IH]; intros xargs ret pre Hx.
  - intros [= <-]. simpl. by rewrite app_nil_r.
  - destruct opt as [| b | z | opt | l | l]; try done.
    { by apply IH. }
    rewrite merge_java_loop_str.
    change (strings (VStr opt :: rest)) with (opt :: strings rest).
    rewrite imap_cons. cbn [mjoin list_join].
    assert (Hrep : repeats (pre ++ opt :: strings rest) (List.length pre + 0) opt
                   = is_xopt opt && bool_decide (xsym opt ∈ xargs)).
    { unfold repeats. rewrite Nat.add_0_r, take_app_length. f_equal.
      apply eq_true_iff_eq. rewrite bool_decide_eq_true. symmetry. apply Hx. }
    assert (Himap : ∀ xargs' ret',
      (∀ sym, sym ∈ xargs' ↔
         existsb (λ t, is_xopt t && String.eqb (xsym t) sym) (pre ++ [opt]) = true) →
      merge_java_loop rest xargs' ret' = Ok r →
      r = (ret' ++ mjoin (imap ((λ i s,
                 if repeats (pre ++ opt :: strings rest) (List.length pre + i) s
                 then [] else [s]) ∘ S) (strings rest)))%list).
    { intros xargs' ret' Hx' Hr. rewrite (IH xargs' ret' (pre ++ [opt])%list Hx' Hr).
      f_equal. f_equal. apply imap_ext. intros i s _. simpl.
      rewrite <- app_assoc, length_app. simpl.
      by replace (List.length pre + 1 + i)%nat with (List.length pre + S i)%nat by lia. }
    rewrite Hrep. destruct (is_xopt opt) eqn:Hxo; simpl.
    + case_bool_decide as Hin.
      * intros Hr. simpl. apply (Himap xargs ret); [|done].
        intros sym. rewrite existsb_snoc, Hxo, orb_true_iff, <- Hx. simpl.
        split; [by left|]. intros [?|Heq%String.eqb_eq]; [done|by subst].
      * intros Hr. apply Himap in Hr; [rewrite Hr; simpl; by rewrite <- app_assoc|].
        intros sym. rewrite existsb_snoc, Hxo, orb_true_iff, <- Hx. simpl.
        rewrite elem_of_union, elem_of_singleton, String.eqb_eq.
        split; (intros [?|?]; [by right|by left]).
    + intros Hr. apply Himap in Hr; [rewrite Hr; simpl; by rewrite <- app_assoc|].
      intros sym. rewrite existsb_snoc, Hxo. simpl. rewrite orb_false_r. apply Hx.
Qed.

(** X5: [merge_java_options] returns a list when every flattened option
    is a string; the list it returns is the list of the flattened options,
    each at its place, without every [-X] option that follows a [-X]
    option with its symbol: so it keeps options of the input in their
    order, keeps every option that does not start with [-X], holds no two
    [-X] options with the same symbol, and holds for every [-X] option of
    the input one with its symbol, the first of them. *)
Theorem merge_java_options_keeps (opts : list value) :
  (Forall (λ v, is_string v = true) (flatten opts) →
   ∃ r, merge_java_options opts = Ok r) ∧
  ∀ r, merge_java_options opts = Ok r →
    r `sublist_of` strings (flatten opts) ∧
    List.filter (λ s, negb (is_xopt s)) r
      = List.filter (λ s, negb (is_xopt s)) (strings (flatten opts)) ∧
    NoDup (xsym <$> List.filter is_xopt r) ∧
    (∀ s, s ∈ strings (flatten opts) → is_xopt s = true →
          ∃ s', s' ∈ r ∧ is_xopt s' = true ∧ xsym s' = xsym s) ∧
    r = first_of_each_symbol (strings (flatten opts)).
Proof.
  unfold merge_java_options. split; [apply merge_java_loop_total|].
  intros r Hr.
  pose proof (merge_java_loop_first _ ∅ [] r [] (λ sym, conj
    (λ H, False_ind _ (not_elem_of_empty sym H)) (λ H, False_ind _ (diff_false_true H))) Hr) as Hfirst.
  apply merge_java_loop_spec in Hr as (kept & -> & Hsub & Hnx & Hnd & _ & Hrep).
  simpl. split_and!; try done.
  intros s Hs Hsx. destruct (Hrep s Hs Hsx) as [Hin|?]; [|done].
  by apply not_elem_of_empty in Hin.
Qed.

(** X6: merging the options that [merge_java_options] returned returns
    them unchanged. *)
Theorem merge_java_options_idempotent (opts : list value) (r : list string) :
  merge_java_options opts = Ok r →
  merge_java_options (VStr <$> r) = Ok r.
Proof.
  unfold merge_java_options at 1.
  intros (kept & -> & _ & _ & Hnd & _)%merge_java_loop_spec. simpl in *.
  unfold merge_java_options, flatten. rewrite flatten_leaves.
  - apply (merge_java_loop_distinct kept ∅ []); [done|].
    intros s _ _. apply not_elem_of_empty.
  - apply Forall_fmap, Forall_forall. done.
Qed.

(** ** [normalize_list] *)

Lemma normalize_loop_take (items : list value) (w : nat) (output : list value) :
  (List.length output ≤ w)%nat →
  normalize_loop items w output
    = (output ++ take (w - List.length output) items)%list.
Proof.
  revert output. induction items as [|item rest IH]; intros output Hlen; simpl.
  - by rewrite take_nil, app_nil_r.
  - destruct (Nat.eqb_spec (List.length output) w) as [->|Hne].
    + by rewrite Nat.sub_diag, app_nil_r.
    + rewrite IH by (rewrite length_app; simpl; lia).
      rewrite length_app. simpl. rewrite <- app_assoc. simpl.
      replace (w - List.length output)%nat
        with (S (w - (List.length output + 1)))%nat by lia.
      done.
Qed.

(** X7: when [items] holds at least [width] items, [normalize_list] returns
    the first [width] of them, whatever the filler; a negative width fails
    the assertion. *)
Theorem normalize_list_truncates (items : list value) (width : Z) (filler : value) :
  ((width < 0)%Z → normalize_list items width filler = Throws AssertionError) ∧
  ((0 ≤ width)%Z → (Z.to_nat width ≤ List.length items)%nat →
   normalize_list items width filler = Returns (take (Z.to_nat width) items)).
Proof.
  unfold normalize_list. split.
  - intros H. by rewrite bool_decide_eq_true_2.
  - intros H0 Hlen. rewrite bool_decide_eq_false_2 by lia. simpl.
    rewrite normalize_loop_take by (simpl; lia). simpl. rewrite Nat.sub_0_r.
    rewrite length_take. by rewrite (proj2 (Nat.ltb_ge _ _)) by lia.
Qed.

(** X8: when [items] holds fewer than [width] items, [normalize_list] adds
    to them what the list [filler * missing] holds: the items of a list or
    tuple filler repeated [missing] times, so exactly up to [width] for a
    filler of one item, and the characters of a string filler, so nothing
    for the empty string; with the default filler [None] it raises
    [TypeError]. *)
Theorem normalize_list_fills (items : list value) (width : nat) (filler : value) :
  (List.length items < width)%nat →
  let missing := (width - List.length items)%nat in
  normalize_list items (Z.of_nat width) filler =
    match filler with
    | VNone =>
        Throws (Exn (TypeError "unsupported operand type(s) for *: 'NoneType' and 'int'"))
    | VBool _ | VInt _ => Throws (Exn (TypeError "'int' object is not iterable"))
    | VStr s =>
        Returns (items ++ ((λ c, VStr (String c EmptyString))
                             <$> list_ascii_of_string (str_repeat s missing)))%list
    | VList f | VTuple f => Returns (items ++ mjoin (replicate missing f))%list
    end.
Proof.
  intros Hlen missing. unfold normalize_list.
  rewrite bool_decide_eq_false_2 by lia. simpl. rewrite Nat2Z.id.
  rewrite normalize_loop_take by (simpl; lia). simpl. rewrite Nat.sub_0_r.
  rewrite take_ge by lia. rewrite (proj2 (Nat.ltb_lt _ _)) by lia.
  by destruct filler.
Qed.

Lemma normalize_list_fills_witness :
  normalize_list [VInt 1] 3 VNone
    = Throws (Exn (TypeError "unsupported operand type(s) for *: 'NoneType' and 'int'")) ∧
  normalize_list [VInt 1] 3 (VList [VNone]) = Returns [VInt 1; VNone; VNone] ∧
  normalize_list [VInt 1] 3 (VStr "") = Returns [VInt 1].
Proof.
  split; [|split].
  - apply (normalize_list_fills [VInt 1] 3 VNone). simpl. lia.
  - apply (normalize_list_fills [VInt 1] 3 (VList [VNone])). simpl. lia.
  - apply (normalize_list_fills [VInt 1] 3 (VStr "")). simpl. lia.
Defined.
(** ** [format_table] *)

Lemma widen_nil_r (widths : list nat) : widen widths [] = widths.
Proof. by destruct widths. Qed.

Lemma widen_length (a b : list nat) :
  List.length (widen a b) = Nat.max (List.length a) (List.length b).
Proof.
  revert b. induction a as [|x a IH]; intros [|y b]; simpl; try done.
  by rewrite IH.
Qed.

Lemma widen_lookup_l (a b : list nat) (j x : nat) :
  a !! j = Some x → ∃ w, widen a b !! j = Some w ∧ (x ≤ w)%nat.
Proof.
  revert b j. induction a as [|y a IH]; intros [|z b] [|j] H; simplify_eq/=;
    try (eexists; split; [done|lia]).
  by apply IH.
Qed.

Lemma widen_lookup_r (a b : list nat) (j x : nat) :
  b !! j = Some x → ∃ w, widen a b !! j = Some w ∧ (x ≤ w)%nat.
Proof.
  revert b j. induction a as [|y a IH]; intros [|z b] [|j] H; simplify_eq/=;
    try (eexists; split; [done|lia]).
  by apply IH.
Qed.

Lemma widen_lookup_inv (a b : list nat) (j w : nat) :
  widen a b !! j = Some w → a !! j = Some w ∨ b !! j = Some w.
Proof.
  revert b j. induction a as [|y a IH]; intros [|z b] [|j] H; simplify_eq/=;
    auto.
  destruct (Nat.max_spec y z) as [[_ ->]|[_ ->]]; auto.
Qed.

Lemma cell_lengths_length (str : value → string) (row : list value) :
  List.length (cell_lengths str row) = List.length row.
Proof. unfold cell_lengths. apply length_fmap. Qed.

Lemma measure_row_spec (str : value → string) (row : list value) (i : nat)
    (widths : list nat) :
  (i ≤ List.length widths)%nat →
  measure_row str row i widths
    = Returns (take i widths ++ widen (drop i widths) (cell_lengths str row))%list.
Proof.
  revert i widths. induction row as [|column rest IH]; intros i widths Hi; simpl.
  - by rewrite widen_nil_r, take_drop.
  - destruct (Nat.eqb_spec (List.length widths) i) as [<-|Hne]; simpl.
    + rewrite IH by (rewrite length_app; simpl; lia).
      rewrite drop_all, firstn_all. simpl.
      replace (S (List.length widths))
        with (List.length (widths ++ [String.length (str column)])%list)
        by (rewrite length_app; simpl; lia).
      rewrite drop_all, firstn_all. simpl. by rewrite <- app_assoc.
    + destruct (lookup_lt_is_Some_2 widths i) as [w Hw]; [lia|].
      rewrite Hw. simpl. rewrite IH by (rewrite length_insert; lia).
      rewrite (drop_S widths w i Hw). simpl.
      rewrite drop_insert_lt by lia.
      erewrite take_S_r by (apply list_lookup_insert_eq; lia).
      rewrite take_insert_ge by lia. rewrite <- !app_assoc. done.
Qed.

Lemma measure_rows_spec (str : value → string) (rows : list (list value))
    (widths : list nat) :
  measure_rows str rows widths
    = Returns (foldl widen widths (cell_lengths str <$> rows)).
Proof.
  revert widths. induction rows as [|row rest IH]; intros widths; simpl; [done|].
  rewrite measure_row_spec by lia. simpl. rewrite drop_0. apply IH.
Qed.

Lemma foldl_widen_grows (lens : list (list nat)) (widths : list nat) (j x : nat) :
  widths !! j = Some x →
  ∃ w, foldl widen widths lens !! j = Some w ∧ (x ≤ w)%nat.
Proof.
  revert widths x. induction lens as [|l lens IH]; intros widths x Hx; simpl.
  - exists x. split; [done|lia].
  - destruct (widen_lookup_l widths l j x Hx) as (w1 & Hw1 & Hle1).
    destruct (IH _ _ Hw1) as (w & Hw & Hle). exists w. split; [done|lia].
Qed.

Lemma foldl_widen_fits (lens : list (list nat)) (widths l : list nat) (j x : nat) :
  l ∈ lens → l !! j = Some x →
  ∃ w, foldl widen widths lens !! j = Some w ∧ (x ≤ w)%nat.
Proof.
  revert widths. induction lens as [|l0 lens IH]; intros widths Hl Hx.
  - by apply elem_of_nil in Hl.
  - apply elem_of_cons in Hl as [->|Hl]; simpl; [|by apply IH].
    destruct (widen_lookup_r widths l0 j x Hx) as (w1 & Hw1 & Hle1).
    destruct (foldl_widen_grows lens _ j w1 Hw1) as (w & Hw & Hle).
    exists w. split; [done|lia].
Qed.

Lemma foldl_widen_attained (lens : list (list nat)) (widths : list nat) (j w : nat) :
  foldl widen widths lens !! j = Some w →
  widths !! j = Some w ∨ ∃ l, l ∈ lens ∧ l !! j = Some w.
Proof.
  revert widths. induction lens as [|l0 lens IH]; intros widths; simpl; [by left|].
  intros [[?|?]%widen_lookup_inv|(l & ? & ?)]%IH.
  - by left.
  - right. exists l0. split; [left|done].
  - right. exists l. split; [by right|done].
Qed.

Lemma foldl_widen_length (lens : list (list nat)) (widths : list nat) :
  (List.length widths ≤ List.length (foldl widen widths lens))%nat ∧
  (∀ l, l ∈ lens → (List.length l ≤ List.length (foldl widen widths lens))%nat) ∧
  (∀ n, (List.length widths ≤ n)%nat → Forall (λ l, (List.length l ≤ n)%nat) lens →
        (List.length (foldl widen widths lens) ≤ n)%nat).
Proof.
  revert widths. induction lens as [|l0 lens IH]; intros widths; simpl.
  - split; [done|]. split; [by intros l ?%elem_of_nil|]. done.
  - destruct (IH (widen widths l0)) as (Hge & Hall & Hle).
    rewrite widen_length in Hge. split; [lia|]. split.
    + intros l [->|Hl]%elem_of_cons; [lia|by apply Hall].
    + intros n Hn [Hl0 Hlens]%Forall_cons. apply Hle; [|done].
      rewrite widen_length. lia.
Qed.

Lemma str_length_app (s t : string) :
  String.length (s +:+ t) = (String.length s + String.length t)%nat.
Proof. induction s as [|c s IH]; [done|]. rewrite app_cons. simpl. by rewrite IH. Qed.

Lemma str_repeat_length (s : string) (n : nat) :
  String.length (str_repeat s n) = (n * String.length s)%nat.
Proof. induction n as [|n IH]; [done|]. simpl. by rewrite str_length_app, IH. Qed.

Lemma str_repeat_empty (n : nat) : str_repeat "" n = "".
Proof. induction n as [|n IH]; [done|]. simpl. by rewrite IH. Qed.

Lemma ljust_length (w : nat) (s : string) :
  (String.length s ≤ w)%nat → String.length (ljust w s) = w.
Proof.
  intros H. unfold ljust. rewrite str_length_app, str_repeat_length. simpl. lia.
Qed.

Lemma concat_empty_length (l : list string) :
  String.length (String.concat "" l) = sum_list (String.length <$> l).
Proof.
  induction l as [|x l IH]; [done|].
  rewrite concat_empty_cons, str_length_app, IH. done.
Qed.

Lemma table_cells_length (str : value → string) (sep : string) (widths : list nat)
    (row : list value) :
  List.length row = List.length widths →
  (∀ j cell w, row !! j = Some cell → widths !! j = Some w →
               (String.length (str cell) ≤ w)%nat) →
  sum_list (String.length <$>
              ((λ y, sep +:+ y) <$> zip_with (λ w a, ljust w (str a)) widths row))
    = (sum_list widths + String.length sep * List.length widths)%nat.
Proof.
  revert row. induction widths as [|w widths IH]; intros [|a row] Hlen Hfit;
    try done; [csimpl; lia|].
  simpl in Hlen. apply Nat.succ_inj in Hlen. csimpl.
  rewrite str_length_app, ljust_length by (by apply (Hfit 0)).
  rewrite IH; [lia|done|]. intros j. apply (Hfit (S j)).
Qed.

Lemma table_line_length (str : value → string) (widths : list nat)
    (row : list value) :
  List.length row = List.length widths →
  (∀ j cell w, row !! j = Some cell → widths !! j = Some w →
               (String.length (str cell) ≤ w)%nat) →
  String.length (table_line str widths row)
    = (sum_list widths + 2 * (List.length widths - 1))%nat.
Proof.
  unfold table_line. destruct widths as [|w widths]; intros Hlen Hfit;
    destruct row as [|a row]; try done.
  simpl in Hlen. apply Nat.succ_inj in Hlen. cbn [zip_with].
  rewrite concat_cons_sep, str_length_app, concat_empty_length.
  rewrite ljust_length by (by apply (Hfit 0)).
  rewrite table_cells_length; [simpl; lia|done|]. intros j. apply (Hfit (S j)).
Qed.

Lemma normalize_list_row (row : list value) (n : nat) :
  (List.length row ≤ n)%nat →
  normalize_list row (Z.of_nat n) (VStr "") = Returns row.
Proof.
  intros Hlen. unfold normalize_list.
  rewrite bool_decide_eq_false_2 by lia. simpl. rewrite Nat2Z.id.
  rewrite normalize_loop_take by (simpl; lia). simpl.
  rewrite Nat.sub_0_r, take_ge by lia.
  destruct (Nat.ltb_spec (List.length row) n); [|done]. simpl.
  rewrite str_repeat_empty. simpl. by rewrite app_nil_r.
Qed.

Lemma format_rows_equal (str : value → string) (widths : list nat)
    (rows : list (list value)) :
  Forall (λ row, List.length row = List.length widths) rows →
  format_rows str widths rows = Returns (table_line str widths <$> rows).
Proof.
  induction 1 as [|row rest Hrow _ IH]; simpl; [done|].
  rewrite normalize_list_row by lia. simpl. unfold format_cells.
  rewrite Hrow, Nat.ltb_irrefl. simpl. by rewrite IH.
Qed.

Lemma format_rows_short (str : value → string) (widths : list nat)
    (rows : list (list value)) :
  Forall (λ row, (List.length row ≤ List.length widths)%nat) rows →
  Exists (λ row, (List.length row < List.length widths)%nat) rows →
  format_rows str widths rows
    = Throws (Exn (TypeError "not enough arguments for format string")).
Proof.
  induction 1 as [|row rest Hrow _ IH]; intros Hex; [by apply Exists_nil in Hex|].
  simpl. rewrite normalize_list_row by lia. simpl. unfold format_cells.
  destruct (Nat.ltb_spec (List.length row) (List.length widths)) as [Hlt|Hge].
  - done.
  - rewrite (proj2 (Nat.ltb_ge _ _)) by lia. simpl.
    apply Exists_cons in Hex as [?|Hex]; [lia|]. by rewrite IH.
Qed.

(** X9: without headings, for rows that all hold the same number [n] of
    cells, [format_table] returns the caption line followed by one line per
    row, in which every cell is padded on the right to the width of its
    column, with two spaces between columns; the width of a column is the
    length of its longest cell, so all the lines of the rows have the same
    length. *)
Theorem format_table_aligned (str : value → string) (caption : option string)
    (rows : list (list value)) (n : nat) :
  Forall (λ row, List.length row = n) rows →
  ∃ widths,
    format_table str caption [] rows
      = Returns (join_lines (caption_lines caption ++ (table_line str widths <$> rows))) ∧
    (rows ≠ [] → List.length widths = n) ∧
    (∀ row j cell, row ∈ rows → row !! j = Some cell →
       ∃ w, widths !! j = Some w ∧ (String.length (str cell) ≤ w)%nat) ∧
    (∀ j w, widths !! j = Some w →
       ∃ row cell, row ∈ rows ∧ row !! j = Some cell ∧ String.length (str cell) = w) ∧
    (∀ row, row ∈ rows →
       String.length (table_line str widths row)
         = (sum_list widths + 2 * (n - 1))%nat).
Proof.
  intros Hrows.
  set (widths := foldl widen [] (cell_lengths str <$> rows)).
  assert (Hfit : ∀ row j cell, row ∈ rows → row !! j = Some cell →
            ∃ w, widths !! j = Some w ∧ (String.length (str cell) ≤ w)%nat).
  { intros row j cell Hrow Hcell.
    apply (foldl_widen_fits _ [] (cell_lengths str row)).
    - apply list_elem_of_fmap. by exists row.
    - unfold cell_lengths. by rewrite list_lookup_fmap, Hcell. }
  assert (Hlen : rows ≠ [] → List.length widths = n).
  { intros Hne. destruct (foldl_widen_length (cell_lengths str <$> rows) [])
      as (_ & Hge & Hle).
    apply Nat.le_antisymm.
    - apply Hle; [simpl; lia|]. apply Forall_fmap.
      eapply Forall_impl; [exact Hrows|]. intros row Hrow. simpl in *.
      unfold cell_lengths. rewrite length_fmap. lia.
    - destruct rows as [|row rest]; [done|].
      apply Forall_cons in Hrows as [<- _].
      rewrite <- (cell_lengths_length str row). apply Hge. left. }
  exists widths. split; [|split; [done|split; [done|split]]].
  - unfold format_table. rewrite measure_rows_spec. simpl. fold widths.
    rewrite format_rows_equal; [done|].
    destruct rows as [|row rest]; [constructor|].
    rewrite Hlen by done. done.
  - intros j w [Hw|(l & (row & -> & Hrow)%list_elem_of_fmap & Hl)]%foldl_widen_attained;
      [done|].
    unfold cell_lengths in Hl. rewrite list_lookup_fmap in Hl.
    destruct (row !! j) as [cell|] eqn:Hcell; [|done].
    exists row, cell. split; [done|]. split; [done|]. by injection Hl.
  - intros row Hrow.
    assert (Hn : List.length widths = n) by (apply Hlen; by intros ->; apply elem_of_nil in Hrow).
    rewrite <- Hn. apply table_line_length.
    + rewrite Hn. by apply (proj1 (Forall_forall _ _) Hrows).
    + intros j cell w Hcell Hw. destruct (Hfit row j cell Hrow Hcell) as (w' & Hw' & ?).
      congruence.
Qed.

(** X10: [format_table] raises instead of formatting in two cases: with
    headings it raises [IndexError], whatever the caption and the rows; and
    without headings, when one row holds fewer cells than another, it
    raises the [TypeError] of a format string with too few arguments. *)
Theorem format_table_raises (str : value → string) (caption : option string)
    (headings : list value) (rows : list (list value)) :
  (headings ≠ [] →
   format_table str caption headings rows
     = Throws (Exn (IndexError "list assignment index out of range"))) ∧
  (∀ row row', row ∈ rows → row' ∈ rows →
     (List.length row < List.length row')%nat →
     format_table str caption [] rows
       = Throws (Exn (TypeError "not enough arguments for format string"))).
Proof.
  split.
  - intros Hne. by destruct headings.
  - intros row row' Hrow Hrow' Hlt.
    unfold format_table. rewrite measure_rows_spec. simpl.
    destruct (foldl_widen_length (cell_lengths str <$> rows) []) as (_ & Hge & _).
    assert (Hle : ∀ r, r ∈ rows →
              (List.length r ≤ List.length (foldl widen [] (cell_lengths str <$> rows)))%nat).
    { intros r Hr. rewrite <- (cell_lengths_length str r).
      apply Hge, list_elem_of_fmap. by exists r. }
    rewrite format_rows_short; [done| |].
    + apply Forall_forall. exact Hle.
    + apply Exists_exists. exists row. split; [done|].
      specialize (Hle row' Hrow'). lia.
Qed.

Lemma merge_java_options_keeps_witness :
  merge_java_options [VStr "-Xmx1g"; VList [VStr "-ea"; VNone; VStr "-Xmx2g"]]
    = Ok ["-Xmx1g"; "-ea"].
Proof.
  destruct (merge_java_options_keeps
              [VStr "-Xmx1g"; VList [VStr "-ea"; VNone; VStr "-Xmx2g"]])
    as [Htotal Hkeeps].
  destruct Htotal as [r Hr]; [by repeat constructor|].
  rewrite Hr. f_equal.
  destruct (Hkeeps r Hr) as (_ & _ & _ & _ & Hfirst).
  rewrite Hfirst. vm_compute. reflexivity.
Defined.

Lemma merge_java_options_idempotent_witness :
  merge_java_options (VStr <$> ["-Xmx1g"; "-ea"]) = Ok ["-Xmx1g"; "-ea"].
Proof.
  apply (merge_java_options_idempotent
           [VStr "-Xmx1g"; VList [VStr "-ea"; VNone; VStr "-Xmx2g"]]).
  reflexivity.
Defined.

Lemma normalize_list_truncates_witness :
  normalize_list [VInt 1; VInt 2; VInt 3] 2 VNone = Returns [VInt 1; VInt 2] ∧
  normalize_list [VInt 1] (-1) VNone = Throws AssertionError.
Proof.
  split.
  - apply (normalize_list_truncates [VInt 1; VInt 2; VInt 3] 2 VNone); [lia|simpl; lia].
  - apply (normalize_list_truncates [VInt 1] (-1) VNone). lia.
Defined.

Lemma format_table_aligned_witness :
  ∃ widths,
    format_table py_str (Some "t") [] [[VStr "a"; VInt 10]; [VStr "bcd"; VInt 7]]
      = Returns (join_lines
                   (caption_lines (Some "t")
                      ++ (table_line py_str widths
                            <$> [[VStr "a"; VInt 10]; [VStr "bcd"; VInt 7]]))) ∧
    List.length widths = 2.
Proof.
  destruct (format_table_aligned py_str (Some "t")
              [[VStr "a"; VInt 10]; [VStr "bcd"; VInt 7]] 2)
    as (widths & Hret & Hlen & _).
  - by repeat constructor.
  - exists widths. split; [exact Hret|]. by apply Hlen.
Defined.

Lemma format_table_raises_witness :
  format_table py_str None [VStr "h"] []
    = Throws (Exn (IndexError "list assignment index out of range")) ∧
  format_table py_str None [] [[VStr "a"]; [VStr "b"; VStr "c"]]
    = Throws (Exn (TypeError "not enough arguments for format string")).
Proof.
  split.
  - by apply (format_table_raises py_str None [VStr "h"] []).
  - apply (proj2 (format_table_raises py_str None [] [[VStr "a"]; [VStr "b"; VStr "c"]])
             [VStr "a"] [VStr "b"; VStr "c"]).
    + by left.
    + right. by left.
    + simpl. lia.
Defined.

(** ** [parse_hosts] *)

Lemma app_empty_l (s : string) : "" +:+ s = s.
Proof. reflexivity. Qed.

Lemma str_split_cons (sep : ascii) (s : string) :
  ∃ piece pieces, str_split sep s = piece :: pieces.
Proof.
  induction s as [|c s (piece & pieces & IH)]; simpl; [by eauto|].
  destruct (Ascii.eqb c sep); [by eauto|]. rewrite IH. eauto.
Qed.

Lemma str_split_length (sep : ascii) (s : string) :
  List.length (str_split sep s) = S (count_char sep s).
Proof.
  induction s as [|c s IH]; [done|]. simpl.
  destruct (str_split_cons sep s) as (piece & pieces & Hs).
  rewrite Hs in *. destruct (Ascii.eqb c sep); simpl in *; lia.
Qed.

Lemma str_split_join (sep : ascii) (s : string) :
  String.concat (String sep "") (str_split sep s) = s.
Proof.
  induction s as [|c s IH]; [done|]. simpl.
  destruct (str_split_cons sep s) as (piece & pieces & Hs). rewrite Hs in *.
  destruct (Ascii.eqb_spec c sep) as [->|Hc].
  - change (String.concat (String sep "") ("" :: piece :: pieces))
      with ("" +:+ String sep "" +:+ String.concat (String sep "") (piece :: pieces)).
    by rewrite IH.
  - destruct pieces as [|piece' pieces].
    + simpl in *. by rewrite IH.
    + change (String.concat (String sep "") (String c piece :: piece' :: pieces))
        with (String c piece +:+ String sep ""
                +:+ String.concat (String sep "") (piece' :: pieces)).
      rewrite app_cons. f_equal. exact IH.
Qed.

Lemma str_split_count (sep c : ascii) (s : string) :
  (c = sep ∨ count_char c s = 0) →
  Forall (λ piece, count_char c piece = 0) (str_split sep s).
Proof.
  induction s as [|a s IH]; intros Hc; [by repeat constructor|]. simpl.
  destruct (str_split_cons sep s) as (piece & pieces & Hs). rewrite Hs in *.
  assert (Hc' : c = sep ∨ count_char c s = 0).
  { destruct Hc as [->|Hc]; [by left|]. right. simpl in Hc. lia. }
  specialize (IH Hc'). apply Forall_cons in IH as [Hp Hps].
  destruct (Ascii.eqb_spec a sep) as [->|Ha].
  - constructor; [done|]. by constructor.
  - constructor; [|done]. simpl. rewrite Hp.
    destruct (Ascii.eqb_spec a c) as [->|]; [|done].
    destruct Hc as [->|Hc]; [done|]. simpl in Hc. rewrite Ascii.eqb_refl in Hc. lia.
Qed.

Lemma str_split_none (sep : ascii) (s : string) :
  count_char sep s = 0 → str_split sep s = [s].
Proof.
  induction s as [|a s IH]; [done|]. simpl.
  destruct (Ascii.eqb_spec a sep) as [->|Ha]; [lia|].
  intros Hc. by rewrite IH.
Qed.

Lemma str_split_app (sep : ascii) (a b : string) :
  count_char sep a = 0 → str_split sep (a +:+ String sep b) = a :: str_split sep b.
Proof.
  induction a as [|c a IH].
  - intros _. rewrite app_empty_l. simpl. by rewrite Ascii.eqb_refl.
  - rewrite app_cons. simpl.
    destruct (Ascii.eqb_spec c sep) as [->|Hc]; [lia|]. intros Ha.
    by rewrite IH.
Qed.

Lemma parse_host_port_ok (int : string → option Z) (default_port : option Z)
    (piece : string) (h : Host) :
  parse_host_port int default_port piece = Ok h →
  stands_for int default_port piece h.
Proof.
  unfold parse_host_port, stands_for.
  pose proof (str_split_join ":" piece) as Hjoin.
  pose proof (str_split_count ":" ":" piece (or_introl eq_refl)) as Hno.
  destruct (str_split_cons ":" piece) as (a & l & Hs). rewrite Hs in *.
  destruct l as [|b [|c l]]; simpl.
  - simpl in Hjoin. subst a. apply Forall_cons in Hno as [Ha _].
    unfold port_of_default.
    destruct default_port as [p|]; [destruct (Z.eqb p 0)|];
      intros [= <-]; simpl; (split; [done|by left]).
  - apply Forall_cons in Hno as [Ha Hb]. apply Forall_cons in Hb as [Hb _].
    destruct (int b) as [p|] eqn:Hint; [|discriminate].
    intros [= <-]. simpl. split; [done|]. right. exists b, p.
    by rewrite <- Hjoin.
  - discriminate.
Qed.

Lemma parse_host_port_well_formed (int : string → option Z)
    (default_port : option Z) (piece : string) :
  well_formed int piece ↔ ∃ h, parse_host_port int default_port piece = Ok h.
Proof.
  split.
  - intros [Hc|(name & text & -> & Hn & Ht & [p Hp])]; unfold parse_host_port.
    + rewrite (str_split_none _ _ Hc). simpl.
      destruct default_port as [p|]; [destruct (Z.eqb p 0)|]; eauto.
    + change (name +:+ ":" +:+ text) with (name +:+ String ":" text).
      rewrite (str_split_app _ _ _ Hn), (str_split_none _ _ Ht). simpl.
      rewrite Hp. eauto.
  - intros [h [Hh [[-> _]|(text & p & -> & Ht & Hp & _)]]%parse_host_port_ok].
    + by left.
    + right. exists (host h), text. by rewrite Hp.
Qed.

Lemma parse_host_port_exit (int : string → option Z) (default_port : option Z)
    (piece : string) (e : exn) :
  parse_host_port int default_port piece = Raise e → ∃ msgs, e = SystemExit msgs.
Proof.
  unfold parse_host_port.
  destruct (Nat.ltb _ _); [intros [= <-]; eauto|].
  destruct (Nat.eqb _ _).
  - destruct default_port as [p|]; [destruct (Z.eqb p 0)|]; discriminate.
  - destruct (int _); [discriminate|]. intros [= <-]. eauto.
Qed.

Lemma parse_hosts_loop_ok (int : string → option Z) (default_port : option Z)
    (pieces : list string) (acc hosts : list Host) :
  parse_hosts_loop int default_port pieces acc = Ok hosts ↔
  ∃ hs, hosts = (acc ++ hs)%list ∧
        Forall2 (λ piece h, parse_host_port int default_port piece = Ok h) pieces hs.
Proof.
  revert acc. induction pieces as [|piece pieces IH]; intros acc; simpl.
  - split.
    + intros [= <-]. exists []. by rewrite app_nil_r.
    + intros (hs & -> & ->%Forall2_nil_inv_l). by rewrite app_nil_r.
  - destruct (parse_host_port int default_port piece) as [h|e] eqn:Hp; simpl.
    + rewrite IH. split.
      * intros (hs & -> & Hall). exists (h :: hs).
        rewrite <- app_assoc. split; [done|]. by constructor.
      * intros (hs & -> & (h' & hs' & Hh & Hall & ->)%Forall2_cons_inv_l).
        exists hs'. rewrite <- app_assoc. split; [|done].
        by replace h' with h by congruence.
    + split; [discriminate|].
      intros (hs & _ & (h' & hs' & Hh & _)%Forall2_cons_inv_l). congruence.
Qed.

Lemma parse_hosts_loop_exit (int : string → option Z) (default_port : option Z)
    (pieces : list string) (acc : list Host) (e : exn) :
  parse_hosts_loop int default_port pieces acc = Raise e → ∃ msgs, e = SystemExit msgs.
Proof.
  revert acc. induction pieces as [|piece pieces IH]; intros acc; simpl; [done|].
  destruct (parse_host_port int default_port piece) as [h|e'] eqn:Hp; simpl.
  - apply IH.
  - intros [= <-]. by eapply parse_host_port_exit.
Qed.

(** X11: when [parse_hosts] returns, the host string is the hosts' texts
    joined by commas, in order: each text is the name of its host alone
    (the port is then the default port, or none when the default is
    missing or zero) or the name, a colon and a text that [int] reads as
    the port.  There is one host more than there are commas, and no name
    holds a comma or a colon. *)
Theorem parse_hosts_pieces (int : string → option Z) (host_string : string)
    (min_hosts max_hosts default_port : option Z) (hosts : list Host) :
  parse_hosts int host_string min_hosts max_hosts default_port = Ok hosts →
  (∃ pieces, host_string = String.concat "," pieces ∧
             Forall2 (stands_for int default_port) pieces hosts) ∧
  List.length hosts = S (count_char "," host_string) ∧
  Forall (λ h, count_char "," (host h) = 0 ∧ count_char ":" (host h) = 0) hosts.
Proof.
  unfold parse_hosts.
  destruct (parse_hosts_loop _ _ _ _) as [hs|e] eqn:Hloop; [|discriminate]. simpl.
  destruct (match min_hosts with Some _ => _ | None => _ end); [discriminate|].
  destruct (match max_hosts with Some _ => _ | None => _ end); [discriminate|].
  intros [= <-]. apply parse_hosts_loop_ok in Hloop as (hs' & -> & Hall).
  simpl. assert (Hlen := Forall2_length _ _ _ Hall).
  rewrite str_split_length in Hlen.
  pose proof (str_split_count "," "," host_string (or_introl eq_refl)) as Hno.
  split; [|split; [done|]].
  - exists (str_split "," host_string). split; [by rewrite str_split_join|].
    eapply Forall2_impl; [exact Hall|]. intros piece h. apply parse_host_port_ok.
  - clear Hlen. induction Hall as [|piece h pieces hs'' Hh Hall IH]; [done|].
    apply Forall_cons in Hno as [Hp Hps]. constructor; [|by apply IH].
    apply parse_host_port_ok in Hh as [Hc [[Heq _]|(text & p & Heq & _)]];
      (split; [|done]); rewrite Heq in Hp; [done|].
    clear -Hp. induction (host h) as [|c s IH]; [done|].
    rewrite app_cons in Hp. simpl in *.
    destruct (Ascii.eqb c ","); [done|]. by apply IH.
Qed.

(** X12: [parse_hosts] returns exactly when every piece between the commas
    of the host string has at most one colon, with a text after it that
    [int] reads, and the number of hosts is at least [min_hosts] and at
    least [max_hosts], each where given: the test of [max_hosts] stops the
    host strings with fewer hosts than the maximum and lets every longer
    one pass.  When it does not return it leaves by [abort]. *)
Theorem parse_hosts_returns_iff (int : string → option Z) (host_string : string)
    (min_hosts max_hosts default_port : option Z) :
  let n := Z.of_nat (S (count_char "," host_string)) in
  ((∃ hosts, parse_hosts int host_string min_hosts max_hosts default_port = Ok hosts) ↔
   Forall (well_formed int) (str_split "," host_string) ∧
   (∀ m, min_hosts = Some m → (m ≤ n)%Z) ∧
   (∀ m, max_hosts = Some m → (m ≤ n)%Z)) ∧
  ∀ e, parse_hosts int host_string min_hosts max_hosts default_port = Raise e →
       ∃ msgs, e = SystemExit msgs.
Proof.
  intros n. unfold parse_hosts.
  destruct (parse_hosts_loop _ _ _ _) as [hs|e] eqn:Hloop; simpl.
  - pose proof Hloop as (hs' & -> & Hall)%parse_hosts_loop_ok. simpl in *.
    assert (Hn : Z.of_nat (List.length hs') = n).
    { unfold n. by rewrite <- (Forall2_length _ _ _ Hall), str_split_length. }
    rewrite Hn.
    assert (Hwf : Forall (well_formed int) (str_split "," host_string)).
    { clear -Hall. induction Hall; constructor; [|done].
      apply (parse_host_port_well_formed int default_port). eauto. }
    split.
    + split.
      * intros [hosts Hret]. split; [done|].
        destruct min_hosts as [m|], max_hosts as [m'|];
          repeat match type of Hret with
                 | context [Z.ltb ?a ?b] => destruct (Z.ltb_spec a b)
                 end; try discriminate Hret;
          (split; intros ? [= <-]; lia).
      * intros (_ & Hmin & Hmax).
        destruct min_hosts as [m|]; [specialize (Hmin m eq_refl)|];
          (destruct max_hosts as [m'|]; [specialize (Hmax m' eq_refl)|]);
          repeat match goal with
                 | |- context [Z.ltb ?a ?b] => destruct (Z.ltb_spec a b)
                 end; try lia; eauto.
    + intros e.
      destruct (match min_hosts with Some _ => _ | None => _ end);
        [intros [= <-]; eauto|].
      destruct (match max_hosts with Some _ => _ | None => _ end);
        [intros [= <-]; eauto|]. discriminate.
  - split.
    + split; [intros [? [=]]|]. intros (Hwf & _). exfalso.
      assert (∃ hs, Forall2 (λ piece h, parse_host_port int default_port piece = Ok h)
                      (str_split "," host_string) hs) as [hs Hall].
      { clear -Hwf. induction Hwf as [|piece pieces Hp _ [hs IH]]; [by exists []|].
        apply (parse_host_port_well_formed int default_port) in Hp as [h Hh].
        exists (h :: hs). by constructor. }
      assert (parse_hosts_loop int default_port (str_split "," host_string) [] = Ok hs)
        as Hok by (apply parse_hosts_loop_ok; eauto).
      congruence.
    + intros e' [= <-]. by eapply parse_hosts_loop_exit.
Qed.


Lemma parse_hosts_pieces_witness :
  ∃ pieces,
    "a:1,b" = String.concat "," pieces ∧
    Forall2 (stands_for (λ s, if String.eqb s "1" then Some 1%Z else None) (Some 21212%Z))
      pieces [mkHost "a" (Some 1%Z); mkHost "b" (Some 21212%Z)].
Proof.
  apply (parse_hosts_pieces (λ s, if String.eqb s "1" then Some 1%Z else None)
           "a:1,b" None None (Some 21212%Z)).
  reflexivity.
Defined.

(** ** [find_in_path] *)

Lemma find_in_dirs_first (w : world) (name : string) (path_dirs : list string) :
  match find_in_dirs w name path_dirs with
  | Some found =>
      ∃ before dir after,
        path_dirs = (before ++ dir :: after)%list ∧
        Forall (misses w name) before ∧
        found = os_path_join dir name ∧ path_exists w found = true
  | None => Forall (misses w name) path_dirs
  end.
Proof.
  induction path_dirs as [|dir rest IH]; simpl; [by constructor|].
  destruct (path_exists w (os_path_join dir name)) eqn:Hex.
  - exists [], dir, rest. by repeat split.
  - destruct (find_in_dirs w name rest) as [found|].
    + destruct IH as (before & dir' & after & -> & Hb & -> & Hf).
      exists (dir :: before), dir', after. repeat split; [|done]. by constructor.
    + by constructor.
Qed.

(** X13: [find_in_path] raises [KeyError] when the environment has no
    [PATH].  Otherwise it returns the name joined to the first directory of
    [PATH], in the order written, under which the name exists, and [None]
    when it exists under none of them. *)
Theorem find_in_path_first (environ : gmap string string) (w : world)
    (name : string) :
  match environ !! "PATH" with
  | None => find_in_path environ w name = Raise (KeyError "PATH")
  | Some path_ =>
      ∃ answer, find_in_path environ w name = Ok answer ∧
        match answer with
        | Some found =>
            ∃ before dir after,
              str_split ":" path_ = (before ++ dir :: after)%list ∧
              Forall (misses w name) before ∧
              found = os_path_join dir name ∧ path_exists w found = true
        | None => Forall (misses w name) (str_split ":" path_)
        end
  end.
Proof.
  unfold find_in_path. destruct (environ !! "PATH") as [path_|]; [|done].
  eexists. split; [done|]. apply find_in_dirs_first.
Qed.

(** ** [PythonSourceFinder.add_path] *)

Lemma add_path_spec (realpath : string → string) (scan_locs : list Scan)
    (path_ : string) :
  add_path realpath scan_locs path_
    = if decide (realpath path_ ∈ path <$> scan_locs) then scan_locs
      else (scan_locs ++ [mkScan None (realpath path_)])%list.
Proof.
  unfold add_path.
  destruct (existsb _ _) eqn:Hex; destruct (decide _) as [Hin|Hin]; try done.
  - exfalso. apply Hin. apply existsb_exists in Hex as (loc & Hloc & Heq).
    apply String.eqb_eq in Heq as <-. apply list_elem_of_fmap. exists loc.
    split; [done|]. by apply list_elem_of_In.
  - exfalso. apply list_elem_of_fmap in Hin as (loc & Heq & Hloc).
    assert (existsb (λ scan_loc, String.eqb (path scan_loc) (realpath path_))
              scan_locs = true) as Hex'; [|congruence].
    apply existsb_exists. exists loc. split; [by apply list_elem_of_In|].
    rewrite Heq. apply String.eqb_refl.
Qed.

(** X14: [add_path] never lists a resolved path twice.  Starting from
    locations with distinct paths, any run of [add_path] calls keeps the
    locations it started from at the head, in order, keeps the paths
    distinct, lists exactly the old paths and the resolved new ones, and a
    further call with any of the paths just added changes nothing. *)
Theorem add_paths_distinct (realpath : string → string) (scan_locs : list Scan)
    (paths : list string) :
  NoDup (path <$> scan_locs) →
  NoDup (path <$> add_paths realpath scan_locs paths) ∧
  scan_locs `prefix_of` add_paths realpath scan_locs paths ∧
  (∀ p, p ∈ path <$> add_paths realpath scan_locs paths ↔
        p ∈ path <$> scan_locs ∨ p ∈ realpath <$> paths) ∧
  (∀ p, p ∈ paths →
        add_path realpath (add_paths realpath scan_locs paths) p
          = add_paths realpath scan_locs paths).
Proof.
  unfold add_paths. revert scan_locs.
  induction paths as [|p0 paths IH]; intros scan_locs Hnd; simpl.
  - repeat split; [done|done| |by intros [|?%elem_of_nil]|by intros ? ?%elem_of_nil].
    by left.
  - assert (NoDup (path <$> add_path realpath scan_locs p0)) as Hnd'.
    { rewrite add_path_spec. destruct (decide _) as [Hin|Hin]; [done|].
      rewrite fmap_app. apply NoDup_app. split; [done|]. split.
      - intros x Hx ->%list_elem_of_singleton. done.
      - apply NoDup_singleton. }
    assert (∀ p, p ∈ path <$> add_path realpath scan_locs p0 ↔
                 p ∈ path <$> scan_locs ∨ p = realpath p0) as Hmem.
    { intros p. rewrite add_path_spec. destruct (decide _) as [Hin|Hin].
      - split; [by left|]. by intros [?| ->].
      - rewrite fmap_app, elem_of_app. simpl. rewrite list_elem_of_singleton. done. }
    destruct (IH _ Hnd') as (Hnd'' & Hpre & Hin & Hid).
    split; [done|]. split; [|split].
    + etrans; [|exact Hpre]. rewrite add_path_spec.
      destruct (decide _); [done|]. by apply prefix_app_r.
    + intros p. rewrite Hin, Hmem, ?fmap_cons, elem_of_cons. tauto.
    + intros p [->|Hp]%elem_of_cons; [|by apply Hid].
      rewrite add_path_spec. rewrite decide_True; [done|].
      apply Hin. left. apply Hmem. by right.
Qed.

Lemma add_paths_distinct_witness :
  NoDup (path <$> add_paths (λ p, "/usr/" +:+ p) [] ["lib"; "bin"; "lib"]).
Proof.
  apply (add_paths_distinct (λ p, "/usr/" +:+ p) [] ["lib"; "bin"; "lib"]).
  simpl. constructor.
Defined.

(** ** [XMLConfigManager.save] *)

Lemma xml_save_step_raises (d : dict) (key : string)
    (st : option string * ConfigParser.parser) :
  ∃ e, xml_save_step d key st = Raise e.
Proof.
  unfold xml_save_step. destruct st as [cur_section parser].
  destruct (negb (has_dot key)); [by eauto|].
  destruct (split_dot key) as [section name].
  assert (∀ st1 : string * ConfigParser.parser,
            ∃ e, (value ← getitem d name;
                  _ ← ConfigParser.set st1.2 st1.1 name value;
                  Raise (NameError "FileWriter"))
                 = (Raise e : result (option string * ConfigParser.parser)))
    as Hrest.
  { intros st1. destruct (getitem d name) as [value|e]; simpl; [|by eauto].
    destruct (ConfigParser.set _ _ _ _) as [p|e]; simpl; by eauto. }
  destruct cur_section as [cur|]; simpl;
    [destruct (negb (String.eqb section cur)); simpl|];
    try (destruct (ConfigParser.add_section parser section) as [p1|e]; simpl;
         [|by eauto]);
    apply (Hrest (_, _)).
Qed.

Lemma sort_keys_nil (d : dict) : sort (keys d) = [] ↔ d = ∅.
Proof.
  split.
  - intros Hs. apply map_empty. intros k.
    destruct (d !! k) as [v|] eqn:Hk; [|done].
    assert (k ∈ sort (keys d)) as Hin by (apply elem_of_sort_keys; eauto).
    rewrite Hs in Hin. by apply elem_of_nil in Hin.
  - intros ->. unfold keys. by rewrite map_to_list_empty.
Qed.

(** X15: [XMLConfigManager.save] never writes.  It returns, having created
    no file, on the empty map, and raises on every other map, with the file
    system as it was.  On a map whose keys are all a section, a dot and a
    name without a dot, the exception is the [KeyError] of looking up a
    bare name in the map, or the [ValueError] of a section called
    [DEFAULT]. *)
Theorem xml_save_never_saves (path_ : string) (d : dict) (fs : filesystem) :
  (xml_save path_ d fs).2 = fs ∧
  ((xml_save path_ d fs).1 = Ok tt ↔ d = ∅) ∧
  ((∀ k, is_Some (d !! k) → has_dot k = true ∧ has_dot (split_dot k).2 = false) →
   d ≠ ∅ →
   (∃ name, d !! name = None ∧ (xml_save path_ d fs).1 = Raise (KeyError name)) ∨
   (∃ msg, (xml_save path_ d fs).1 = Raise (ValueError msg))).
Proof.
  unfold xml_save. split; [by destruct (xml_save_loop _ _ _)|].
  destruct (sort (keys d)) as [|key rest] eqn:Hs.
  - apply sort_keys_nil in Hs as ->. simpl. by repeat split.
  - assert (d ≠ ∅) as Hne.
    { intros Hd. apply sort_keys_nil in Hd. congruence. }
    destruct (xml_save_step_raises d key (None, ConfigParser.new)) as [e He].
    change (xml_save_loop d (key :: rest) (None, ConfigParser.new))
      with (st1 ← xml_save_step d key (None, ConfigParser.new);
            xml_save_loop d rest st1).
    rewrite He. simpl. split; [by split|]. intros Hkeys _.
    assert (is_Some (d !! key)) as Hkey.
    { apply elem_of_sort_keys. rewrite Hs. by left. }
    destruct (Hkeys key Hkey) as [Hdot Hname].
    unfold xml_save_step in He. rewrite Hdot in He. simpl in He.
    destruct (split_dot key) as [section name] eqn:Hsplit. simpl in *.
    unfold ConfigParser.add_section in He.
    destruct (String.eqb (lower section) "default").
    + right. injection He as <-. eauto.
    + simpl in He. unfold getitem in He.
      destruct (d !! name) as [value|] eqn:Hv.
      * destruct (Hkeys name (mk_is_Some _ _ Hv)) as [Hd' _]. congruence.
      * left. exists name. simpl in He. injection He as <-. done.
Qed.

(** ** [File] *)

Lemma File_close_mode (self : File) : file_mode (File_close self) = file_mode self.
Proof. unfold File_close. by destruct (file_f self). Qed.

Lemma run_op_reader (self self' : File) (w w' : world) (op : file_op)
    (r : result unit) :
  file_mode self = "r" → run_op self w op = (r, self', w') →
  w' = w ∧ file_mode self' = "r".
Proof.
  intros Hm. destruct op as [| |s|]; simpl.
  - unfold File_open, File_open_. rewrite !File_close_mode, Hm. simpl.
    destruct (files w !! _); intros [= <- <- <-]; by rewrite ?File_close_mode.
  - unfold File_read, File_open_. rewrite Hm. simpl.
    destruct (file_f self) as [f|].
    + destruct (pyfile_read f w) as [[text f1]|e]; by intros [= <- <- <-].
    + destruct (files w !! _); [|by intros [= <- <- <-]].
      destruct (pyfile_read _ w) as [[text f1]|e]; by intros [= <- <- <-].
  - unfold File_write. rewrite Hm. simpl. by intros [= <- <- <-].
  - intros [= <- <- <-]. by rewrite File_close_mode.
Qed.

(** X16: a [File] made for reading never changes anything outside it:
    whatever is called on it, [open], [read], [write] and [close] in any
    order and number, leaves every file as it was, whether the calls
    return or one of them aborts. *)
Theorem File_reader_never_writes (self self' : File) (w w' : world)
    (ops : list file_op) (r : result unit) :
  file_mode self = "r" → run_ops self w ops = (r, self', w') → w' = w.
Proof.
  revert self w. induction ops as [|op ops IH]; intros self w Hm; simpl.
  - by intros [= _ _ <-].
  - destruct (run_op self w op) as [[[[]|e] self1] w1] eqn:Hop;
      destruct (run_op_reader _ _ _ _ _ _ Hm Hop) as [-> Hm1].
    + by apply IH.
    + by intros [= _ _ <-].
Qed.

Lemma File_reader_never_writes_witness :
  (run_ops (mkFile "a.txt" "r" None) example_world
     [FOpen; FRead; FWrite "x"; FClose]).2 = example_world.
Proof.
  destruct (run_ops _ _ _) as [[r self'] w'] eqn:Hrun.
  apply (File_reader_never_writes (mkFile "a.txt" "r" None) self' example_world w'
           [FOpen; FRead; FWrite "x"; FClose] r); [reflexivity|exact Hrun].
Defined.

Lemma str_take_length (t : string) : str_take (String.length t) t = t.
Proof. induction t as [|c t IH]; [done|]. simpl. by rewrite IH. Qed.

Lemma str_drop_length (t : string) (n : nat) :
  str_drop (String.length t + n) t = "".
Proof. induction t as [|c t IH]; [by destruct n|]. simpl. by rewrite IH. Qed.

Lemma write_at_end (s t : string) : write_at (String.length t) s t = t +:+ s.
Proof.
  unfold write_at. rewrite str_take_length, str_drop_length, Nat.sub_diag. simpl.
  by rewrite app_empty_l, app_empty_r.
Qed.

Lemma File_writes_append (path_ p : string) (w : world) (ss : list string)
    (text : string) :
  files w !! p = Some text →
  ∃ w',
    run_ops (mkFile path_ "w" (Some (mkPyfile p false (String.length text)))) w
      ((FWrite <$> ss) ++ [FClose])
    = (Ok tt,
       mkFile path_ "w"
         (Some (mkPyfile p true (String.length (text +:+ String.concat "" ss)))),
       w') ∧
    w' = with_files w (<[p := text +:+ String.concat "" ss]> (files w)).
Proof.
  revert w text. induction ss as [|s ss IH]; intros w text Hp.
  - eexists. split; [by rewrite app_empty_r|].
    rewrite app_empty_r. rewrite insert_id by done. by destruct w.
  - rewrite fmap_cons, concat_empty_cons, <- app_assoc_str.
    change ((FWrite s :: (FWrite <$> ss)) ++ [FClose])%list
      with (FWrite s :: ((FWrite <$> ss) ++ [FClose]))%list.
    cbn [run_ops run_op]. unfold File_write. cbn [file_mode file_f py_closed]. simpl negb.
    cbn [py_path py_pos file_path]. rewrite Hp. cbn [default from_option id].
    rewrite write_at_end, <- str_length_app.
    edestruct (IH (with_files w (<[p := text +:+ s]> (files w))) (text +:+ s))
      as (w' & -> & ->); [by simpl; rewrite lookup_insert_eq|].
    eexists. split; [done|]. unfold with_files. simpl. by rewrite insert_insert_eq.
Qed.

(** X17: what is written through a [File] is what a [File] reads back.
    Where the path can be opened for writing, opening a [File] made for
    writing, writing texts to it and closing it returns, leaves in the file
    the texts in the order written and nothing of what the file held
    before, and changes no other file; a [File] made for reading on the
    same path then reads exactly that. *)
Theorem File_write_then_read (path_ : string) (ss : list string) (w : world) :
  abspath w path_ ∉ unwritable w → dirs w !! abspath w path_ = None →
  ∃ fw fr self w',
    File_init path_ "w" = Ok fw ∧ File_init path_ "r" = Ok fr ∧
    run_ops fw w (FOpen :: (FWrite <$> ss) ++ [FClose]) = (Ok tt, self, w') ∧
    files w' = <[abspath w path_ := String.concat "" ss]> (files w) ∧
    File_read fr w' = (Ok (String.concat "" ss), fr, w').
Proof.
  intros Hw Hd. eexists _, _. 
  destruct (File_writes_append path_ (abspath w path_)
              (with_files w (<[abspath w path_ := ""]> (files w))) ss "")
    as (w' & Hrun & ->); [by simpl; rewrite lookup_insert_eq|].
  eexists _, _. split; [done|]. split; [done|].
  cbn [run_ops run_op]. unfold File_open, File_open_. cbn [File_close file_f file_mode file_path].
  simpl String.eqb. cbn iota. rewrite bool_decide_false by done.
  rewrite bool_decide_false by (rewrite Hd; by intros [? [=]]).
  cbn [orb]. cbn iota. split; [exact Hrun|].
  rewrite app_empty_l. split; [by simpl; rewrite insert_insert_eq|].
  unfold File_read, File_open_, pyfile_read. simpl negb. cbn iota.
  cbn [file_f file_mode file_path]. simpl String.eqb. cbn iota.
  change (abspath (with_files _ _) path_) with (abspath w path_).
  cbn [files with_files]. rewrite lookup_insert_eq. cbn [py_closed py_path py_pos].
  cbn iota. cbn [files with_files]. rewrite lookup_insert_eq. done.
Qed.

Lemma File_write_then_read_witness :
  ∃ w', (run_ops (mkFile "b.txt" "w" None) example_world
          (FOpen :: (FWrite <$> ["x"; "yz"]) ++ [FClose])).2 = w' ∧
        File_read (mkFile "b.txt" "r" None) w' = (Ok "xyz", mkFile "b.txt" "r" None, w').
Proof.
  destruct (File_write_then_read "b.txt" ["x"; "yz"] example_world)
    as (fw & fr & self & w' & [= <-] & [= <-] & Hrun & _ & Hread).
  - vm_compute. set_solver.
  - reflexivity.
  - exists w'. split; [by rewrite Hrun|exact Hread].
Defined.

(** ** [Zipper]: the archive and its manifest *)

Lemma Zipper_debug_archives (self : Zipper) (w : world) (msg : string) :
  archives (Zipper_debug self w msg) = archives w.
Proof. unfold Zipper_debug, debug. by destruct (debug_enabled w). Qed.

Lemma add_file_excluded_bound (w : world) (path_in : string) (res : list regex)
    (v : option string) :
  is_Some v ∨ res ≠ [] → is_Some (add_file_excluded w path_in res v).2.
Proof.
  revert v. induction res as [|re_exclude rest IH]; intros v Hv.
  - by destruct Hv.
  - simpl. destruct (re_search re_exclude path_in); [by eauto|].
    apply IH. left. by eauto.
Qed.

Lemma excluded_ext (self1 self : Zipper) (path_in : string) :
  re_excludes self1 = re_excludes self → excluded self1 path_in = excluded self path_in.
Proof. unfold excluded. by intros ->. Qed.

Lemma unexcluded_ext (self1 self : Zipper) (l : list (string * string)) :
  re_excludes self1 = re_excludes self → unexcluded self1 l = unexcluded self l.
Proof. unfold unexcluded, excluded. by intros ->. Qed.

Lemma archive_eta (a : archive) :
  finalized a = false → a = mkArchive (entries a) false.
Proof. destruct a as [es f]. simpl. by intros ->. Qed.

(** What [ZipFile.write] does to an open archive. *)
Lemma write_effect (w : world) (zip filename arcname : string) (a : archive) :
  archives w !! zip = Some a → finalized a = false →
  match ZipFile.write w zip filename arcname with
  | Ok (Some w1) =>
      ∃ name data, file_entry_of arcname name ∧
        archives w1 = <[zip := mkArchive (entries a ++ [(name, data)]) false]> (archives w)
  | _ => True
  end.
Proof.
  intros Ha Hf. unfold ZipFile.write. rewrite Ha, Hf.
  destruct (dirs w !! _) as [walk|]; [|destruct (files w !! _) as [data|]];
    [| |done];
    (destruct (ZipFile.arcname_of arcname) as [n|e] eqn:Hn; simpl; [|done]);
    unfold ZipFile.writestr; rewrite Ha, Hf; simpl.
  - exists (ZipFile.zipinfo_name (n +:+ "/")), "". split; [|done].
    exists n. split; [done|by right].
  - exists (ZipFile.zipinfo_name n), data. split; [|done].
    exists n. split; [done|by left].
Qed.

Lemma add_file_effect (self self' : Zipper) (w w' : world)
    (path_in path_out zip : string) (a : archive) (r : result unit) :
  add_file self w path_in path_out = (r, self', w') →
  output_zip self = Some zip → archives w !! zip = Some a → finalized a = false →
  let added := match r with
               | Ok _ => if excluded self path_in then [] else [path_out]
               | Raise _ => []
               end in
  output_zip self' = Some zip ∧ re_excludes self' = re_excludes self ∧
  manifest self' = (manifest self ++ added)%list ∧
  ∃ new, archives w' !! zip = Some (mkArchive (entries a ++ new) false) ∧
         Forall2 file_entry_of added new.*1.
Proof.
  intros Hadd Hzip Ha Hf. unfold add_file, excluded in *.
  rewrite <- (add_file_excluded_spec w path_in (re_excludes self) None).
  destruct (add_file_excluded _ _ _ _) as [[] [full|]]; cbn [local_var fst] in *.
  - injection Hadd as <- <- <-. cbn zeta. rewrite app_nil_r. split_and!; try done.
    exists []. rewrite Zipper_debug_archives, Ha. split; [|constructor].
    rewrite ?app_nil_r. f_equal. by apply archive_eta.
  - injection Hadd as <- <- <-. cbn zeta. rewrite app_nil_r. split_and!; try done.
    exists []. rewrite Ha. split; [|constructor].
    rewrite ?app_nil_r. f_equal. by apply archive_eta.
  - rewrite Hzip in Hadd.
    pose proof (write_effect (Zipper_debug self w
                                ("add " +:+ dquote +:+ full +:+ dquote +:+ " as "
                                   +:+ dquote +:+ path_out +:+ dquote))
                  zip path_in path_out a) as Hw.
    rewrite Zipper_debug_archives in Hw. specialize (Hw Ha Hf).
    destruct (ZipFile.write _ _ _ _) as [[w2|]|e].
    + injection Hadd as <- <- <-. cbn zeta. destruct Hw as (name & data & Hn & Hw).
      split_and!; try done. exists [(name, data)].
      rewrite Hw, lookup_insert_eq. split; [done|]. by repeat constructor.
    + injection Hadd as <- <- <-. cbn zeta. rewrite app_nil_r. split_and!; try done.
      exists []. rewrite Zipper_debug_archives, Ha. split; [|constructor].
      rewrite ?app_nil_r. f_equal. by apply archive_eta.
    + injection Hadd as <- <- <-. cbn zeta. rewrite app_nil_r. split_and!; try done.
      exists []. rewrite Zipper_debug_archives, Ha. split; [|constructor].
      rewrite ?app_nil_r. f_equal. by apply archive_eta.
  - injection Hadd as <- <- <-. cbn zeta. rewrite app_nil_r. split_and!; try done.
    exists []. rewrite Ha. split; [|constructor].
    rewrite ?app_nil_r. f_equal. by apply archive_eta.
Qed.


Lemma unexcluded_app (self : Zipper) (l1 l2 : list (string * string)) :
  unexcluded self (l1 ++ l2) = (unexcluded self l1 ++ unexcluded self l2)%list.
Proof. unfold unexcluded. by rewrite List.filter_app, fmap_app. Qed.

Lemma walk_files_cons (dst : string) (x : string * list string)
    (rest : list (string * list string)) :
  walk_files dst (x :: rest) = (walk_files dst [x] ++ walk_files dst rest)%list.
Proof. unfold walk_files. cbn [flat_map]. by rewrite app_nil_r. Qed.

Lemma add_directory_files_effect (self self' : Zipper) (w w' : world)
    (dst basedir zip : string) (a : archive) (filenames : list string)
    (r : result unit) :
  add_directory_files self w dst basedir filenames = (r, self', w') →
  output_zip self = Some zip → archives w !! zip = Some a → finalized a = false →
  output_zip self' = Some zip ∧ re_excludes self' = re_excludes self ∧
  ∃ added new,
    manifest self' = (manifest self ++ added)%list ∧
    archives w' !! zip = Some (mkArchive (entries a ++ new) false) ∧
    Forall2 file_entry_of added new.*1 ∧
    added `prefix_of` unexcluded self (walk_files dst [(basedir, filenames)]) ∧
    (r = Ok tt → added = unexcluded self (walk_files dst [(basedir, filenames)])).
Proof.
  unfold walk_files. cbn [flat_map]. rewrite app_nil_r.
  revert self w a. induction filenames as [|filename rest IH];
    intros self w a Hadd Hzip Ha Hf.
  - simpl in Hadd. injection Hadd as <- <- <-. split_and!; try done.
    exists [], []. rewrite !app_nil_r, Ha. split_and!; try done.
    f_equal. by apply archive_eta.
  - cbn [add_directory_files] in Hadd.
    destruct (add_file self w _ _) as [[r1 self1] w1] eqn:Hfile.
    destruct (add_file_effect _ _ _ _ _ _ _ _ _ Hfile Hzip Ha Hf)
      as (Hz1 & Hre1 & Hm1 & new1 & Ha1 & Hent1).
    assert (∀ l, List.filter (λ io : string * string, negb (excluded self1 io.1)) l
                 = List.filter (λ io : string * string, negb (excluded self io.1)) l)
      as Hfil.
    { intros l. apply List.filter_ext. intros io. by rewrite (excluded_ext self1 self). }
    unfold unexcluded in *. cbn [List.map List.filter fst].
    destruct r1 as [[]|e].
    + destruct (IH _ _ _ Hadd Hz1 Ha1 eq_refl)
        as (Hz' & Hre' & added & new & Hm' & Ha' & Hent & Hpre & Hall).
      cbn [entries] in Ha'. rewrite Hfil in Hpre, Hall.
      split; [done|]. split; [congruence|].
      destruct (excluded self (str_drop 2 (os_path_join basedir filename))) eqn:Hex;
        rewrite ?Hex in Hm1, Hent1; cbn [negb].
      * apply Forall2_nil_inv_l in Hent1. destruct new1; [|done].
        exists added, new. rewrite Hm', Hm1, !app_nil_r in *. by split_and!.
      * exists (os_path_join (os_path_join dst (str_drop 2 basedir)) filename :: added),
          (new1 ++ new)%list.
        rewrite Hm', Hm1, <- !app_assoc, fmap_app. cbn [fmap list_fmap snd].
        split_and!; [done|by rewrite Ha', <- app_assoc| |by apply prefix_cons|].
        -- match goal with
           | |- Forall2 _ (?x :: _) _ => change (x :: added) with ([x] ++ added)%list
           end.
           by apply Forall2_app.
        -- intros Hr. by rewrite Hall.
    + injection Hadd as <- <- <-. split; [done|]. split; [done|].
      exists [], new1. rewrite Hm1. split_and!; try done. apply prefix_nil.
Qed.

Lemma add_directory_walk_effect (self self' : Zipper) (w w' : world)
    (dst zip : string) (a : archive) (walk : list (string * list string))
    (r : result unit) :
  add_directory_walk self w dst walk = (r, self', w') →
  output_zip self = Some zip → archives w !! zip = Some a → finalized a = false →
  output_zip self' = Some zip ∧ re_excludes self' = re_excludes self ∧
  ∃ added new,
    manifest self' = (manifest self ++ added)%list ∧
    archives w' !! zip = Some (mkArchive (entries a ++ new) false) ∧
    Forall2 file_entry_of added new.*1 ∧
    added `prefix_of` unexcluded self (walk_files dst walk) ∧
    (r = Ok tt → added = unexcluded self (walk_files dst walk)).
Proof.
  revert self w a. induction walk as [|[basedir filenames] rest IH];
    intros self w a Hadd Hzip Ha Hf.
  - simpl in Hadd. injection Hadd as <- <- <-. split_and!; try done.
    exists [], []. rewrite !app_nil_r, Ha. split_and!; try done.
    f_equal. by apply archive_eta.
  - cbn [add_directory_walk] in Hadd.
    rewrite walk_files_cons, unexcluded_app.
    destruct (add_directory_files self w dst basedir filenames)
      as [[r1 self1] w1] eqn:Hfiles.
    destruct (add_directory_files_effect _ _ _ _ _ _ _ _ _ _ Hfiles Hzip Ha Hf)
      as (Hz1 & Hre1 & added1 & new1 & Hm1 & Ha1 & Hent1 & Hpre1 & Hall1).
    destruct r1 as [[]|e].
    + destruct (IH _ _ _ Hadd Hz1 Ha1 eq_refl)
        as (Hz' & Hre' & added & new & Hm' & Ha' & Hent & Hpre & Hall).
      cbn [entries] in Ha'. rewrite (unexcluded_ext self1 self) in * by done.
      split; [done|]. split; [congruence|].
      exists (added1 ++ added)%list, (new1 ++ new)%list.
      rewrite Hm', Hm1, <- !app_assoc, fmap_app.
      split_and!; [done|by rewrite Ha', <- app_assoc|by apply Forall2_app| |].
      * rewrite <- (Hall1 eq_refl). by apply prefix_app.
      * intros Hr. by rewrite Hall, (Hall1 eq_refl).
    + injection Hadd as <- <- <-. split; [done|]. split; [done|].
      exists added1, new1. split_and!; try done. by apply prefix_app_r.
Qed.

(** X18: [add_directory] on an open [Zipper] adds, in the order of the
    walk, the files of the tree that no pattern of the constructor
    matches.  When it returns, the manifest has grown by exactly their
    destination paths as the method joins them ([dst], the directory below
    the source, the file name), and the zip file by one entry for each, in
    the same order, under the name that [zipfile] makes of that path;
    when it ends by an exception, both have grown by the first of them.
    The working directory is afterwards what it was. *)
Theorem add_directory_lists_unexcluded (self self' : Zipper) (w w' : world)
    (path_in dst zip : string) (a : archive) (excludes : list string)
    (walk : list (string * list string)) (r : result unit) :
  output_zip self = Some zip → archives w !! zip = Some a → finalized a = false →
  dirs w !! abspath w path_in = Some walk →
  add_directory self w path_in dst excludes = (r, self', w') →
  cwd w' = cwd w ∧
  ∃ added new,
    manifest self' = (manifest self ++ added)%list ∧
    archives w' !! zip = Some (mkArchive (entries a ++ new) false) ∧
    Forall2 file_entry_of added new.*1 ∧
    added `prefix_of` unexcluded self (walk_files dst walk) ∧
    (r = Ok tt → added = unexcluded self (walk_files dst walk)).
Proof.
  intros Hzip Ha Hf Hwalk. unfold add_directory. rewrite Hwalk.
  destruct (add_directory_walk _ _ _ _) as [[r1 self1] w1] eqn:Hw.
  intros [= <- <- <-]. split; [done|].
  by apply (add_directory_walk_effect _ _ _ _ _ _ _ _ _ Hw Hzip) in Hf as (_ & _ & ?).
Qed.

Lemma add_directory_lists_unexcluded_witness :
  ∃ self' w' new,
    add_directory (opened ["secret"]).1 (opened ["secret"]).2 "proj" "." []
      = (Ok tt, self', w') ∧
    manifest self' = ["./sub/a.py"] ∧
    archives w' !! "/home/u/out.zip" = Some (mkArchive new false) ∧
    new.*1 = ["sub/a.py"].
Proof.
  destruct (add_directory (opened ["secret"]).1 (opened ["secret"]).2 "proj" "." [])
    as [[r self'] w'] eqn:Hadd.
  assert (r = Ok tt) as -> by (by vm_compute in Hadd; injection Hadd as <- _ _).
  destruct (add_directory_lists_unexcluded
              (opened ["secret"]).1 self' (opened ["secret"]).2 w'
              "proj" "." "/home/u/out.zip"
              (mkArchive [] false) [] [(".", ["secret.txt"]); ("./sub", ["a.py"])]
              (Ok tt))
    as (_ & added & new & Hm & Ha & _ & _ & Hall);
    [reflexivity|vm_compute; reflexivity|reflexivity|vm_compute; reflexivity
    |exact Hadd|].
  exists self', w', new. split; [done|]. rewrite Hm, (Hall eq_refl).
  split; [reflexivity|]. split; [exact Ha|].
  vm_compute in Hadd. injection Hadd as _ <-. vm_compute in Ha.
  injection Ha as <-. reflexivity.
Defined.









(** X20: a [Zipper] is of no use after [close].  Once [close] has returned
    on an open [Zipper], [add_string] and a second [close] raise
    [RuntimeError].  [add_file] only logs for a path that a pattern of the
    constructor matches; for any other path, whether or not it names a
    file, it raises [RuntimeError], or [UnboundLocalError] when the
    [Zipper] was built without patterns.  None of them changes the object
    or the zip file. *)
Theorem closed_zipper_refuses (self : Zipper) (w w1 : world) :
  is_Some (output_zip self) →
  Zipper_close self w = (Ok tt, self, w1) →
  (∀ s path_out, refused self w1 (add_string self w1 s path_out)) ∧
  (∀ path_in path_out,
     (add_file self w1 path_in path_out).1.2 = self ∧
     archives (add_file self w1 path_in path_out).2 = archives w1 ∧
     (add_file self w1 path_in path_out).1.1
       = if excluded self path_in then Ok tt
         else match re_excludes self with
              | [] => Raise (UnboundLocalError "path_in_full")
              | _ :: _ =>
                  Raise (RuntimeError
                           "Attempt to write to ZIP archive that was already closed")
              end) ∧
  refused self w1 (Zipper_close self w1).
Proof.
  intros [zip Hzip]. unfold Zipper_close at 1. rewrite Hzip.
  unfold ZipFile.writestr at 1.
  destruct (archives w !! zip) as [a|] eqn:Ha; [|discriminate].
  destruct (finalized a) eqn:Hf; [discriminate|].
  intros [= <-].
  set (w1 := ZipFile.close _ zip).
  assert (∃ a1, archives w1 !! zip = Some a1 ∧ finalized a1 = true) as (a1 & Ha1 & Hf1).
  { eexists. unfold w1, ZipFile.close. simpl. rewrite lookup_insert_eq. simpl.
    rewrite lookup_insert_eq. done. }
  clearbody w1. split; [|split].
  - intros s path_out. unfold refused, add_string. rewrite Hzip.
    unfold ZipFile.writestr. rewrite Zipper_debug_archives, Ha1, Hf1. simpl.
    split; [by eauto|]. split; [done|]. by rewrite Zipper_debug_archives.
  - intros path_in path_out. unfold add_file, excluded.
    rewrite <- (add_file_excluded_spec w1 path_in (re_excludes self) None).
    destruct (add_file_excluded _ _ _ _) as [b [full|]] eqn:Hloop; simpl.
    + destruct b; simpl; [by rewrite Zipper_debug_archives|].
      rewrite Hzip. unfold ZipFile.write.
      rewrite Zipper_debug_archives, Ha1, Hf1. simpl.
      rewrite Zipper_debug_archives.
      destruct (re_excludes self); [discriminate Hloop|done].
    + destruct (re_excludes self) as [|re res] eqn:Hre.
      * simpl in Hloop. injection Hloop as <-. done.
      * exfalso.
        destruct (add_file_excluded_bound w1 path_in (re :: res) None)
          as [full Hfull]; [by right|].
        rewrite Hloop in Hfull. discriminate.
  - unfold refused, Zipper_close. rewrite Hzip. unfold ZipFile.writestr.
    rewrite Ha1, Hf1. simpl. split; [by eauto|]. done.
Qed.

Lemma closed_zipper_refuses_witness :
  refused (opened ["pyc"]).1 (Zipper_close (opened ["pyc"]).1 (opened ["pyc"]).2).2
    (add_string (opened ["pyc"]).1
       (Zipper_close (opened ["pyc"]).1 (opened ["pyc"]).2).2 "hello" "README") ∧
  (add_file (opened ["pyc"]).1
     (Zipper_close (opened ["pyc"]).1 (opened ["pyc"]).2).2 "none" "x").1.1
    = Raise (RuntimeError "Attempt to write to ZIP archive that was already closed").
Proof.
  destruct (closed_zipper_refuses (opened ["pyc"]).1 (opened ["pyc"]).2
              (Zipper_close (opened ["pyc"]).1 (opened ["pyc"]).2).2)
    as (Hstr & Hfile & _).
  - simpl. by eexists.
  - reflexivity.
  - split; [apply Hstr|]. destruct (Hfile "none" "x") as (_ & _ & ->). reflexivity.
Defined.

(** ** [load]: what the map holds *)

Lemma oget_oset_eq {V} (k k' : string) (v : V) (d : odict V) :
  oget k' (oset k v d) = if String.eqb k' k then Some v else oget k' d.
Proof.
  induction d as [|[k0 v0] d IH]; simpl; [done|].
  destruct (String.eqb_spec k k0) as [->|Hk]; simpl.
  - by destruct (String.eqb k' k0).
  - rewrite IH. destruct (String.eqb_spec k' k0) as [->|]; [|done].
    by rewrite (proj2 (String.eqb_neq k0 k)).
Qed.

Lemma oget_snoc_eq {V} (k k' : string) (v : V) (d : odict V) :
  oget k' (d ++ [(k, v)])%list
    = match oget k' d with
      | Some x => Some x
      | None => if String.eqb k' k then Some v else None
      end.
Proof.
  induction d as [|[k0 v0] d IH]; simpl; [done|].
  by destruct (String.eqb k' k0).
Qed.

Lemma oget_None {V} (k : string) (d : odict V) : oget k d = None → k ∉ d.*1.
Proof.
  intros Hk Hin. apply elem_of_oget in Hin as (v & Hv & _). congruence.
Qed.

Lemma oset_keys {V} (k : string) (v : V) (d : odict V) :
  (oset k v d).*1 = match oget k d with
                    | Some _ => d.*1
                    | None => (d.*1 ++ [k])%list
                    end.
Proof.
  induction d as [|[k0 v0] d IH]; [done|]. cbn [oset oget].
  destruct (String.eqb_spec k k0) as [->|Hk]; [done|].
  rewrite !fmap_cons, IH. by destruct (oget k d).
Qed.

Lemma oset_NoDup {V} (k : string) (v : V) (d : odict V) :
  NoDup d.*1 → NoDup (oset k v d).*1.
Proof.
  intros Hnd. rewrite oset_keys. destruct (oget k d) eqn:Hk; [done|].
  apply NoDup_app. split; [done|]. split; [|apply NoDup_singleton].
  intros x Hx ->%list_elem_of_singleton. by apply oget_None in Hk.
Qed.

Lemma read_options_NoDup (lines : list (string * string)) (cursect : odict string) :
  NoDup cursect.*1 → NoDup (read_options lines cursect).*1.
Proof.
  unfold read_options. revert cursect.
  induction lines as [|nv lines IH]; intros cursect Hnd; simpl; [done|].
  apply IH. by apply oset_NoDup.
Qed.

Lemma oget_read_options (n : string) (lines : list (string * string))
    (cursect : odict string) :
  oget n (read_options lines cursect) = line_value n lines (oget n cursect).
Proof.
  unfold read_options, line_value. revert cursect.
  induction lines as [|nv lines IH]; intros cursect; simpl; [done|].
  by rewrite IH, oget_oset_eq.
Qed.

Lemma oupdate_NoDup (d e : odict string) : NoDup d.*1 → NoDup (oupdate d e).*1.
Proof.
  unfold oupdate. revert d. induction e as [|kv e IH]; intros d Hnd; simpl; [done|].
  apply IH. by apply oset_NoDup.
Qed.

Lemma oget_oupdate (n : string) (d e : odict string) :
  NoDup e.*1 →
  oget n (oupdate d e) = match oget n e with Some v => Some v | None => oget n d end.
Proof.
  unfold oupdate. revert d. induction e as [|[k v] e IH]; intros d Hnd; [done|].
  rewrite fmap_cons in Hnd. apply NoDup_cons in Hnd as [Hk Hnd].
  cbn [fold_left oget fst snd] in *. rewrite IH by done.
  destruct (String.eqb_spec n k) as [->|Hn].
  - destruct (oget k e) as [x|] eqn:He.
    + exfalso. apply Hk. apply oget_elem_of in He.
      apply list_elem_of_fmap. by exists (k, x).
    + by rewrite oget_oset_eq, String.eqb_refl.
  - rewrite oget_oset_eq, (proj2 (String.eqb_neq n k)) by done. done.
Qed.

Lemma oget_visible (n : string) (d : odict string) :
  oget n (visible d) = if String.eqb n "__name__" then None else oget n d.
Proof.
  unfold visible. induction d as [|[k v] d IH]; simpl.
  - by destruct (String.eqb n "__name__").
  - destruct (String.eqb_spec k "__name__") as [->|Hk]; simpl.
    + rewrite IH. by destruct (String.eqb n "__name__").
    + rewrite IH. destruct (String.eqb_spec n k) as [->|]; [|done].
      by rewrite (proj2 (String.eqb_neq k "__name__")).
Qed.

Lemma visible_NoDup (d : odict string) : NoDup d.*1 → NoDup (visible d).*1.
Proof.
  unfold visible. induction d as [|[k v] d IH]; simpl; [done|].
  intros [Hk Hnd]%NoDup_cons. destruct (negb _); simpl; [|by apply IH].
  apply NoDup_cons. split; [|by apply IH].
  intros (kv & -> & Hin%list_elem_of_In%filter_In%proj1%list_elem_of_In)%list_elem_of_fmap.
  apply Hk. apply list_elem_of_fmap. by exists kv.
Qed.

Lemma parser_wf_new : parser_wf new.
Proof. repeat split; simpl; by constructor. Qed.

Lemma read_section_wf (p : parser) (s : ini_section) :
  parser_wf p → parser_wf (read_section p s).
Proof.
  intros (Hd & Hs & Hall & Hdef). unfold read_section, parser_wf.
  destruct (oget (header s) (_sections p)) as [cursect|] eqn:Hh; simpl.
  - repeat split; [done|by apply oset_NoDup| |].
    + apply Forall_oset; [|done]. simpl. apply read_options_NoDup.
      apply oget_elem_of in Hh. rewrite Forall_forall in Hall.
      by apply (Hall _ Hh).
    + rewrite oget_oset_eq.
      destruct (String.eqb_spec DEFAULTSECT (header s)) as [Heq|]; [|done].
      rewrite <- Heq in Hh. congruence.
  - destruct (String.eqb_spec (header s) DEFAULTSECT) as [Heq|Hne]; simpl.
    + repeat split; try done. by apply read_options_NoDup.
    + repeat split; [done| | |].
      * rewrite fmap_app. apply NoDup_app. split; [done|].
        split; [|apply NoDup_singleton].
        intros x Hx ->%list_elem_of_singleton. by apply oget_None in Hh.
      * apply Forall_app. split; [done|]. constructor; [|done]. simpl.
        apply read_options_NoDup. simpl. apply NoDup_singleton.
      * rewrite oget_snoc_eq, Hdef.
        by rewrite (proj2 (String.eqb_neq DEFAULTSECT (header s))).
Qed.

Lemma read_file_wf (f : ini_file) (p : parser) :
  parser_wf p → parser_wf (fold_left read_section f p).
Proof.
  revert p. induction f as [|s f IH]; intros p Hp; simpl; [done|].
  apply IH. by apply read_section_wf.
Qed.

Lemma read_section_defaults (p : parser) (s : ini_section) (n : string) :
  parser_wf p →
  oget n (_defaults (read_section p s))
    = if String.eqb (header s) DEFAULTSECT
      then line_value n (options s) (oget n (_defaults p))
      else oget n (_defaults p).
Proof.
  intros (_ & _ & _ & Hdef). unfold read_section.
  destruct (String.eqb_spec (header s) DEFAULTSECT) as [Heq|Hne].
  - rewrite Heq, Hdef. simpl. apply oget_read_options.
  - by destruct (oget (header s) (_sections p)).
Qed.

Lemma read_section_value (p : parser) (s : ini_section) (h n : string) :
  h ≠ DEFAULTSECT →
  section_value (read_section p s) h n
    = if String.eqb (header s) h
      then line_value n (options s) (section_value p h n)
      else section_value p h n.
Proof.
  intros Hh. unfold read_section, section_value.
  destruct (String.eqb_spec (header s) h) as [Heq|Hne].
  - rewrite Heq. destruct (oget h (_sections p)) as [cursect|] eqn:Hsec; simpl.
    + rewrite oget_oset_eq, String.eqb_refl. apply oget_read_options.
    + rewrite (proj2 (String.eqb_neq h DEFAULTSECT)) by done. simpl.
      rewrite oget_snoc_eq, Hsec, String.eqb_refl, oget_read_options. simpl.
      done.
  - destruct (oget (header s) (_sections p)) as [cursect|] eqn:Hsec; simpl.
    + rewrite oget_oset_eq.
      by rewrite (proj2 (String.eqb_neq h (header s))) by done.
    + destruct (String.eqb (header s) DEFAULTSECT); simpl; [done|].
      rewrite oget_snoc_eq.
      rewrite (proj2 (String.eqb_neq h (header s))) by done.
      by destruct (oget h (_sections p)).
Qed.

Lemma read_section_present (p : parser) (s : ini_section) (h : string) :
  h ≠ DEFAULTSECT →
  is_Some (oget h (_sections (read_section p s)))
  ↔ is_Some (oget h (_sections p)) ∨ header s = h.
Proof.
  intros Hh. unfold read_section.
  destruct (oget (header s) (_sections p)) as [cursect|] eqn:Hsec; simpl.
  - rewrite oget_oset. split; [intros [->|?]; auto|].
    intros [?| <-]; [by right|]. right. by rewrite Hsec.
  - destruct (String.eqb_spec (header s) DEFAULTSECT) as [Heq|Hne]; simpl.
    + split; [tauto|]. intros [?|?]; [done|congruence].
    + rewrite oget_snoc. split; intros [?|?]; auto.
Qed.

Lemma read_file_defaults (f : ini_file) (p : parser) (n : string) :
  parser_wf p →
  oget n (_defaults (fold_left read_section f p))
    = file_value_from f DEFAULTSECT n (oget n (_defaults p)).
Proof.
  unfold file_value_from. revert p.
  induction f as [|s f IH]; intros p Hp; simpl; [done|].
  rewrite IH by (by apply read_section_wf). by rewrite read_section_defaults.
Qed.

Lemma read_file_value (f : ini_file) (p : parser) (h n : string) :
  h ≠ DEFAULTSECT →
  section_value (fold_left read_section f p) h n
    = file_value_from f h n (section_value p h n).
Proof.
  intros Hh. unfold file_value_from. revert p.
  induction f as [|s f IH]; intros p; simpl; [done|].
  by rewrite IH, read_section_value.
Qed.

Lemma read_file_present (f : ini_file) (p : parser) (h : string) :
  h ≠ DEFAULTSECT →
  is_Some (oget h (_sections (fold_left read_section f p)))
  ↔ is_Some (oget h (_sections p)) ∨ h ∈ header <$> f.
Proof.
  intros Hh. revert p. induction f as [|s f IH]; intros p; simpl.
  - split; [tauto|]. by intros [?|?%elem_of_nil].
  - rewrite IH, read_section_present, elem_of_cons by done.
    split; [intros [[?|?]|?]|intros [?|[?|?]]]; auto.
Qed.

Lemma line_value_name (n : string) (lines : list (string * string))
    (v0 : option string) :
  line_value n lines v0 = match line_value n lines None with
                         | Some v => Some v
                         | None => v0
                         end.
Proof.
  unfold line_value. revert v0.
  induction lines as [|nv lines IH]; intros v0; simpl; [done|].
  destruct (String.eqb n (optionxform nv.1)); [|apply IH].
  rewrite (IH (Some nv.2)). by destruct (fold_left _ lines None).
Qed.

Lemma file_value_from_init (f : ini_file) (h n : string) (v0 : option string) :
  file_value_from f h n v0 = match file_value f h n with
                            | Some v => Some v
                            | None => v0
                            end.
Proof.
  unfold file_value, file_value_from. revert v0.
  induction f as [|s f IH]; intros v0; simpl; [done|].
  destruct (String.eqb (header s) h); [|apply IH].
  rewrite (IH (line_value n (options s) v0)), (IH (line_value n (options s) None)).
  rewrite (line_value_name n (options s) v0).
  destruct (fold_left _ f None); [done|]. by destruct (line_value n (options s) None).
Qed.

Lemma dotted_inj (h h' n n' : string) :
  has_dot h = false → has_dot h' = false →
  dotted h n = dotted h' n' → h = h' ∧ n = n'.
Proof.
  intros Hh Hh' Heq. apply (f_equal split_dot) in Heq.
  rewrite !split_dot_dotted in Heq by done. by injection Heq.
Qed.

Lemma load_items_other (h : string) (its : list (string * string)) (d : dict)
    (k : string) :
  (∀ n, n ∈ its.*1 → k ≠ dotted h n) → load_items h its d !! k = d !! k.
Proof.
  unfold load_items. revert d.
  induction its as [|[n v] its IH]; intros d Hk; simpl; [done|].
  rewrite IH.
  - apply lookup_insert_ne. intros Heq. apply (Hk n); [by left|done].
  - intros n' Hn'. apply Hk. by right.
Qed.

Lemma load_items_this (h : string) (its : list (string * string)) (d : dict)
    (n : string) :
  has_dot h = false → NoDup its.*1 →
  load_items h its d !! dotted h n
    = match oget n its with Some v => Some v | None => d !! dotted h n end.
Proof.
  intros Hh. revert d.
  induction its as [|[n0 v0] its IH]; intros d Hnd; [done|].
  apply NoDup_cons in Hnd as [Hn0 Hnd].
  change (load_items h ((n0, v0) :: its) d)
    with (load_items h its (<[dotted h n0 := v0]> d)).
  simpl. destruct (String.eqb_spec n n0) as [->|Hn].
  - rewrite load_items_other; [by rewrite lookup_insert_eq|].
    intros n' Hn' Heq. apply dotted_inj in Heq as [_ ->]; done.
  - rewrite IH by done. destruct (oget n its); [done|].
    apply lookup_insert_ne. intros Heq. apply dotted_inj in Heq as [_ ->]; done.
Qed.

Lemma items_plain (hs : list string) (p : parser) (h : string)
    (sect : odict string) :
  entries_inv plain_entry hs p → oget h (_sections p) = Some sect →
  items p h = Ok (merged_options p h).
Proof.
  intros [Hd Hs] Hsec. unfold items, merged_options. rewrite Hsec.
  apply interpolate_all_plain; [|apply visible_not_name].
  apply visible_Forall, oupdate_inv; [done|].
  apply oget_elem_of in Hsec. rewrite Forall_forall in Hs.
  by apply (Hs _ Hsec).
Qed.

Lemma merged_options_lookup (p : parser) (h n : string) :
  parser_wf p → is_Some (oget h (_sections p)) →
  oget n (merged_options p h)
    = if String.eqb n "__name__" then None
      else match section_value p h n with
           | Some v => Some v
           | None => oget n (_defaults p)
           end.
Proof.
  intros (_ & _ & Hall & _) [sect Hsec]. unfold merged_options, section_value.
  rewrite Hsec, oget_visible. destruct (String.eqb n "__name__"); [done|].
  apply oget_oupdate. apply oget_elem_of in Hsec. rewrite Forall_forall in Hall.
  by apply (Hall _ Hsec).
Qed.

Lemma merged_options_NoDup (p : parser) (h : string) :
  parser_wf p → NoDup (merged_options p h).*1.
Proof.
  intros (Hd & _). unfold merged_options.
  destruct (oget h (_sections p)); [|by constructor].
  by apply visible_NoDup, oupdate_NoDup.
Qed.

Lemma load_sections_lookup (hs : list string) (p : parser) (secs : list string)
    (d d' : dict) (h n : string) :
  entries_inv plain_entry hs p → parser_wf p →
  (∀ s, s ∈ secs → is_Some (oget s (_sections p)) ∧ has_dot s = false) →
  NoDup secs → has_dot h = false →
  load_sections p secs d = Ok d' →
  d' !! dotted h n
    = if bool_decide (h ∈ secs)
      then match oget n (merged_options p h) with
           | Some v => Some v
           | None => d !! dotted h n
           end
      else d !! dotted h n.
Proof.
  intros Hinv Hwf Hsecs Hnd Hh. revert d.
  induction secs as [|s secs IH]; intros d; simpl.
  - by intros [= <-].
  - destruct (Hsecs s) as [[sect Hsec] Hs]; [by left|].
    rewrite (items_plain _ _ _ _ Hinv Hsec). simpl.
    apply NoDup_cons in Hnd as [Hs' Hnd]. intros Hload.
    rewrite (IH (λ s' Hin, Hsecs s' (list_elem_of_further _ _ _ Hin)) Hnd _ Hload).
    destruct (decide (h = s)) as [->|Hne].
    + rewrite (bool_decide_true (s ∈ s :: secs)) by (by left).
      rewrite (bool_decide_false (s ∈ secs)) by done.
      apply load_items_this; [done|]. by apply merged_options_NoDup.
    + assert (load_items s (merged_options p s) d !! dotted h n = d !! dotted h n)
        as Hother.
      { apply load_items_other. intros n' _ Heq.
        apply dotted_inj in Heq as [? _]; done. }
      rewrite Hother.
      destruct (bool_decide (h ∈ secs)) eqn:Hin.
      * rewrite (bool_decide_true (h ∈ s :: secs)); [done|].
        right. by apply bool_decide_eq_true_1 in Hin.
      * rewrite (bool_decide_false (h ∈ s :: secs)); [done|].
        intros [?|?]%elem_of_cons; [done|].
        by apply bool_decide_eq_false_1 in Hin.
Qed.

Lemma _read_line_raise (st : reader) (lineno : nat) (line : string) (e : exn) :
  _read_line st lineno line = Raise e →
  e = MissingSectionHeaderError lineno line ∧
  is_comment line = false ∧ match_section line = None.
Proof.
  unfold _read_line.
  destruct (is_comment line); [discriminate|].
  destruct (is_rem line); [discriminate|].
  destruct (_ && _ && _).
  { by destruct (String.eqb (strip line) ""). }
  destruct (match_section line); [discriminate|].
  destruct (bool_decide _); [by intros [= <-]|].
  by destruct (match_option line) as [[? ?]|].
Qed.

Lemma _read_line_errors (st st' : reader) (lineno : nat) (line : string)
    (nl : nat * string) :
  _read_line st lineno line = Ok st' → nl ∈ rd_errors st' →
  nl ∈ rd_errors st ∨
  (nl = (lineno, line) ∧ match_section line = None ∧ match_option line = None).
Proof.
  unfold _read_line.
  destruct (is_comment line); [by intros [= <-]; left|].
  destruct (is_rem line); [by intros [= <-]; left|].
  destruct (_ && _ && _).
  { destruct (String.eqb (strip line) ""); intros [= <-]; by left. }
  destruct (match_section line); [by intros [= <-]; left|].
  destruct (bool_decide _); [discriminate|].
  destruct (match_option line) as [[optname optval]|]; intros [= <-]; [by left|].
  simpl. rewrite elem_of_app.
  intros [?| ->%list_elem_of_singleton]; [by left|by right].
Qed.

Lemma _read_loop_errors (before lines : list string) (st : reader) :
  Forall (refused_line (before ++ lines)) (rd_errors st) →
  match _read_loop st (List.length before) lines with
  | Ok st' => Forall (refused_line (before ++ lines)) (rd_errors st')
  | Raise e =>
      ∃ n line, e = MissingSectionHeaderError n line ∧
                (before ++ lines)%list !! Nat.pred n = Some line ∧
                is_comment line = false ∧ match_section line = None
  end.
Proof.
  revert before st. induction lines as [|line rest IH]; intros before st Hst.
  - done.
  - cbn [_read_loop].
    assert ((before ++ line :: rest)%list !! List.length before = Some line)
      as Hline by (by rewrite list_lookup_middle).
    destruct (_read_line st (S (List.length before)) line) as [st1|e] eqn:Hstep.
    + simpl. specialize (IH (before ++ [line])%list st1).
      rewrite <- app_assoc, length_app, Nat.add_1_r in IH. apply IH.
      apply Forall_forall. intros nl Hnl.
      destruct (_read_line_errors _ _ _ _ _ Hstep Hnl) as [Hin|(-> & Hs & Ho)].
      * by apply (proj1 (Forall_forall _ _) Hst).
      * by split.
    + simpl. apply _read_line_raise in Hstep as (-> & Hc & Hs).
      by exists (S (List.length before)), line.
Qed.

(** X21: what [load] returns for a file.  When the parser refuses the
    file, [load] raises what the parser raises: [MissingSectionHeaderError]
    for a line of the file before the first section header that is no
    comment, or [ParsingError] for lines of the file that are neither
    section headers nor options.  When the parser reads the file, its
    section headers hold no dot and its values no percent sign, [load]
    returns a map, and the map holds under [section.name] what the file
    says of that option: nothing unless the file has that section, other
    than [DEFAULT]; otherwise the value of the last line that sets the
    option under that header, names taken in lower case, and failing that
    the value the [DEFAULT] section gives it.  The map holds no other
    keys. *)
Theorem load_lookup (path_ : string) (fs : filesystem) (lines : list string) :
  fs !! path_ = Some lines →
  (∀ e, _read lines = Raise e →
     load path_ fs = Raise e ∧
     ((∃ n line, e = MissingSectionHeaderError n line ∧
                 lines !! Nat.pred n = Some line ∧
                 is_comment line = false ∧ match_section line = None) ∨
      (∃ errors, e = ParsingError errors ∧ errors ≠ [] ∧
                 Forall (refused_line lines) errors))) ∧
  (∀ f, _read lines = Ok f → plain_file f →
     Forall (λ s, has_dot (header s) = false) f →
     ∃ d, load path_ fs = Ok d ∧
          (∀ h n, has_dot h = false → d !! dotted h n = file_says f h n) ∧
          (∀ k, is_Some (d !! k) →
                ∃ h n, k = dotted h n ∧ has_dot h = false)).
Proof.
  intros Hf. unfold load, read. rewrite Hf. split.
  { intros e He. rewrite He. split; [done|].
    unfold _read in He.
    pose proof (_read_loop_errors [] lines (mkReader [] None []))
      as Hloop. simpl in Hloop.
    destruct (_read_loop _ 0 lines) as [st|e'].
    - simpl in He. destruct (rd_errors st) as [|nl errors] eqn:Herr;
        [discriminate|]. injection He as <-. right.
      exists (nl :: errors). split; [done|]. split; [done|]. by apply Hloop.
    - simpl in He. injection He as <-. left. by apply Hloop. }
  intros f Hread Hplain Hdots. rewrite Hread. simpl.
  set (p := fold_left read_section f new).
  assert (parser_wf p) as Hwf by apply read_file_wf, parser_wf_new.
  assert (entries_inv plain_entry (header <$> f) p) as Hinv.
  { apply read_file_inv; [|by split; constructor].
    apply Forall_forall. intros s Hs.
    split; [by apply list_elem_of_fmap_2|]. split; [by left|].
    eapply Forall_impl; [exact (proj1 (Forall_forall _ _) Hplain s Hs)|].
    intros nv Hnv. by right. }
  assert (entries_inv lowered_entry (header <$> f) p) as Hlow.
  { apply read_file_inv; [|by split; constructor].
    apply Forall_forall. intros s Hs.
    split; [by apply list_elem_of_fmap_2|]. split; [done|].
    apply Forall_forall. intros nv _. apply lower_idem. }
  destruct (load_sections_plain (header <$> f) p (sections p) ∅ Hinv (λ s Hs, Hs))
    as [d Hd].
  exists d. split; [done|]. split.
  - intros h n Hh.
    assert (∀ s, s ∈ sections p → is_Some (oget s (_sections p)) ∧ has_dot s = false)
      as Hsecs.
    { intros s Hs. apply elem_of_oget in Hs as (sect & Hsect & _).
      split; [by eauto|].
      destruct (String.eqb_spec s DEFAULTSECT) as [->|Hne]; [done|].
      assert (is_Some (oget s (_sections p))) as Hp by eauto.
      apply read_file_present in Hp as [[? [=]]|Hin]; [|done].
      apply list_elem_of_fmap in Hin as (s0 & -> & Hs0).
      rewrite Forall_forall in Hdots. by apply Hdots. }
    rewrite (load_sections_lookup _ _ _ _ _ h n Hinv Hwf Hsecs
               (proj1 (proj2 Hwf)) Hh Hd).
    rewrite lookup_empty. unfold file_says.
    destruct (String.eqb_spec h DEFAULTSECT) as [->|Hne].
    + rewrite andb_false_r. simpl.
      rewrite bool_decide_false; [done|].
      intros Hin. apply elem_of_oget in Hin as (sect & Hsect & _).
      destruct Hwf as (_ & _ & _ & Hdef). congruence.
    + assert (h ∈ sections p ↔ h ∈ header <$> f) as Hin.
      { split.
        - intros Hs. apply elem_of_oget in Hs as (sect & Hsect & _).
          assert (is_Some (oget h (_sections p))) as Hp by eauto.
          by apply read_file_present in Hp as [[? [=]]|?].
        - intros Hs.
          assert (is_Some (oget h (_sections p))) as [sect Hp]
            by (apply read_file_present; auto).
          apply oget_elem_of in Hp. apply list_elem_of_fmap. by exists (h, sect). }
      destruct (decide (h ∈ header <$> f)) as [Hhf|Hhf].
      * rewrite (bool_decide_true (h ∈ sections p)) by (by apply Hin).
        rewrite (bool_decide_true (h ∈ header <$> f)) by done. simpl.
        rewrite merged_options_lookup
          by (done || apply read_file_present; auto).
        destruct (String.eqb_spec n "__name__") as [->|Hn]; [done|]. simpl.
        unfold p.
        rewrite read_file_value, read_file_defaults by (done || apply parser_wf_new).
        rewrite (file_value_from_init f h n). unfold section_value. simpl.
        rewrite (proj2 (String.eqb_neq n "__name__")) by done.
        fold (file_value f DEFAULTSECT n).
        destruct (file_value f h n); [done|].
        by destruct (file_value f DEFAULTSECT n).
      * rewrite (bool_decide_false (h ∈ sections p)) by (by rewrite Hin).
        by rewrite (bool_decide_false (h ∈ header <$> f)) by done.
  - intros k Hk.
    destruct (load_sections_keys (header <$> f) p (sections p) ∅ d Hlow
                (λ s Hs, Hs) Hd k Hk) as [He|(section & name & Hs & -> & _)].
    { rewrite lookup_empty in He. by destruct He. }
    exists section, name. split; [done|].
    apply list_elem_of_fmap in Hs as (s & -> & Hs).
    rewrite Forall_forall in Hdots. by apply Hdots.
Qed.

Lemma load_lookup_witness :
  (∃ d, load "v.cfg" defaults_fs = Ok d ∧
        d !! "volt.port" = Some "2" ∧ d !! "volt.host" = Some "h0" ∧
        d !! "DEFAULT.host" = None) ∧
  load "bad.cfg" headless_fs = Raise (MissingSectionHeaderError 1 "x = 1").
Proof.
  split.
  - destruct (load_lookup "v.cfg" defaults_fs
                ["# ports"; "[DEFAULT]"; "Host = h0"; ""; "[volt]";
                 "Port : 1"; "port=2 ; the last line wins"] eq_refl)
      as [_ Hok].
    destruct (Hok [mkSection "DEFAULT" [("Host", "h0")];
                   mkSection "volt" [("Port", "1"); ("port", "2")]])
      as (d & Hd & Hl & _).
    + vm_compute. reflexivity.
    + repeat constructor.
    + repeat constructor.
    + exists d. split; [exact Hd|]. split; [|split].
      * apply (Hl "volt" "port"). reflexivity.
      * apply (Hl "volt" "host"). reflexivity.
      * apply (Hl "DEFAULT" "host"). reflexivity.
  - destruct (load_lookup "bad.cfg" headless_fs ["x = 1"] eq_refl)
      as [Hbad _].
    apply (Hbad (MissingSectionHeaderError 1 "x = 1")). vm_compute. reflexivity.
Defined.

(** ** [display_messages] *)

Lemma message_nested_ind (P : message → Prop) :
  P MNone → (∀ s, P (MStr s)) → (∀ c t, P (MExc c t)) →
  (∀ l, Forall P l → P (MSeq l)) → (∀ t, P (MObj t)) → ∀ m, P m.
Proof.
  intros HN HS HE HL HO. fix IH 1.
  intros [|s|c t|l|t]; [exact HN|apply HS|apply HE| |apply HO].
  apply HL. induction l as [|m l IHl]; constructor; [apply IH|exact IHl].
Qed.

Lemma count_char_app (c : ascii) (s t : string) :
  count_char c (s +:+ t) = (count_char c s + count_char c t)%nat.
Proof.
  induction s as [|a s IH]; [done|]. rewrite app_cons. simpl. rewrite IH. lia.
Qed.

Lemma tagged_line_weaken (stag : string) (level level' : nat) (b b' : bool)
    (chunk : string) :
  (level' ≤ level)%nat → (b' = true → b = true) →
  tagged_line stag level b chunk → tagged_line stag level' b' chunk.
Proof.
  intros Hl Hb (n & text & Hn & -> & Ht). exists n, text.
  split; [lia|]. split; [done|]. auto.
Qed.

Lemma display_message_tagged (stag : string) (msg : message) (level : nat) :
  Forall (tagged_line stag level (single_line msg)) (display_message stag level msg).
Proof.
  revert level. induction msg as [|s|c t|l IH|t] using message_nested_ind;
    intros level; cbn [display_message single_line].
  - constructor.
  - apply Forall_fmap, Forall_forall. intros msg2 Hin. exists level, msg2.
    split; [done|]. split; [done|]. intros _.
    pose proof (str_split_count linefeed linefeed s (or_introl eq_refl)) as Hall.
    rewrite Forall_forall in Hall. by apply Hall.
  - constructor; [|constructor].
    exists level, (c +:+ " Exception: " +:+ t). split; [done|].
    split; [by rewrite !app_assoc_str|].
    intros [Hc Ht]%andb_true_iff. apply Nat.eqb_eq in Hc, Ht.
    rewrite !count_char_app, Hc, Ht. reflexivity.
  - induction IH as [|m l Hm _ IHl]; cbn [flat_map forallb]; [constructor|].
    apply Forall_app. split.
    + eapply Forall_impl; [apply Hm|]. intros chunk.
      apply tagged_line_weaken; [lia|]. by intros [? _]%andb_true_iff.
    + eapply Forall_impl; [apply IHl|]. intros chunk.
      apply tagged_line_weaken; [lia|]. by intros [_ ?]%andb_true_iff.
  - constructor; [|constructor]. exists level, t.
    split; [done|]. split; [done|]. by intros ?%Nat.eqb_eq.
Qed.

(** X22: every string that [display_messages] writes is one tagged line:
    the tag (right-justified in eight columns and followed by a colon,
    or nothing without a tag), two spaces for each level of nesting, which
    are at least [level], a text and a line feed.  A string message of
    several lines is written line by line, so the text holds no line feed,
    provided the exceptions and other objects among the messages have
    none in theirs. *)
Theorem display_messages_tagged (msgs : string + list message)
    (tag : option string) (level : nat) :
  Forall (tagged_line (stag_of tag) level
            match msgs with inl _ => true | inr l => forallb single_line l end)
    (display_messages msgs tag level).
Proof.
  unfold display_messages. destruct msgs as [s|l].
  - cbn [flat_map]. rewrite app_nil_r. apply (display_message_tagged _ (MStr s)).
  - induction l as [|m l IH]; cbn [flat_map forallb]; [constructor|].
    apply Forall_app. split.
    + eapply Forall_impl; [apply display_message_tagged|]. intros chunk.
      apply tagged_line_weaken; [lia|]. by intros [? _]%andb_true_iff.
    + eapply Forall_impl; [apply IH|]. intros chunk.
      apply tagged_line_weaken; [lia|]. by intros [_ ?]%andb_true_iff.
Qed.

(** ** [choose] *)

Lemma first_letter_idem (s : string) : first_letter (first_letter s) = first_letter s.
Proof. by destruct s. Qed.

Lemma choose_letters_ok (str : list string → string) (all_choices choices : list string)
    (letters : gset string) (choice_list : list string) :
  Forall (λ choice, choice ≠ "") choices →
  NoDup (first_letter <$> choices) →
  (∀ choice, choice ∈ choices → first_letter choice ∉ letters) →
  choose_letters str all_choices choices letters choice_list
    = Ok (letters ∪ list_to_set (first_letter <$> choices),
          (choice_list ++ (bracketed <$> choices))%list).
Proof.
  revert letters choice_list.
  induction choices as [|choice rest IH]; intros letters choice_list Hne Hnd Hnew.
  - cbn [choose_letters]. rewrite !fmap_nil, list_to_set_nil, app_nil_r.
    by rewrite (right_id_L ∅ (∪)).
  - apply Forall_cons in Hne as [Hc Hne]. rewrite fmap_cons in Hnd.
    apply NoDup_cons in Hnd as [Hfirst Hnd]. cbn [choose_letters].
    rewrite (proj2 (String.eqb_neq choice "")) by done.
    rewrite bool_decide_false by (apply Hnew; by left).
    rewrite IH; [|done|done|].
    + rewrite !fmap_cons, list_to_set_cons, <- app_assoc.
      by rewrite (assoc_L (∪)).
    + intros choice' Hin [Hl|Heq%elem_of_singleton]%elem_of_union.
      * apply (Hnew choice'); [by right|done].
      * apply Hfirst. rewrite <- Heq. by apply list_elem_of_fmap_2.
Qed.

Lemma choose_letters_exit (str : list string → string) (all_choices choices : list string)
    (letters : gset string) (choice_list : list string) (e : exn) :
  choose_letters str all_choices choices letters choice_list = Raise e →
  ∃ msgs, e = SystemExit msgs.
Proof.
  revert letters choice_list.
  induction choices as [|choice rest IH]; intros letters choice_list; [done|].
  cbn [choose_letters]. destruct (String.eqb choice ""); [intros [= <-]; eauto|].
  destruct (bool_decide _); [intros [= <-]; eauto|]. apply IH.
Qed.

Lemma choose_letters_valid (str : list string → string) (all_choices choices : list string)
    (letters : gset string) (choice_list : list string)
    (r : gset string * list string) :
  choose_letters str all_choices choices letters choice_list = Ok r →
  Forall (λ choice, choice ≠ "") choices ∧ NoDup (first_letter <$> choices) ∧
  ∀ choice, choice ∈ choices → first_letter choice ∉ letters.
Proof.
  revert letters choice_list.
  induction choices as [|choice rest IH]; intros letters choice_list.
  - intros _. split; [constructor|]. split; [constructor|].
    by intros ? ?%elem_of_nil.
  - cbn [choose_letters].
    destruct (String.eqb_spec choice "") as [|Hc]; [discriminate|].
    destruct (bool_decide _) eqn:Hin; [discriminate|].
    apply bool_decide_eq_false_1 in Hin.
    intros (Hne & Hnd & Hnew)%IH. split; [by constructor|]. split.
    + rewrite fmap_cons. apply NoDup_cons. split; [|done].
      intros (choice' & Heq & Hin')%list_elem_of_fmap.
      apply (Hnew choice' Hin'). apply elem_of_union. right.
      by apply elem_of_singleton.
    + intros choice' [->|Hin']%elem_of_cons; [done|].
      intros Hl. apply (Hnew choice' Hin'). apply elem_of_union. by left.
Qed.

Lemma choose_loop_first (question : string) (letters : gset string)
    (choices lines out : list string) :
  (∀ r, r ∈ letters ↔ r ∈ first_letter <$> choices) →
  match choose_loop question letters choices lines out with
  | (Some c, out') =>
      ∃ before line after,
        lines = (before ++ line :: after)%list ∧
        Forall (λ l, ¬ acceptable choices (strip l)) before ∧
        acceptable choices (strip line) ∧
        c = first_letter (strip line) ∧ c ∈ first_letter <$> choices ∧
        out' = (out ++ replicate (S (List.length before)) question)%list
  | (None, out') =>
      Forall (λ l, ¬ acceptable choices (strip l)) lines ∧
      out' = (out ++ replicate (List.length lines) question)%list
  end.
Proof.
  intros Hletters. revert out.
  induction lines as [|line rest IH]; intros out; cbn [choose_loop].
  - split; [constructor|]. by rewrite app_nil_r.
  - destruct (bool_decide (strip line ∈ letters) || bool_decide (strip line ∈ choices))
      eqn:Hacc.
    + assert (acceptable choices (strip line)) as Ha.
      { apply orb_true_iff in Hacc as [H%bool_decide_eq_true_1|H%bool_decide_eq_true_1].
        - right. by apply Hletters.
        - by left. }
      exists [], line, rest. split_and!; [done|constructor|done|done| |done].
      destruct Ha as [Hin|Hin]; [by apply list_elem_of_fmap_2|].
      apply list_elem_of_fmap in Hin as (choice & -> & Hin).
      rewrite first_letter_idem. by apply list_elem_of_fmap_2.
    + assert (¬ acceptable choices (strip line)) as Ha.
      { apply orb_false_iff in Hacc as [H1%bool_decide_eq_false_1 H2%bool_decide_eq_false_1].
        intros [?|?]; [done|]. by apply H1, Hletters. }
      specialize (IH (out ++ [question])%list).
      destruct (choose_loop _ _ _ rest _) as [[c|] out'].
      * destruct IH as (before & line' & after & -> & Hb & Hl & Hc & Hin & ->).
        exists (line :: before), line', after.
        split_and!; [done|by constructor|done|done|done|].
        by rewrite <- app_assoc.
      * destruct IH as [Hall ->]. split; [by constructor|].
        by rewrite <- app_assoc.
Qed.

(** X23: [choose] with choices that are not empty and start with different
    letters takes the first line of the input that, stripped of white space
    at both ends, is one of the choices or the first letter of one, and
    returns the first letter of that line, which is the first letter of a
    choice; it has then written its question once for that line and once
    for each line before it.  When the input holds no such line it never
    returns.  With an empty choice, or two choices that start with the same
    letter, it leaves by [abort] before it reads anything. *)
Theorem choose_first_valid (str : list string → string) (prompt : string)
    (choices lines : list string) :
  (Forall (λ choice, choice ≠ "") choices → NoDup (first_letter <$> choices) →
   let question := question_of prompt choices in
     match choose str prompt choices lines with
     | Ok (Some c, out) =>
         ∃ before line after,
           lines = (before ++ line :: after)%list ∧
           Forall (λ l, ¬ acceptable choices (strip l)) before ∧
           acceptable choices (strip line) ∧
           c = first_letter (strip line) ∧ c ∈ first_letter <$> choices ∧
           out = replicate (S (List.length before)) question
     | Ok (None, out) =>
         Forall (λ l, ¬ acceptable choices (strip l)) lines ∧
         out = replicate (List.length lines) question
     | Raise _ => False
     end) ∧
  (¬ (Forall (λ choice, choice ≠ "") choices ∧ NoDup (first_letter <$> choices)) →
   ∃ msgs, choose str prompt choices lines = Raise (SystemExit msgs)).
Proof.
  unfold choose. split.
  - intros Hne Hnd.
    rewrite (choose_letters_ok str choices choices ∅ [] Hne Hnd)
      by (by intros ? _ ?%elem_of_empty).
    simpl. apply (choose_loop_first _ _ choices lines []).
    intros r. rewrite elem_of_union, elem_of_list_to_set.
    split; [by intros [?%elem_of_empty|?]|by right].
  - intros Hbad.
    destruct (choose_letters str choices choices ∅ []) as [r|e] eqn:Hl.
    + exfalso. apply Hbad.
      apply choose_letters_valid in Hl as (Hne & Hnd & _). by split.
    + apply choose_letters_exit in Hl as [msgs ->]. by exists msgs.
Qed.

Lemma choose_first_valid_witness :
  choose (λ _, "") "Go on?" ["yes"; "no"] ["maybe"; " n "; "yes"]
    = Ok (Some "n", ["Go on? ([y]es/[n]o) "; "Go on? ([y]es/[n]o) "]).
Proof.
  destruct (choose_first_valid (λ _, "") "Go on?" ["yes"; "no"] ["maybe"; " n "; "yes"])
    as [Hret _].
  assert (Forall (λ choice, choice ≠ "") ["yes"; "no"]) as Hne
    by (repeat constructor; discriminate).
  assert (NoDup (first_letter <$> ["yes"; "no"])) as Hnd.
  { apply NoDup_cons. split; [|apply NoDup_singleton].
    intros Hin%list_elem_of_singleton. discriminate Hin. }
  specialize (Hret Hne Hnd). simpl in Hret.
  destruct (choose _ _ _ _) as [[[c|] out]|e] eqn:Hc; [|done|done].
  vm_compute in Hc. exact (eq_sym Hc).
Defined.
